(** * node-announcer: a shallow embedding of [TestDir/node-announcer.cpp]

    The program simulates [NUM_NODES] mobile nodes and sends two UDP
    streams to the loopback interface: one datagram per node with its
    position (port 12345) and one datagram per node with a random graph
    snapshot (port 12346).

    The embedding keeps the program's own shape:
    - integers are [Z] with the wrap-around of their C++ type written out;
    - [float] is IEEE-754 binary32, through the parameterised operations
      of [SpecFloat] at precision 24 and maximal exponent 128;
    - a local object ([PositionPacket], [GraphPacket]) is the list of its
      storage cells, each one indeterminate until it is written;
    - [std::map] is a key-ordered association list;
    - the random engine is an abstract state threaded through the
      distributions, which are only known by their range;
    - the two server loops are step machines that read the shared
      [running] flag where the source reads it. *)

From Stdlib Require Import ZArith Zquot List Bool Lia.
From Stdlib Require Import Floats.SpecFloat.
Import ListNotations.

Local Open Scope Z_scope.

(* ================================================================= *)
(** * Machine integers and bytes *)

Module Machine.

(** Conversion to [uint16_t], [int] and [size_t] (modular for the unsigned
    types, as the language defines it). *)
Definition u16 (z : Z) : Z := z mod 65536.
Definition size_t (z : Z) : Z := z mod 2 ^ 64.

(** The two bytes of a [uint16_t] and the four bytes of a 32-bit word as
    the little-endian host stores them. *)
Definition le16 (z : Z) : list Z := [z mod 256; (z / 256) mod 256].
Definition le32 (z : Z) : list Z :=
  [z mod 256; (z / 256) mod 256; (z / 65536) mod 256; (z / 16777216) mod 256].

(** Reading a little-endian unsigned integer back from its bytes. *)
Fixpoint le_decode (bs : list Z) : Z :=
  match bs with
  | [] => 0
  | b :: rest => b + 256 * le_decode rest
  end.

(** ** Storage cells

    A cell of an object with automatic storage is indeterminate until the
    program writes it. *)
Inductive cell : Type :=
| Indet : cell
| Octet : Z -> cell.

Definition is_written (c : cell) : bool :=
  match c with Indet => false | Octet _ => true end.

Definition fresh_object (size : Z) : list cell := repeat Indet (Z.to_nat size).

(** [store mem off bs]: overwrite [length bs] cells of [mem] from offset
    [off] on.  Out of the object's bounds the program has no defined
    behaviour: the model has no result there. *)
Definition store (mem : list cell) (off : Z) (bs : list Z) : option (list cell) :=
  if (0 <=? off) && (off + Z.of_nat (length bs) <=? Z.of_nat (length mem)) then
    Some (firstn (Z.to_nat off) mem
          ++ map Octet bs
          ++ skipn (Z.to_nat off + length bs) mem)
  else None.

(** [view mem off len]: the [len] cells from offset [off] on, as
    [sendto] reads them from the pointer it is given. *)
Definition view (mem : list cell) (off len : Z) : option (list cell) :=
  if (0 <=? off) && (0 <=? len) && (off + len <=? Z.of_nat (length mem)) then
    Some (firstn (Z.to_nat len) (skipn (Z.to_nat off) mem))
  else None.

(** [memcpy] between two ranges of one object
    ([std::memcpy(dst, src, n)] with both pointers into [mem]). *)
Definition memcpy_within (mem : list cell) (dst src n : Z) : option (list cell) :=
  match view mem src n with
  | Some cs =>
      if (0 <=? dst) && (dst + n <=? Z.of_nat (length mem)) then
        Some (firstn (Z.to_nat dst) mem ++ cs ++ skipn (Z.to_nat (dst + n)) mem)
      else None
  | None => None
  end.

(** The bytes of a range of cells, when all of them were written. *)
Fixpoint octets (cs : list cell) : option (list Z) :=
  match cs with
  | [] => Some []
  | Indet :: _ => None
  | Octet b :: rest =>
      match octets rest with
      | Some bs => Some (b :: bs)
      | None => None
      end
  end.

(** ** Outcomes of a bounded run

    A loop without a static bound runs on fuel; a step outside the
    language's defined behaviour has no result. *)
Inductive run (A : Type) : Type :=
| Ret : A -> run A
| OutOfFuel : run A
| Undefined : run A.

Arguments Ret {A} _.
Arguments OutOfFuel {A}.
Arguments Undefined {A}.

Definition bind {A B : Type} (r : run A) (k : A -> run B) : run B :=
  match r with
  | Ret a => k a
  | OutOfFuel => OutOfFuel
  | Undefined => Undefined
  end.

Definition defined {A : Type} (o : option A) : run A :=
  match o with
  | Some a => Ret a
  | None => Undefined
  end.

(** [load16 mem off]: the [uint16_t] stored at [off]; reading an
    indeterminate cell has no defined result. *)
Definition load16 (mem : list cell) (off : Z) : option Z :=
  match view mem off 2 with
  | Some cs =>
      match octets cs with
      | Some bs => Some (le_decode bs)
      | None => None
      end
  | None => None
  end.

(** Element update of a [std::vector] by index (within its bounds). *)
Fixpoint update_nth {A : Type} (n : nat) (f : A -> A) (l : list A) : list A :=
  match l, n with
  | [], _ => []
  | x :: rest, O => f x :: rest
  | x :: rest, S n' => x :: update_nth n' f rest
  end.

(** ** Struct layout

    Members are placed in declaration order, each at the next multiple of
    its alignment; the size is rounded up to the largest alignment. *)
Record member := { m_size : Z; m_align : Z }.

Definition align_up (off a : Z) : Z := ((off + a - 1) / a) * a.

Fixpoint place (off : Z) (ms : list member) : list Z * Z :=
  match ms with
  | [] => ([], off)
  | m :: rest =>
      let o := align_up off (m_align m) in
      let '(os, e) := place (o + m_size m) rest in
      (o :: os, e)
  end.

Definition struct_align (ms : list member) : Z :=
  fold_right (fun m a => Z.max (m_align m) a) 1 ms.

Definition offsets_of (ms : list member) : list Z := fst (place 0 ms).
Definition sizeof_struct (ms : list member) : Z :=
  align_up (snd (place 0 ms)) (struct_align ms).

Definition uint16_m : member := {| m_size := 2; m_align := 2 |}.
Definition float_m : member := {| m_size := 4; m_align := 4 |}.
Definition array_m (elt : list member) (n : Z) : member :=
  {| m_size := n * sizeof_struct elt; m_align := struct_align elt |}.

End Machine.

(* ================================================================= *)
(** * [float]: IEEE-754 binary32 *)

Module F32.

Definition prec : Z := 24.
Definition emax : Z := 128.

Definition float : Type := spec_float.

Definition add : float -> float -> float := SFadd prec emax.
Definition sub : float -> float -> float := SFsub prec emax.
Definition mul : float -> float -> float := SFmul prec emax.
Definition sqrtf : float -> float := SFsqrt prec emax.
Definition ltb : float -> float -> bool := SFltb.
Definition leb : float -> float -> bool := SFleb.

(** The value of an integer literal written as a [float] ([1000.0f]). *)
Definition of_Z (z : Z) : float := binary_normalize prec emax z 0 false.

(** [std::min(a, b)] is [(b < a) ? b : a] and [std::max(a, b)] is
    [(a < b) ? b : a]. *)
Definition min (a b : float) : float := if ltb b a then b else a.
Definition max (a b : float) : float := if ltb a b then b else a.

(** The object representation of a [float]: sign, 8 exponent bits biased
    by 127, 23 fraction bits.  A NaN carries no payload in [spec_float];
    it is written as the default quiet NaN. *)
Definition sign_bit (s : bool) : Z := if s then 2147483648 else 0.

Definition bits (f : float) : Z :=
  match f with
  | S754_zero s => sign_bit s
  | S754_infinity s => sign_bit s + 2139095040
  | S754_nan => 2143289344
  | S754_finite s m e =>
      if Z.pos m <? 8388608 then sign_bit s + Z.pos m
      else sign_bit s + (e + 150) * 8388608 + (Z.pos m - 8388608)
  end.

Definition bytes (f : float) : list Z := Machine.le32 (bits f).

(** Reading an object representation back. *)
Definition of_bits (w : Z) : float :=
  let s := 2147483648 <=? w in
  let ex := (w / 8388608) mod 256 in
  let fr := w mod 8388608 in
  if ex =? 255 then (if fr =? 0 then S754_infinity s else S754_nan)
  else if ex =? 0 then
    match fr with
    | Z.pos m => S754_finite s m (-149)
    | _ => S754_zero s
    end
  else
    match fr + 8388608 with
    | Z.pos m => S754_finite s m (ex - 150)
    | _ => S754_nan
    end.

(** A [float] in [[lo, hi]] (a NaN is in no interval). *)
Definition within (lo hi x : float) : Prop := leb lo x = true /\ leb x hi = true.

End F32.

(* ================================================================= *)
(** * [std::map<uint16_t, V>]: a key-ordered association list *)

Module OrdMap.

Section WithValue.
Context {V : Type}.

Definition t : Type := list (Z * V).

(** [find]: the ordered search stops at the first larger key. *)
Fixpoint find (k : Z) (m : t) : option V :=
  match m with
  | [] => None
  | (k', v) :: rest =>
      if k <? k' then None
      else if k =? k' then Some v
      else find k rest
  end.

(** [operator[]]: the mapped value, value-initialised and inserted at its
    ordered place when the key is absent. *)
Fixpoint subscript (dflt : V) (k : Z) (m : t) : V * t :=
  match m with
  | [] => (dflt, [(k, dflt)])
  | (k', v) :: rest =>
      if k <? k' then (dflt, (k, dflt) :: m)
      else if k =? k' then (v, m)
      else let '(r, rest') := subscript dflt k rest in (r, (k', v) :: rest')
  end.

(** [m[k] = v]. *)
Fixpoint assign (k : Z) (v : V) (m : t) : t :=
  match m with
  | [] => [(k, v)]
  | (k', v') :: rest =>
      if k <? k' then (k, v) :: m
      else if k =? k' then (k, v) :: rest
      else (k', v') :: assign k v rest
  end.

(** The invariant of the container: keys strictly increasing. *)
Fixpoint ordered (m : t) : Prop :=
  match m with
  | [] => True
  | (k, _) :: rest =>
      match rest with
      | [] => True
      | (k', _) :: _ => k < k' /\ ordered rest
      end
  end.
End WithValue.

Arguments t : clear implicits.

End OrdMap.

(* ================================================================= *)
(** * The random engine and its distributions

    [std::mt19937] seeded from [std::random_device] is an opaque state;
    a distribution applied to it yields a value and the advanced state.
    Of [std::uniform_int_distribution<T>(a, b)] and
    [std::uniform_real_distribution<float>(a, b)] the program relies on the
    range of the result only. *)

Class UniformRandom (G : Type) : Type := {
  uniform_int : Z -> Z -> G -> Z * G;
  uniform_real : F32.float -> F32.float -> G -> F32.float * G;
  uniform_int_range : forall a b g,
      a <= b -> a <= fst (uniform_int a b g) <= b;
  uniform_real_range : forall a b g,
      F32.leb a b = true -> F32.within a b (fst (uniform_real a b g))
}.

Definition NUM_NODES : Z := 20.
Definition MIN_EDGES : Z := 6.
Definition MAX_EDGES : Z := 35.

(* ================================================================= *)
(** * [class NodeManager] *)

Module NodeManager.

Import F32.

Definition position : Type := (float * float)%type.

(** A value-initialised [std::pair<float, float>]. *)
Definition origin : position := (of_Z 0, of_Z 0).

(** [std::max(0.0f, std::min(1000.0f, v))]. *)
Definition clamp (v : float) : float := max (of_Z 0) (min (of_Z 1000) v).

Section WithEngine.
Context {G : Type} {R : UniformRandom G}.

Record t : Type := {
  node_ids : list Z;
  positions : OrdMap.t position;
  distances : list (list float);
  gen : G
}.

Definition pos_dist : G -> float * G := uniform_real (of_Z 0) (of_Z 1000).
Definition move_dist : G -> float * G := uniform_real (of_Z (-5)) (of_Z 5).
Definition coin_toss : G -> Z * G := uniform_int 0 9.

Definition with_positions (nm : t) (ps : OrdMap.t position) : t :=
  {| node_ids := node_ids nm; positions := ps;
     distances := distances nm; gen := gen nm |}.

(** [getDistance]: four uses of [positions[...]], each inserting the
    key when it is absent.  The parameters are [uint16_t]: an argument
    is converted on entry, so the key looked up is [u16] of it. *)
Definition getDistance (source_id target_id : Z) (nm : t) : float * t :=
  let '(s1, m1) :=
    OrdMap.subscript origin (Machine.u16 source_id) (positions nm) in
  let '(t1, m2) := OrdMap.subscript origin (Machine.u16 target_id) m1 in
  let dx := sub (fst s1) (fst t1) in
  let '(s2, m3) := OrdMap.subscript origin (Machine.u16 source_id) m2 in
  let '(t2, m4) := OrdMap.subscript origin (Machine.u16 target_id) m3 in
  let dy := sub (snd s2) (snd t2) in
  (sqrtf (add (mul dx dx) (mul dy dy)), with_positions nm m4).

Definition getNodeIds (nm : t) : list Z := node_ids nm.

(** [getPosition(uint16_t id) const]: [find] on the converted
    argument. *)
Definition getPosition (nm : t) (id : Z) : position :=
  match OrdMap.find (Machine.u16 id) (positions nm) with
  | Some p => p
  | None => origin
  end.

(** The body of the loop of [updatePositions] for one map entry. *)
Definition update_entry (e : Z * position) (g : G) : (Z * position) * G :=
  let '(id, (x, y)) := e in
  let '(c, g1) := coin_toss g in
  if negb (Z.rem c 2 =? 0) then
    let '(dx, g2) := move_dist g1 in
    let x1 := add x dx in
    let '(dy, g3) := move_dist g2 in
    let y1 := add y dy in
    ((id, (clamp x1, clamp y1)), g3)
  else (e, g1).

Fixpoint update_entries (m : OrdMap.t position) (g : G)
  : OrdMap.t position * G :=
  match m with
  | [] => ([], g)
  | e :: rest =>
      let '(e', g1) := update_entry e g in
      let '(rest', g2) := update_entries rest g1 in
      (e' :: rest', g2)
  end.

Definition updatePositions (nm : t) : t :=
  let '(ps, g) := update_entries (positions nm) (gen nm) in
  {| node_ids := node_ids nm; positions := ps;
     distances := distances nm; gen := g |}.

(** ** The constructor *)

(** First loop, [n] iterations left, at index [i].  (The read of
    [positions[i].first] into the union finds the key just assigned and
    changes nothing.) *)
Fixpoint init_nodes (n : nat) (i : Z) (nm : t) : t :=
  match n with
  | O => nm
  | S n' =>
      let '(x, g1) := pos_dist (gen nm) in
      let '(y, g2) := pos_dist g1 in
      init_nodes n' (i + 1)
        {| node_ids := node_ids nm ++ [Machine.u16 i];
           positions := OrdMap.assign (Machine.u16 i) (x, y) (positions nm);
           distances := distances nm
                        ++ [repeat (of_Z 0) (Z.to_nat NUM_NODES)];
           gen := g2 |}
  end.

Definition set_distance (i j : Z) (d : float) (nm : t) : t :=
  {| node_ids := node_ids nm; positions := positions nm;
     distances :=
       Machine.update_nth (Z.to_nat i)
         (Machine.update_nth (Z.to_nat j) (fun _ => d)) (distances nm);
     gen := gen nm |}.

(** Inner loop of the second pass, [n] iterations left, at column [j]. *)
Fixpoint fill_row (n : nat) (i j : Z) (source_node : Z) (nm : t) : t :=
  match n with
  | O => nm
  | S n' =>
      let target_node := nth (Z.to_nat j) (node_ids nm) 0 in
      let '(dist, nm1) := getDistance source_node target_node nm in
      fill_row n' i (j + 1) source_node
        (set_distance j i dist (set_distance i j dist nm1))
  end.

Fixpoint fill_rows (n : nat) (i : Z) (nm : t) : t :=
  match n with
  | O => nm
  | S n' =>
      let source_node := nth (Z.to_nat i) (node_ids nm) 0 in
      fill_rows n' (i + 1)
        (fill_row (Z.to_nat (NUM_NODES - (i + 1))) i (i + 1) source_node nm)
  end.

Definition construct (g : G) : t :=
  let nm0 := {| node_ids := []; positions := []; distances := []; gen := g |} in
  fill_rows (Z.to_nat NUM_NODES) 0 (init_nodes (Z.to_nat NUM_NODES) 1 nm0).

End WithEngine.

Arguments t G : clear implicits.

End NodeManager.

(* ================================================================= *)
(** * The packet structs *)

Module Packet.

Import Machine.

(** [struct PositionPacket { uint16_t node_id; float x; float y; }] *)
Definition PositionPacket : list member := [uint16_m; float_m; float_m].

(** [struct GraphEdge { uint16_t source_id, target_id, strength; }] *)
Definition GraphEdge : list member := [uint16_m; uint16_m; uint16_m].

(** [struct GraphPacket { uint16_t sender_id, edge_count; GraphEdge edges[50]; }] *)
Definition GraphPacket : list member := [uint16_m; uint16_m; array_m GraphEdge 50].

Definition offsetof (ms : list member) (k : nat) : Z := nth k (offsets_of ms) 0.

Definition off_node_id : Z := offsetof PositionPacket 0.
Definition off_x : Z := offsetof PositionPacket 1.
Definition off_y : Z := offsetof PositionPacket 2.

Definition off_sender_id : Z := offsetof GraphPacket 0.
Definition off_edge_count : Z := offsetof GraphPacket 1.
Definition off_edges : Z := offsetof GraphPacket 2.

(** The members of [edges[i]]. *)
Definition off_edge (i : Z) (k : nat) : Z :=
  off_edges + i * sizeof_struct GraphEdge + offsetof GraphEdge k.
Definition off_source_id (i : Z) : Z := off_edge i 0.
Definition off_target_id (i : Z) : Z := off_edge i 1.
Definition off_strength (i : Z) : Z := off_edge i 2.

End Packet.

(* ================================================================= *)
(** * [class GraphGenerator] *)

Module GraphGenerator.

Import Machine Packet.

Section WithEngine.
Context {G : Type} {R : UniformRandom G}.

Definition node_dist : G -> Z * G := uniform_int 1 NUM_NODES.
Definition strength_dist (g : G) : Z * G :=
  let '(v, g') := uniform_int 1 1000 g in (u16 v, g').
Definition edge_count_dist : G -> Z * G := uniform_int MIN_EDGES MAX_EDGES.

(** The [do ... while] of [generateGraph]: draw [edges[i].target_id]
    until it differs from [edges[i].source_id]. *)
Fixpoint draw_target (fuel : nat) (i : Z) (packet : list cell) (g : G)
  : run (list cell * G) :=
  match fuel with
  | O => OutOfFuel
  | S fuel' =>
      let '(v, g1) := node_dist g in
      bind (defined (store packet (off_target_id i) (le16 (u16 v)))) (fun p1 =>
      bind (defined (load16 p1 (off_target_id i))) (fun target =>
      bind (defined (load16 p1 (off_source_id i))) (fun source =>
      if target =? source then draw_target fuel' i p1 g1
      else Ret (p1, g1))))
  end.

(** The [for] loop, [n] iterations left, at index [i]. *)
Fixpoint fill_edges (fuel : nat) (n : nat) (i : Z) (packet : list cell) (g : G)
  : run (list cell * G) :=
  match n with
  | O => Ret (packet, g)
  | S n' =>
      let '(s, g1) := node_dist g in
      bind (defined (store packet (off_source_id i) (le16 (u16 s)))) (fun p1 =>
      bind (draw_target fuel i p1 g1) (fun '(p2, g2) =>
      let '(w, g3) := strength_dist g2 in
      bind (defined (store p2 (off_strength i) (le16 w))) (fun p3 =>
      fill_edges fuel n' (i + 1) p3 g3)))
  end.

Definition generateGraph (fuel : nat) (sender_id : Z) (g : G)
  : run (list cell * G) :=
  let packet := fresh_object (sizeof_struct GraphPacket) in
  bind (defined (store packet off_sender_id (le16 (u16 sender_id)))) (fun p1 =>
  let '(num_edges, g1) := edge_count_dist g in
  bind (defined (store p1 off_edge_count (le16 (u16 num_edges)))) (fun p2 =>
  fill_edges fuel (Z.to_nat num_edges) 0 p2 g1)).

End WithEngine.

End GraphGenerator.

(* ================================================================= *)
(** * [class UDPServer] and the datagram socket *)

Module UDP.

Import Machine.

Record datagram : Type := { dst_port : Z; payload : list cell }.

(** The operating system as the program sees it: what it will answer to
    the coming [sendto] calls ([true]: the datagram is taken; an exhausted
    list takes everything), and every call made so far with its answer. *)
Record Net : Type := {
  verdicts : list bool;
  calls : list (datagram * bool)
}.

Definition quiet (vs : list bool) : Net := {| verdicts := vs; calls := [] |}.

(** [sendto]: the number of bytes sent, or [SOCKET_ERROR]. *)
Definition sendto (net : Net) (port : Z) (data : list cell) : Z * Net :=
  let d := {| dst_port := port; payload := data |} in
  match verdicts net with
  | false :: rest => (-1, {| verdicts := rest; calls := calls net ++ [(d, false)] |})
  | true :: rest =>
      (Z.of_nat (length data), {| verdicts := rest; calls := calls net ++ [(d, true)] |})
  | [] =>
      (Z.of_nat (length data), {| verdicts := []; calls := calls net ++ [(d, true)] |})
  end.

Record UDPServer : Type := { sock : Z; port : Z }.

(** The constructor: [socket] then [setsockopt(SO_BROADCAST)]; either
    failing throws [std::runtime_error]. *)
Definition INVALID_SOCKET : Z := -1.

Inductive runtime_error : Type :=
| Failed_to_create_socket
| Failed_to_set_broadcast_option.

Definition construct (socket_result setsockopt_result : Z) (p : Z)
  : UDPServer + runtime_error :=
  if socket_result =? INVALID_SOCKET then inr Failed_to_create_socket
  else if setsockopt_result <? 0 then inr Failed_to_set_broadcast_option
  else inl {| sock := socket_result; port := p |}.

(** [void sendPacket(const void* data, size_t size)]: the result of
    [sendto] is dropped.  [data] is the object [mem] at offset [off]. *)
Definition sendPacket (srv : UDPServer) (mem : list cell) (off size : Z) (net : Net)
  : run (unit * Net) :=
  bind (defined (view mem off size)) (fun cs =>
  let '(_, net') := sendto net (port srv) cs in
  Ret (tt, net')).

Definition attempted (net : Net) : list datagram := map fst (calls net).
Definition delivered (net : Net) : list datagram :=
  map fst (filter snd (calls net)).

End UDP.

(* ================================================================= *)
(** * The two server threads *)

Module Server.

Import Machine Packet UDP.

(** ** The common loop

    Both [positionServer] and [graphServer] are
    [while (running) { head; for (id : ids) { build; sendPacket; sleep(inner); } sleep(outer); }].
    A thread is a step machine; each step is given the value the shared
    flag [running] has when the step is taken, and reads it only where the
    source does: in the condition of the [while]. *)
Section Loop.
Context {W : Type}.

(** What the thread owns ([NodeManager] or [GraphGenerator]), the work at
    the head of a [while] iteration with the ids the [for] runs over, and
    the construction of the buffer handed to [sendPacket]: the object, the
    offset of the pointer in it, and the size. *)
Variable head : W -> W * list Z.
Variable build : nat -> Z -> W -> run (W * (list cell * Z * Z)).
Variable inner_ms outer_ms : Z.

Inductive pc : Type :=
| AtWhile : pc
| InFor : list Z -> pc
| Returned : pc.

Record state : Type := {
  at_pc : pc;
  owned : W;
  net : Net;
  slept : Z
}.

Definition step (fuel : nat) (srv : UDPServer) (running : bool) (s : state)
  : run state :=
  match at_pc s with
  | AtWhile =>
      if running then
        let '(w, ids) := head (owned s) in
        Ret {| at_pc := InFor ids; owned := w; net := net s; slept := slept s |}
      else
        Ret {| at_pc := Returned; owned := owned s; net := net s; slept := slept s |}
  | InFor [] =>
      Ret {| at_pc := AtWhile; owned := owned s; net := net s;
             slept := slept s + outer_ms |}
  | InFor (id :: rest) =>
      bind (build fuel id (owned s)) (fun '(w, (mem, off, size)) =>
      bind (sendPacket srv mem off size (net s)) (fun '(_, net') =>
      Ret {| at_pc := InFor rest; owned := w; net := net';
             slept := slept s + inner_ms |}))
  | Returned => Ret s
  end.

(** A run: one step per value of the flag. *)
Fixpoint steps (fuel : nat) (srv : UDPServer) (flags : list bool) (s : state)
  : run state :=
  match flags with
  | [] => Ret s
  | f :: rest => bind (step fuel srv f s) (steps fuel srv rest)
  end.

Definition entry (w : W) (n : Net) : state :=
  {| at_pc := AtWhile; owned := w; net := n; slept := 0 |}.

(** The number of [sendPacket] calls of a state. *)
Definition sends (s : state) : nat := length (calls (net s)).

End Loop.

Arguments pc : clear implicits.
Arguments state W : clear implicits.

Section WithEngine.
Context {G : Type} {R : UniformRandom G}.

(** ** [positionServer] *)

(** The body of the [for] up to the arguments of [sendPacket]. *)
Definition position_packet (node_id : Z) (nm : NodeManager.t G)
  : run (list cell * Z * Z) :=
  let packet := fresh_object (sizeof_struct PositionPacket) in
  bind (defined (store packet off_node_id (le16 (u16 node_id)))) (fun p1 =>
  let pos := NodeManager.getPosition nm node_id in
  bind (defined (store p1 off_x (F32.bytes (fst pos)))) (fun p2 =>
  bind (defined (store p2 off_y (F32.bytes (snd pos)))) (fun p3 =>
  bind (defined (view p3 0 2)) (fun temp =>
  bind (defined (view p3 4 4)) (fun tx =>
  bind (defined (view p3 8 4)) (fun ty =>
  bind (defined (memcpy_within p3 2 0 2)) (fun p4 =>
  Ret (p4, 2, size_t (sizeof_struct PositionPacket - 2))))))))).

Definition position_head (nm : NodeManager.t G) : NodeManager.t G * list Z :=
  let nm' := NodeManager.updatePositions nm in
  (nm', NodeManager.getNodeIds nm').

Definition position_build (fuel : nat) (node_id : Z) (nm : NodeManager.t G)
  : run (NodeManager.t G * (list cell * Z * Z)) :=
  bind (position_packet node_id nm) (fun buf => Ret (nm, buf)).

Definition positionServer_step :=
  step position_head position_build 10 100.
Definition positionServer_steps :=
  steps position_head position_build 10 100.

(** ** [graphServer] *)

Definition graph_packet (fuel : nat) (node_id : Z) (g : G)
  : run (G * (list cell * Z * Z)) :=
  bind (GraphGenerator.generateGraph fuel node_id g) (fun '(packet, g') =>
  bind (defined (load16 packet off_edge_count)) (fun edge_count =>
  Ret (g', (packet, 0,
            size_t (sizeof_struct GraphPacket
                    - size_t (sizeof_struct GraphEdge * size_t (50 - edge_count))))))).

(** [for (uint16_t node_id = 1; node_id <= NUM_NODES; ++node_id)]. *)
Definition graph_ids : list Z :=
  map Z.of_nat (seq 1 (Z.to_nat NUM_NODES)).

Definition graph_head (g : G) : G * list Z := (g, graph_ids).

Definition graphServer_step :=
  step graph_head graph_packet 200 2000.
Definition graphServer_steps :=
  steps graph_head graph_packet 200 2000.

(** Both threads construct their socket first and return at once when
    the constructor throws. *)
Definition launch {W : Type} (socket_result setsockopt_result p : Z)
    (w : W) (n : Net) : (UDPServer * state W) + runtime_error :=
  match construct socket_result setsockopt_result p with
  | inl srv => inl (srv, entry w n)
  | inr e => inr e
  end.

End WithEngine.

End Server.

(* ================================================================= *)
(** * A concrete engine

    A counter: the [n]-th draw of an integer distribution is
    [a + n mod (b - a + 1)], the [n]-th draw of a real distribution is one
    of the two bounds, changing every second draw.  It is used to run the
    model on concrete inputs. *)

Module Counter.

Definition int_draw (a b : Z) (n : Z) : Z * Z := (a + n mod (b - a + 1), n + 1).
Definition real_draw (a b : F32.float) (n : Z) : F32.float * Z :=
  (if Z.even (n / 2) then a else b, n + 1).

End Counter.

(* ================================================================= *)
(** * Properties *)

(** ** Comparisons of [float] *)

Module F32Facts.

Import F32.

Lemma ltb_leb (a b : float) : ltb a b = true -> leb a b = true.
Proof.
  unfold ltb, leb, SFltb, SFleb.
  destruct (SFcompare a b) as [[ | | ] | ]; congruence.
Qed.

Lemma compare_refl (a : float) : a <> S754_nan -> SFcompare a a = Some Eq.
Proof.
  destruct a as [s | s | | s m e]; intros Hnan; try congruence.
  - reflexivity.
  - destruct s; reflexivity.
  - simpl. rewrite Z.compare_refl, Pos.compare_cont_refl.
    destruct s; reflexivity.
Qed.

Lemma leb_refl (a : float) : a <> S754_nan -> leb a a = true.
Proof. intros H. unfold leb, SFleb. now rewrite compare_refl. Qed.

Lemma leb_not_nan (a b : float) :
  leb a b = true -> a <> S754_nan /\ b <> S754_nan.
Proof.
  unfold leb, SFleb. intros H; split; intros ->.
  - discriminate.
  - destruct a; discriminate.
Qed.

(** Whatever its argument (a NaN included), the result of
    [max lo (min hi v)] lies between the bounds. *)
Lemma max_min_within (lo hi v : float) :
  ltb lo hi = true -> within lo hi (max lo (min hi v)).
Proof.
  intros Hlh. pose proof (ltb_leb _ _ Hlh) as Hle.
  destruct (leb_not_nan _ _ Hle) as [Hlo Hhi].
  unfold within, max, min.
  destruct (ltb v hi) eqn:Hv.
  - destruct (ltb lo v) eqn:Hl.
    + split; now apply ltb_leb.
    + split; [now apply leb_refl | exact Hle].
  - rewrite Hlh. split; [exact Hle | now apply leb_refl].
Qed.

End F32Facts.

(** ** The counter engine is an engine *)

Module CounterFacts.

Import F32 F32Facts Counter.

Lemma int_draw_range a b n : a <= b -> a <= fst (int_draw a b n) <= b.
Proof.
  intros Hab. unfold int_draw; simpl.
  pose proof (Z.mod_pos_bound n (b - a + 1) ltac:(lia)). lia.
Qed.

Lemma real_draw_range a b n :
  leb a b = true -> within a b (fst (real_draw a b n)).
Proof.
  intros Hab. destruct (leb_not_nan _ _ Hab) as [Ha Hb].
  unfold real_draw, within; simpl.
  destruct (Z.even (n / 2)); split; auto using leb_refl.
Qed.

End CounterFacts.

#[export] Instance counter_engine : UniformRandom Z := {|
  uniform_int := Counter.int_draw;
  uniform_real := Counter.real_draw;
  uniform_int_range := CounterFacts.int_draw_range;
  uniform_real_range := CounterFacts.real_draw_range
|}.

(** ** The world stays in the square *)

Module NodeManagerFacts.

Import F32 F32Facts NodeManager.

Definition in_square (p : position) : Prop :=
  within (of_Z 0) (of_Z 1000) (fst p) /\ within (of_Z 0) (of_Z 1000) (snd p).

Definition all_in_square (m : OrdMap.t position) : Prop :=
  Forall (fun e => in_square (snd e)) m.

Lemma clamp_within (v : float) : within (of_Z 0) (of_Z 1000) (clamp v).
Proof. apply max_min_within. reflexivity. Qed.

Lemma origin_in_square : in_square origin.
Proof. split; split; reflexivity. Qed.

Lemma assign_all (P : Z * position -> Prop) k v m :
  P (k, v) -> Forall P m -> Forall P (OrdMap.assign k v m).
Proof.
  intros Hv. induction 1 as [ | [k' v'] rest Hh Ht IH]; simpl.
  - auto.
  - destruct (k <? k'); [auto | ].
    destruct (k =? k'); auto.
Qed.

Lemma subscript_all (P : Z * position -> Prop) d k m r m' :
  P (k, d) -> OrdMap.subscript d k m = (r, m') -> Forall P m -> Forall P m'.
Proof.
  intros Hd E Hm. revert r m' E.
  induction Hm as [ | [k' v'] rest Hh Ht IH]; simpl; intros r m' E.
  - injection E as <- <-. auto.
  - destruct (k <? k'); [injection E as <- <-; auto | ].
    destruct (k =? k'); [injection E as <- <-; auto | ].
    destruct (OrdMap.subscript d k rest) as [r0 rest'].
    injection E as <- <-. constructor; [exact Hh | ].
    now apply (IH r0).
Qed.

Section WithEngine.
Context {G : Type} {R : UniformRandom G}.

Lemma pos_dist_within (g : G) :
  within (of_Z 0) (of_Z 1000) (fst (pos_dist g)).
Proof. apply uniform_real_range. reflexivity. Qed.



Lemma update_entry_in_square e (g : G) :
  in_square (snd e) -> in_square (snd (fst (update_entry e g))).
Proof.
  destruct e as [id [x y]]. intros He. unfold update_entry.
  destruct (coin_toss g) as [c g1].
  destruct (negb (Z.rem c 2 =? 0)); [ | exact He].
  destruct (move_dist g1) as [dx g2], (move_dist g2) as [dy g3]; simpl.
  split; apply clamp_within.
Qed.

Lemma update_entries_in_square m (g : G) :
  all_in_square m -> all_in_square (fst (update_entries m g)).
Proof.
  intros Hm. revert g.
  induction Hm as [ | e rest He Hrest IH]; intros g; simpl.
  - constructor.
  - pose proof (update_entry_in_square e g He) as H1.
    destruct (update_entry e g) as [e' g1].
    specialize (IH g1).
    destruct (update_entries rest g1) as [rest' g2]; simpl in *.
    constructor; assumption.
Qed.

Lemma updatePositions_in_square (nm : t G) :
  all_in_square (positions nm) -> all_in_square (positions (updatePositions nm)).
Proof.
  intros H. unfold updatePositions.
  pose proof (update_entries_in_square _ (gen nm) H) as H1.
  destruct (update_entries (positions nm) (gen nm)); exact H1.
Qed.

Lemma getDistance_in_square s d (nm : t G) :
  all_in_square (positions nm) ->
  all_in_square (positions (snd (getDistance s d nm))).
Proof.
  intros H. unfold getDistance.
  generalize (Machine.u16 s) (Machine.u16 d). clear s d. intros s d.
  destruct (OrdMap.subscript origin s (positions nm)) as [s1 m1] eqn:E1.
  destruct (OrdMap.subscript origin d m1) as [t1 m2] eqn:E2.
  destruct (OrdMap.subscript origin s m2) as [s2 m3] eqn:E3.
  destruct (OrdMap.subscript origin d m3) as [t2 m4] eqn:E4.
  simpl.
  pose proof origin_in_square as Ho.
  apply (subscript_all (fun e => in_square (snd e)) _ _ _ _ _ Ho E1) in H.
  apply (subscript_all (fun e => in_square (snd e)) _ _ _ _ _ Ho E2) in H.
  apply (subscript_all (fun e => in_square (snd e)) _ _ _ _ _ Ho E3) in H.
  apply (subscript_all (fun e => in_square (snd e)) _ _ _ _ _ Ho E4) in H.
  exact H.
Qed.

Lemma fill_row_in_square n i j src (nm : t G) :
  all_in_square (positions nm) ->
  all_in_square (positions (fill_row n i j src nm)).
Proof.
  revert j nm. induction n as [ | n IH]; intros j nm H; simpl; [exact H | ].
  pose proof (getDistance_in_square src (nth (Z.to_nat j) (node_ids nm) 0) nm H) as H1.
  destruct (getDistance src (nth (Z.to_nat j) (node_ids nm) 0) nm) as [dist nm1].
  apply IH. exact H1.
Qed.

Lemma fill_rows_in_square n i (nm : t G) :
  all_in_square (positions nm) ->
  all_in_square (positions (fill_rows n i nm)).
Proof.
  revert i nm. induction n as [ | n IH]; intros i nm H; simpl; [exact H | ].
  apply IH, fill_row_in_square, H.
Qed.

Lemma init_nodes_in_square n i (nm : t G) :
  all_in_square (positions nm) ->
  all_in_square (positions (init_nodes n i nm)).
Proof.
  revert i nm. induction n as [ | n IH]; intros i nm H; simpl; [exact H | ].
  pose proof (pos_dist_within (gen nm)) as Hx.
  destruct (pos_dist (gen nm)) as [x g1].
  pose proof (pos_dist_within g1) as Hy.
  destruct (pos_dist g1) as [y g2].
  apply IH; simpl. apply assign_all; [split; assumption | exact H].
Qed.

Lemma construct_in_square (g : G) : all_in_square (positions (construct g)).
Proof.
  unfold construct. apply fill_rows_in_square, init_nodes_in_square.
  constructor.
Qed.

(** The states of the world: as constructed, then after each
    [updatePositions]. *)
Inductive reachable : t G -> Prop :=
| reach_construct (g : G) : reachable (construct g)
| reach_tick (nm : t G) : reachable nm -> reachable (updatePositions nm).

(** The engine at [g] makes the next entry move, by [dx] and [dy]. *)
Definition tosses (g : G) (dx dy : float) : Prop :=
  Z.rem (fst (coin_toss g)) 2 <> 0
  /\ fst (move_dist (snd (coin_toss g))) = dx
  /\ fst (move_dist (snd (move_dist (snd (coin_toss g))))) = dy.

End WithEngine.

End NodeManagerFacts.

Import F32 NodeManager NodeManagerFacts.

(** C5.  In every state of the world reachable from its construction by
    ticks, both coordinates of every node lie in [[0.0, 1000.0]].  In
    particular a node at (0, 0) that receives the delta (-5, -5) stays at
    (0, 0), and a node at (1000, 1000) that receives (+5, +5) stays at
    (1000, 1000). *)
Theorem positions_stay_in_square {G : Type} {R : UniformRandom G} :
  (forall nm : NodeManager.t G, reachable nm -> all_in_square (positions nm))
  /\ (forall (id : Z) (g : G),
        tosses g (of_Z (-5)) (of_Z (-5)) ->
        fst (update_entry (id, (of_Z 0, of_Z 0)) g) = (id, (of_Z 0, of_Z 0)))
  /\ (forall (id : Z) (g : G),
        tosses g (of_Z 5) (of_Z 5) ->
        fst (update_entry (id, (of_Z 1000, of_Z 1000)) g)
        = (id, (of_Z 1000, of_Z 1000))).
Proof.
  split; [ | split].
  - induction 1 as [g | nm Hr IH].
    + apply construct_in_square.
    + apply updatePositions_in_square, IH.
  - intros id g (Hc & Hx & Hy). unfold update_entry.
    destruct (coin_toss g) as [c g1]; simpl in *.
    destruct (Z.eqb_spec (Z.rem c 2) 0) as [E | _]; [contradiction | ]; simpl.
    destruct (move_dist g1) as [dx g2]; simpl in *.
    destruct (move_dist g2) as [dy g3]; simpl in *.
    subst dx dy. reflexivity.
  - intros id g (Hc & Hx & Hy). unfold update_entry.
    destruct (coin_toss g) as [c g1]; simpl in *.
    destruct (Z.eqb_spec (Z.rem c 2) 0) as [E | _]; [contradiction | ]; simpl.
    destruct (move_dist g1) as [dx g2]; simpl in *.
    destruct (move_dist g2) as [dy g3]; simpl in *.
    subst dx dy. reflexivity.
Qed.

Lemma positions_stay_in_square_witness :
  all_in_square (positions (updatePositions (construct (0 : Z))))
  /\ fst (update_entry (7, (of_Z 0, of_Z 0)) (3 : Z)) = (7, (of_Z 0, of_Z 0))
  /\ fst (update_entry (7, (of_Z 1000, of_Z 1000)) (1 : Z))
     = (7, (of_Z 1000, of_Z 1000)).
Proof.
  split; [ | split].
  - apply (proj1 positions_stay_in_square).
    apply reach_tick, reach_construct.
  - apply (proj1 (proj2 positions_stay_in_square)).
    repeat split; vm_compute; congruence.
  - apply (proj2 (proj2 positions_stay_in_square)).
    repeat split; vm_compute; congruence.
Defined.

(** ** One coin per node *)












(** ** [operator[]] inserts *)

Module OrdMapFacts.

Import OrdMap.

Section WithValue.
Context {V : Type}.
Implicit Types (m : OrdMap.t V) (d v : V) (k s : Z).

Definition value_or d (o : option V) : V :=
  match o with Some v => v | None => d end.

Lemma subscript_fst d s m :
  fst (subscript d s m) = value_or d (find s m).
Proof.
  induction m as [ | [k' v'] rest IH]; simpl; [reflexivity | ].
  destruct (s <? k'); [reflexivity | ].
  destruct (s =? k'); [reflexivity | ].
  destruct (subscript d s rest) as [r rest']; exact IH.
Qed.

Lemma find_subscript d s m k :
  find k (snd (subscript d s m))
  = if k =? s then Some (value_or d (find s m)) else find k m.
Proof.
  induction m as [ | [k' v'] rest IH]; simpl.
  - destruct (Z.ltb_spec k s), (Z.eqb_spec k s); try reflexivity; lia.
  - destruct (Z.ltb_spec s k'); simpl.
    + destruct (Z.ltb_spec k s), (Z.eqb_spec k s); try reflexivity; try lia.
      destruct (Z.ltb_spec k k'); [reflexivity | lia].
    + destruct (Z.eqb_spec s k') as [-> | Hne]; simpl.
      * destruct (Z.eqb_spec k k') as [-> | Hk]; [ | reflexivity].
        rewrite Z.ltb_irrefl. reflexivity.
      * destruct (subscript d s rest) as [r rest']; simpl in *.
        rewrite IH.
        destruct (Z.ltb_spec k k'), (Z.eqb_spec k k'), (Z.eqb_spec k s);
          try reflexivity; lia.
Qed.

Lemma subscript_present d s m v :
  find s m = Some v -> subscript d s m = (v, m).
Proof.
  induction m as [ | [k' v'] rest IH]; simpl; [discriminate | ].
  destruct (s <? k'); [discriminate | ].
  destruct (s =? k'); [now intros [= ->] | ].
  intros H. now rewrite (IH H).
Qed.

End WithValue.

End OrdMapFacts.

(** ** The map stays ordered

    On an ordered list the search that stops at the first larger key finds
    what a search of the whole list finds, so [find] is the lookup of the
    container. *)

Module OrdMapOrder.

Import OrdMap.

Section WithValue.
Context {V : Type}.
Implicit Types (m : OrdMap.t V) (d v : V) (k : Z).

(** A search of the whole list. *)
Fixpoint lookup k m : option V :=
  match m with
  | [] => None
  | (k', v) :: rest => if k =? k' then Some v else lookup k rest
  end.

Definition above k m : Prop :=
  match m with
  | [] => True
  | (k', _) :: _ => k < k'
  end.

Lemma ordered_cons k v m : ordered ((k, v) :: m) <-> above k m /\ ordered m.
Proof.
  destruct m as [ | [k' v'] rest]; cbn [ordered above]; tauto.
Qed.

Lemma lookup_above k k0 m :
  k <= k0 -> above k0 m -> ordered m -> lookup k m = None.
Proof.
  revert k0. induction m as [ | [k' v'] rest IH]; intros k0 Hk Ha Ho;
    [reflexivity | ].
  cbn [above] in Ha. apply ordered_cons in Ho as [Ha' Ho].
  cbn [lookup]. destruct (Z.eqb_spec k k'); [lia | ].
  apply (IH k'); [lia | assumption | assumption].
Qed.

Lemma find_lookup k m : ordered m -> find k m = lookup k m.
Proof.
  induction m as [ | [k' v'] rest IH]; intros Ho; [reflexivity | ].
  apply ordered_cons in Ho as [Ha Ho]. cbn [find lookup].
  destruct (Z.ltb_spec k k') as [Hlt | Hge].
  - destruct (Z.eqb_spec k k'); [lia | ].
    symmetry. apply (lookup_above k k'); [lia | assumption | assumption].
  - destruct (Z.eqb_spec k k'); [reflexivity | now apply IH].
Qed.

Lemma assign_above k0 k v m : k0 < k -> above k0 m -> above k0 (assign k v m).
Proof.
  destruct m as [ | [k' v'] rest]; cbn [assign above]; [auto | ].
  intros Hk Ha. destruct (k <? k'); [exact Hk | ].
  destruct (k =? k'); [exact Hk | exact Ha].
Qed.

Lemma assign_ordered k v m : ordered m -> ordered (assign k v m).
Proof.
  induction m as [ | [k' v'] rest IH]; intros Ho; [exact I | ].
  apply ordered_cons in Ho as [Ha Ho]. cbn [assign].
  destruct (Z.ltb_spec k k') as [Hlt | Hge].
  - apply ordered_cons. split; [exact Hlt | ]. apply ordered_cons. auto.
  - destruct (Z.eqb_spec k k') as [-> | Hne].
    + apply ordered_cons. auto.
    + apply ordered_cons. split; [ | now apply IH].
      apply assign_above; [lia | exact Ha].
Qed.

Lemma subscript_ordered d k m : ordered m -> ordered (snd (subscript d k m)).
Proof.
  induction m as [ | [k' v'] rest IH]; intros Ho; [exact I | ].
  pose proof Ho as Ho'. apply ordered_cons in Ho as [Ha Ho]. cbn [subscript].
  destruct (Z.ltb_spec k k') as [Hlt | Hge]; cbn [snd].
  - apply ordered_cons. split; [exact Hlt | exact Ho'].
  - destruct (Z.eqb_spec k k') as [-> | Hne]; [exact Ho' | ].
    specialize (IH Ho).
    destruct (subscript d k rest) as [r rest'] eqn:E; cbn [snd] in *.
    apply ordered_cons. split; [ | exact IH].
    destruct rest as [ | [k2 v2] rest2]; cbn [subscript] in E.
    + injection E as <- <-. cbn [above]. lia.
    + cbn [above] in Ha.
      destruct (k <? k2); [injection E as <- <-; cbn [above]; lia | ].
      destruct (k =? k2); [injection E as <- <-; exact Ha | ].
      destruct (subscript d k rest2); injection E as <- <-. exact Ha.
Qed.

(** Ordering is a matter of keys. *)
Lemma ordered_same_keys m m' :
  map fst m = map fst m' -> ordered m -> ordered m'.
Proof.
  revert m'. induction m as [ | [k v] rest IH]; intros [ | [k' v'] rest'] Hk;
    try discriminate; [auto | ].
  cbn [map fst] in Hk. injection Hk as <- Hrest.
  intros Ho. apply ordered_cons in Ho as [Ha Ho].
  apply ordered_cons. split; [ | now apply IH].
  destruct rest as [ | [k1 v1] r1], rest' as [ | [k1' v1'] r1'];
    try discriminate; [exact I | ].
  cbn [map fst] in Hrest. injection Hrest as <- _. exact Ha.
Qed.

End WithValue.

Section WithEngine.
Context {G : Type} {R : UniformRandom G}.

Lemma update_entry_key (e : Z * position) (g : G) :
  fst (fst (update_entry e g)) = fst e.
Proof.
  destruct e as [id [x y]]. unfold update_entry.
  destruct (coin_toss g) as [c g1].
  destruct (negb (Z.rem c 2 =? 0)); [ | reflexivity].
  destruct (move_dist g1) as [dx g2], (move_dist g2) as [dy g3]. reflexivity.
Qed.

Lemma update_entries_keys (m : OrdMap.t position) (g : G) :
  map fst (fst (update_entries m g)) = map fst m.
Proof.
  revert g. induction m as [ | e rest IH]; intros g; [reflexivity | ].
  cbn [update_entries].
  pose proof (update_entry_key e g) as Hid.
  destruct (update_entry e g) as [e' g1]. cbn [fst] in Hid.
  specialize (IH g1).
  destruct (update_entries rest g1) as [rest' g2]. cbn [fst] in IH.
  cbn [fst map]. now rewrite Hid, IH.
Qed.

Lemma getDistance_ordered s t (nm : NodeManager.t G) :
  ordered (positions nm) -> ordered (positions (snd (getDistance s t nm))).
Proof.
  intros H. unfold getDistance.
  generalize (Machine.u16 s) (Machine.u16 t). clear s t. intros s t.
  pose proof (subscript_ordered origin s _ H) as H1.
  destruct (subscript origin s (positions nm)) as [s1 m1]; cbn [snd] in H1.
  pose proof (subscript_ordered origin t _ H1) as H2.
  destruct (subscript origin t m1) as [t1 m2]; cbn [snd] in H2.
  pose proof (subscript_ordered origin s _ H2) as H3.
  destruct (subscript origin s m2) as [s2 m3]; cbn [snd] in H3.
  pose proof (subscript_ordered origin t _ H3) as H4.
  destruct (subscript origin t m3) as [t2 m4]; cbn [snd] in H4.
  exact H4.
Qed.

Lemma fill_row_ordered n i j src (nm : NodeManager.t G) :
  ordered (positions nm) -> ordered (positions (fill_row n i j src nm)).
Proof.
  revert j nm. induction n as [ | n IH]; intros j nm H; cbn [fill_row];
    [exact H | ].
  pose proof (getDistance_ordered src (nth (Z.to_nat j) (node_ids nm) 0) nm H) as H1.
  destruct (getDistance src (nth (Z.to_nat j) (node_ids nm) 0) nm) as [d nm1].
  apply IH. exact H1.
Qed.

Lemma fill_rows_ordered n i (nm : NodeManager.t G) :
  ordered (positions nm) -> ordered (positions (fill_rows n i nm)).
Proof.
  revert i nm. induction n as [ | n IH]; intros i nm H; cbn [fill_rows];
    [exact H | ].
  apply IH, fill_row_ordered, H.
Qed.

Lemma init_nodes_ordered n i (nm : NodeManager.t G) :
  ordered (positions nm) -> ordered (positions (init_nodes n i nm)).
Proof.
  revert i nm. induction n as [ | n IH]; intros i nm H; cbn [init_nodes];
    [exact H | ].
  destruct (pos_dist (gen nm)) as [x g1], (pos_dist g1) as [y g2].
  apply IH. cbn [positions]. now apply assign_ordered.
Qed.

(** In every state of the world the map is ordered, so its [find] is the
    lookup of the container. *)
Lemma reachable_ordered (nm : NodeManager.t G) :
  reachable nm -> ordered (positions nm).
Proof.
  induction 1 as [g | nm Hr IH].
  - unfold NodeManager.construct.
    apply fill_rows_ordered, init_nodes_ordered. exact I.
  - unfold updatePositions.
    pose proof (update_entries_keys (positions nm) (gen nm)) as Hk.
    destruct (update_entries (positions nm) (gen nm)) as [ps g]; cbn [fst] in Hk.
    cbn [positions]. eapply ordered_same_keys; [symmetry; exact Hk | exact IH].
Qed.

Lemma reachable_find_lookup (nm : NodeManager.t G) (k : Z) :
  reachable nm -> find k (positions nm) = lookup k (positions nm).
Proof. intros H. apply find_lookup, reachable_ordered, H. Qed.

End WithEngine.

End OrdMapOrder.

(** C10.  [getDistance(s, t)] leaves the node id sequence alone and
    returns the Euclidean distance of the two positions, an id that is not
    in the map counting as (0.0, 0.0); afterwards the map holds both ids:
    an id that was unknown has been inserted with the position (0.0, 0.0),
    every other entry is as before.  So the call changes the position
    state whenever one of its two ids is unknown.  The ids are [uint16_t]:
    the keys are the arguments as converted on entry, [u16 s] and
    [u16 t], which are [s] and [t] themselves for arguments in range. *)
Theorem getDistance_inserts_unknown_ids {G : Type} {R : UniformRandom G}
    (nm : NodeManager.t G) (s t : Z) :
  let r := getDistance s t nm in
  let a := Machine.u16 s in
  let b := Machine.u16 t in
  let ps := getPosition nm s in
  let pt := getPosition nm t in
  let dx := sub (fst ps) (fst pt) in
  let dy := sub (snd ps) (snd pt) in
  node_ids (snd r) = node_ids nm
  /\ fst r = sqrtf (add (mul dx dx) (mul dy dy))
  /\ (forall k,
        OrdMap.find k (positions (snd r))
        = if (k =? a) || (k =? b) then Some (getPosition nm k)
          else OrdMap.find k (positions nm))
  /\ (OrdMap.find a (positions nm) = None ->
      ps = origin
      /\ OrdMap.find a (positions (snd r)) = Some origin
      /\ positions (snd r) <> positions nm)
  /\ (OrdMap.find b (positions nm) = None ->
      pt = origin
      /\ OrdMap.find b (positions (snd r)) = Some origin
      /\ positions (snd r) <> positions nm)
  /\ (0 <= s < 65536 -> a = s)
  /\ (0 <= t < 65536 -> b = t).
Proof.
  cbv zeta.
  set (a := Machine.u16 s). set (b := Machine.u16 t).
  assert (Ha : Machine.u16 a = a)
    by (unfold a, Machine.u16; apply Z.mod_mod; lia).
  assert (Hb : Machine.u16 b = b)
    by (unfold b, Machine.u16; apply Z.mod_mod; lia).
  assert (Hpos : forall k, (k =? a) || (k =? b) = true ->
            getPosition nm k
            = OrdMapFacts.value_or origin (OrdMap.find k (positions nm))).
  { intros k Hk. unfold getPosition.
    apply Bool.orb_true_iff in Hk.
    destruct Hk as [Hk | Hk]; apply Z.eqb_eq in Hk; subst k;
      rewrite ?Ha, ?Hb; reflexivity. }
  change (getPosition nm s)
    with (OrdMapFacts.value_or origin (OrdMap.find a (positions nm))).
  change (getPosition nm t)
    with (OrdMapFacts.value_or origin (OrdMap.find b (positions nm))).
  assert (Hmain :
    node_ids (snd (getDistance s t nm)) = node_ids nm
    /\ fst (getDistance s t nm)
       = sqrtf
           (add (mul (sub (fst (OrdMapFacts.value_or origin
                                  (OrdMap.find a (positions nm))))
                          (fst (OrdMapFacts.value_or origin
                                  (OrdMap.find b (positions nm)))))
                     (sub (fst (OrdMapFacts.value_or origin
                                  (OrdMap.find a (positions nm))))
                          (fst (OrdMapFacts.value_or origin
                                  (OrdMap.find b (positions nm))))))
                (mul (sub (snd (OrdMapFacts.value_or origin
                                  (OrdMap.find a (positions nm))))
                          (snd (OrdMapFacts.value_or origin
                                  (OrdMap.find b (positions nm)))))
                     (sub (snd (OrdMapFacts.value_or origin
                                  (OrdMap.find a (positions nm))))
                          (snd (OrdMapFacts.value_or origin
                                  (OrdMap.find b (positions nm)))))))
    /\ (forall k,
          OrdMap.find k (positions (snd (getDistance s t nm)))
          = if (k =? a) || (k =? b)
            then Some (OrdMapFacts.value_or origin
                         (OrdMap.find k (positions nm)))
            else OrdMap.find k (positions nm))).
  { unfold getDistance. fold a b. clearbody a b. clear Ha Hb Hpos.
    pose proof (OrdMapFacts.subscript_fst origin a (positions nm)) as F1.
    pose proof (OrdMapFacts.find_subscript origin a (positions nm)) as L1.
    destruct (OrdMap.subscript origin a (positions nm)) as [s1 m1];
      simpl in F1, L1.
    pose proof (OrdMapFacts.subscript_fst origin b m1) as F2.
    pose proof (OrdMapFacts.find_subscript origin b m1) as L2.
    destruct (OrdMap.subscript origin b m1) as [t1 m2] eqn:E2;
      simpl in F2, L2.
    assert (Hs1 : OrdMap.find a m1 = Some s1).
    { rewrite L1, Z.eqb_refl, F1. reflexivity. }
    assert (Hs : OrdMap.find a m2 = Some s1).
    { rewrite L2. destruct (Z.eqb_spec a b) as [<- | Hne]; [ | exact Hs1].
      rewrite Hs1. reflexivity. }
    assert (Ht : OrdMap.find b m2 = Some t1).
    { rewrite L2, Z.eqb_refl, F2. reflexivity. }
    rewrite (OrdMapFacts.subscript_present origin a m2 s1 Hs).
    rewrite (OrdMapFacts.subscript_present origin b m2 t1 Ht).
    simpl.
    assert (Ht1 : t1 = OrdMapFacts.value_or origin
                         (OrdMap.find b (positions nm))).
    { rewrite F2, L1. destruct (Z.eqb_spec b a) as [-> | Hne]; reflexivity. }
    split; [reflexivity | split].
    - rewrite Ht1, F1. reflexivity.
    - intros k. rewrite L2, !L1.
      destruct (Z.eqb_spec k b) as [-> | Hkt].
      + rewrite Bool.orb_true_r.
        destruct (Z.eqb_spec b a) as [-> | Hne]; reflexivity.
      + rewrite Bool.orb_false_r.
        destruct (Z.eqb_spec k a) as [-> | Hks]; reflexivity. }
  destruct Hmain as (Hids & Hd & Hfind).
  assert (Hfind' : forall k,
            OrdMap.find k (positions (snd (getDistance s t nm)))
            = if (k =? a) || (k =? b) then Some (getPosition nm k)
              else OrdMap.find k (positions nm)).
  { intros k. rewrite Hfind.
    destruct ((k =? a) || (k =? b)) eqn:Hk; [ | reflexivity].
    now rewrite (Hpos k Hk). }
  assert (Hins : forall k,
            (k =? a) || (k =? b) = true ->
            OrdMap.find k (positions nm) = None ->
            OrdMapFacts.value_or origin (OrdMap.find k (positions nm)) = origin
            /\ OrdMap.find k (positions (snd (getDistance s t nm)))
               = Some origin
            /\ positions (snd (getDistance s t nm)) <> positions nm).
  { intros k Hin Hnone.
    assert (Hnew : OrdMap.find k (positions (snd (getDistance s t nm)))
                   = Some origin).
    { rewrite Hfind, Hin, Hnone. reflexivity. }
    split; [rewrite Hnone; reflexivity | ].
    split; [exact Hnew | ].
    intros Heq. rewrite Heq, Hnone in Hnew. discriminate. }
  split; [exact Hids | split; [exact Hd | split; [exact Hfind' | ]]].
  split; [ | split].
  - apply Hins. rewrite Z.eqb_refl. reflexivity.
  - apply Hins. rewrite Z.eqb_refl. apply Bool.orb_true_r.
  - split; intros Hr; [unfold a | unfold b]; unfold Machine.u16;
      apply Z.mod_small; exact Hr.
Qed.

Lemma getDistance_inserts_unknown_ids_witness :
  OrdMap.find 21 (positions (construct (0 : Z))) = None
  /\ (getPosition (construct (0 : Z)) 21 = origin
      /\ OrdMap.find 21 (positions (snd (getDistance 2 21 (construct (0 : Z)))))
         = Some origin
      /\ positions (snd (getDistance 2 21 (construct (0 : Z))))
         <> positions (construct (0 : Z)))
  /\ Machine.u16 2 = 2
  /\ Machine.u16 21 = 21.
Proof.
  pose proof (getDistance_inserts_unknown_ids (construct (0 : Z)) 2 21) as H.
  cbv zeta in H. destruct H as (_ & _ & _ & _ & Hnew & Hs & Ht).
  split; [vm_compute; reflexivity | ].
  split; [ | split; [apply Hs; lia | apply Ht; lia]].
  apply Hnew. vm_compute; reflexivity.
Defined.

(** ** The object representation of a [float] *)

Module F32Bits.

Import F32 Machine.

Lemma digits2_pos_size (m : positive) : digits2_pos m = Pos.size m.
Proof. induction m; simpl; congruence. Qed.

Lemma digits_le (m : positive) (n : positive) :
  (digits2_pos m <= n)%positive -> Z.pos m < 2 ^ Z.pos n.
Proof.
  rewrite digits2_pos_size. intros H.
  pose proof (Pos.size_gt m) as Hgt.
  apply Pos2Z.pos_lt_pos in Hgt. rewrite Pos2Z.inj_pow in Hgt.
  eapply Z.lt_le_trans; [exact Hgt | ].
  apply Z.pow_le_mono_r; lia.
Qed.

Lemma digits_ge (m : positive) (n : positive) :
  (Pos.succ n <= digits2_pos m)%positive -> 2 ^ Z.pos n <= Z.pos m.
Proof.
  rewrite digits2_pos_size. intros H.
  pose proof (Pos.size_le m) as Hle.
  apply Pos2Z.pos_le_pos in Hle. rewrite Pos2Z.inj_pow in Hle.
  change (Z.pos m~0) with (2 * Z.pos m) in Hle.
  assert (2 ^ Z.pos (Pos.succ n) <= 2 ^ Z.pos (Pos.size m)) as Hp
      by (apply Z.pow_le_mono_r; lia).
  rewrite Pos2Z.inj_succ, Z.pow_succ_r in Hp by lia.
  lia.
Qed.

(** A finite binary32 value in canonical form is either subnormal
    (exponent -149, fraction below 2^23) or normal. *)
Lemma bounded_cases (m : positive) (e : Z) :
  bounded prec emax m e = true ->
  (e = -149 /\ Z.pos m < 8388608)
  \/ (-149 <= e <= 104 /\ 8388608 <= Z.pos m < 16777216).
Proof.
  unfold bounded, canonical_mantissa, fexp, emin, prec, emax.
  intros H. apply andb_prop in H as [Hc He].
  apply Z.eqb_eq in Hc. apply Z.leb_le in He.
  destruct (Z_lt_le_dec (Z.pos (digits2_pos m)) 24) as [Hd | Hd].
  - left. split; [lia | ].
    change 8388608 with (2 ^ Z.pos 23). apply digits_le. lia.
  - right. assert (Z.pos (digits2_pos m) = 24) as Hd24 by lia.
    split; [lia | split].
    + change 8388608 with (2 ^ Z.pos 23). apply digits_ge. lia.
    + change 16777216 with (2 ^ Z.pos 24). apply digits_le. lia.
Qed.

Lemma sign_bit_cases (s : bool) : sign_bit s = 0 \/ sign_bit s = 2147483648.
Proof. destruct s; auto. Qed.

Lemma bits_range (f : float) :
  valid_binary prec emax f = true -> 0 <= bits f < 4294967296.
Proof.
  destruct f as [s | s | | s m e]; cbn [bits valid_binary]; intros Hv;
    [destruct (sign_bit_cases s); lia | destruct (sign_bit_cases s); lia
    | lia | ].
  destruct (bounded_cases m e Hv) as [[He Hm] | [He Hm]];
    destruct (Z.ltb_spec (Z.pos m) 8388608);
    destruct (sign_bit_cases s); lia.
Qed.

Lemma of_bits_bits (f : float) :
  valid_binary prec emax f = true -> of_bits (bits f) = f.
Proof.
  destruct f as [s | s | | s m e]; cbn [bits valid_binary]; intros Hv;
    [destruct s; reflexivity | destruct s; reflexivity | reflexivity | ].
  set (k := if s then 256 else 0).
  assert (Hk : sign_bit s = k * 8388608) by (unfold k; destruct s; reflexivity).
  assert (Hk2 : k = 0 /\ s = false \/ k = 256 /\ s = true)
    by (unfold k; destruct s; auto).
  clearbody k.
  destruct (bounded_cases m e Hv) as [[He Hm] | [He Hm]];
    destruct (Z.ltb_spec (Z.pos m) 8388608) as [Hlt | Hge]; try lia.
  - (* subnormal *)
    unfold of_bits. subst e. rewrite Hk.
    assert (Hs : (2147483648 <=? k * 8388608 + Z.pos m) = s).
    { destruct Hk2 as [[-> ->] | [-> ->]]; [apply Z.leb_gt | apply Z.leb_le]; lia. }
    assert (Hq : (k * 8388608 + Z.pos m) / 8388608 = k).
    { symmetry. apply (Z.div_unique _ _ _ (Z.pos m)); lia. }
    assert (Hfr : (k * 8388608 + Z.pos m) mod 8388608 = Z.pos m).
    { symmetry. apply (Z.mod_unique _ _ k); lia. }
    assert (Hex : k mod 256 = 0).
    { destruct Hk2 as [[-> _] | [-> _]]; reflexivity. }
    rewrite Hs, Hq, Hfr, Hex. reflexivity.
  - (* normal *)
    unfold of_bits. rewrite Hk.
    set (w := k * 8388608 + (e + 150) * 8388608 + (Z.pos m - 8388608)).
    assert (Hs : (2147483648 <=? w) = s).
    { unfold w.
      destruct Hk2 as [[-> ->] | [-> ->]]; [apply Z.leb_gt | apply Z.leb_le]; lia. }
    assert (Hq : w / 8388608 = k + (e + 150)).
    { unfold w. symmetry.
      apply (Z.div_unique _ _ _ (Z.pos m - 8388608)); lia. }
    assert (Hfr : w mod 8388608 = Z.pos m - 8388608).
    { unfold w. symmetry. apply (Z.mod_unique _ _ (k + (e + 150))); lia. }
    assert (Hex : (k + (e + 150)) mod 256 = e + 150).
    { symmetry. apply (Z.mod_unique _ _ (k / 256)); [lia | ].
      destruct Hk2 as [[-> _] | [-> _]]; simpl; lia. }
    rewrite Hs, Hq, Hfr, Hex.
    destruct (Z.eqb_spec (e + 150) 255); [lia | ].
    destruct (Z.eqb_spec (e + 150) 0); [lia | ].
    replace (Z.pos m - 8388608 + 8388608) with (Z.pos m) by lia.
    f_equal. lia.
Qed.

Lemma le_decode_le16 (z : Z) : le_decode (le16 z) = z mod 65536.
Proof. unfold le16; cbn [le_decode]. Z.div_mod_to_equations. lia. Qed.

Lemma le_decode_le32 (z : Z) : le_decode (le32 z) = z mod 4294967296.
Proof. unfold le32; cbn [le_decode]. Z.div_mod_to_equations. lia. Qed.

Lemma u16_idem (z : Z) : u16 (u16 z) = u16 z.
Proof. unfold u16. apply Z.mod_mod. lia. Qed.

Lemma u16_small (z : Z) : 0 <= z < 65536 -> u16 z = z.
Proof. unfold u16. apply Z.mod_small. Qed.

End F32Bits.

(** ** The values of [float]

    The operations of the program keep a [float] a binary32 value: a
    mantissa of at most 24 bits at the exponent its number of digits asks
    for.  For addition this is the normalisation of [SFadd]: whatever the
    sum, its two shifts leave a canonical mantissa. *)

Module F32Valid.

Import F32.

(** A [spec_float] that is a binary32 value. *)
Definition valid (x : float) : Prop := valid_binary prec emax x = true.

Lemma fexp_eq (k : Z) : fexp prec emax k = Z.max (k - 24) (-149).
Proof. reflexivity. Qed.

Lemma Zdigits2_log2 (m : Z) :
  0 <= m -> Zdigits2 m = if m =? 0 then 0 else Z.log2 m + 1.
Proof.
  destruct m as [ | p | p]; intros Hm; [reflexivity | | lia].
  cbn [Zdigits2 Z.eqb]. rewrite F32Bits.digits2_pos_size.
  destruct p; cbn [Pos.size Z.log2]; lia.
Qed.

Lemma Zdigits2_mono (a b : Z) : 0 <= a <= b -> Zdigits2 a <= Zdigits2 b.
Proof.
  intros H. rewrite !Zdigits2_log2 by lia.
  destruct (Z.eqb_spec a 0), (Z.eqb_spec b 0); try lia.
  - pose proof (Z.log2_nonneg b). lia.
  - pose proof (Z.log2_le_mono a b). lia.
Qed.

Lemma shr_m_of_loc (m : Z) (l : location) : shr_m (shr_record_of_loc m l) = m.
Proof. destruct l as [ | [ | | ]]; reflexivity. Qed.

Lemma shr_1_m (r : shr_record) : 0 <= shr_m r -> shr_m (shr_1 r) = Z.div2 (shr_m r).
Proof.
  destruct r as [m r s]; cbn [shr_m shr_1].
  destruct m as [ | [p | p | ] | p]; intros H; try reflexivity; lia.
Qed.

Lemma iter_shr_1_m (p : positive) (r : shr_record) :
  0 <= shr_m r -> shr_m (iter_pos shr_1 p r) = Z.shiftr (shr_m r) (Z.pos p).
Proof.
  revert r. induction p as [p IH | p IH | ]; intros r Hr; cbn [iter_pos].
  - assert (H1 : 0 <= shr_m (shr_1 r)).
    { rewrite shr_1_m by exact Hr. rewrite Z.div2_div. apply Z.div_pos; lia. }
    assert (H2 : 0 <= shr_m (iter_pos shr_1 p (shr_1 r))).
    { rewrite IH by exact H1. apply Z.shiftr_nonneg. exact H1. }
    rewrite IH by exact H2. rewrite IH by exact H1. rewrite shr_1_m by exact Hr.
    rewrite Z.div2_spec, !Z.shiftr_shiftr by lia. f_equal. lia.
  - assert (H2 : 0 <= shr_m (iter_pos shr_1 p r)).
    { rewrite IH by exact Hr. apply Z.shiftr_nonneg. exact Hr. }
    rewrite IH by exact H2. rewrite IH by exact Hr.
    rewrite !Z.shiftr_shiftr by lia. f_equal. lia.
  - rewrite shr_1_m by exact Hr. apply Z.div2_spec.
Qed.

(** One normalising shift: the mantissa it leaves is not negative and is
    at the exponent its number of digits asks for. *)
Lemma shr_fexp_canonical (m e : Z) (l : location) :
  0 <= m -> e <= fexp prec emax (Zdigits2 m + e) ->
  0 <= shr_m (fst (shr_fexp prec emax m e l))
  /\ fexp prec emax (Zdigits2 (shr_m (fst (shr_fexp prec emax m e l)))
                     + snd (shr_fexp prec emax m e l))
     = snd (shr_fexp prec emax m e l).
Proof.
  intros Hm He. unfold shr_fexp, shr.
  destruct (fexp prec emax (Zdigits2 m + e) - e) as [ | p | p] eqn:En.
  - cbn [fst snd]. rewrite shr_m_of_loc. split; [exact Hm | lia].
  - cbn [fst snd]. rewrite iter_shr_1_m by (rewrite shr_m_of_loc; exact Hm).
    rewrite shr_m_of_loc.
    split; [apply Z.shiftr_nonneg, Hm | ].
    rewrite fexp_eq in *.
    assert (Hs : 0 <= Z.shiftr m (Z.pos p)) by (apply Z.shiftr_nonneg, Hm).
    rewrite (Zdigits2_log2 _ Hs). rewrite (Zdigits2_log2 _ Hm) in En.
    destruct (Z.eqb_spec m 0) as [-> | Hne].
    + rewrite Z.shiftr_0_l. cbn [Z.eqb]. lia.
    + pose proof (Z.log2_shiftr m (Z.pos p) ltac:(lia)) as Hl.
      pose proof (Z.shiftr_eq_0_iff m (Z.pos p)) as H0.
      pose proof (Z.log2_nonneg m).
      destruct (Z.eqb_spec (Z.shiftr m (Z.pos p)) 0) as [Hz | Hnz].
      * apply H0 in Hz. lia.
      * assert (~ Z.log2 m < Z.pos p) by (intros Hlt; apply Hnz, H0; right; lia).
        lia.
  - lia.
Qed.

Lemma round_nearest_even_ge (m : Z) (l : location) : m <= round_nearest_even m l.
Proof.
  destruct l as [ | [ | | ]]; cbn [round_nearest_even]; try lia.
  destruct (Z.even m); lia.
Qed.

Lemma binary_round_aux_valid (s : bool) (m e : Z) (l : location) :
  0 <= m -> e <= fexp prec emax (Zdigits2 m + e) ->
  valid (binary_round_aux prec emax s m e l).
Proof.
  intros Hm He. unfold binary_round_aux.
  destruct (shr_fexp_canonical m e l Hm He) as [H1 C1].
  destruct (shr_fexp prec emax m e l) as [mrs1 e1]; cbn [fst snd] in H1, C1.
  set (m2 := round_nearest_even (shr_m mrs1) (loc_of_shr_record mrs1)).
  assert (Hge : shr_m mrs1 <= m2) by apply round_nearest_even_ge.
  assert (He2 : e1 <= fexp prec emax (Zdigits2 m2 + e1)).
  { pose proof (Zdigits2_mono (shr_m mrs1) m2 ltac:(lia)).
    rewrite fexp_eq in *. lia. }
  destruct (shr_fexp_canonical m2 e1 loc_Exact ltac:(lia) He2) as [H3 C3].
  destruct (shr_fexp prec emax m2 e1 loc_Exact) as [mrs3 e3]; cbn [fst snd] in H3, C3.
  destruct (shr_m mrs3) as [ | p | p] eqn:E3; [reflexivity | | reflexivity].
  destruct (Z.leb_spec e3 (emax - prec)) as [Hle | Hgt]; [ | reflexivity].
  unfold valid, valid_binary, bounded, canonical_mantissa.
  cbn [Zdigits2] in C3. rewrite C3, Z.eqb_refl.
  apply Z.leb_le in Hle. rewrite Hle. reflexivity.
Qed.

Lemma digits2_pos_iter_xO (m d : positive) :
  digits2_pos (Pos.iter xO m d) = (digits2_pos m + d)%positive.
Proof.
  induction d as [ | d IH] using Pos.peano_ind.
  - cbn [Pos.iter digits2_pos]. symmetry. apply Pos.add_1_r.
  - rewrite Pos.iter_succ. cbn [digits2_pos]. rewrite IH.
    symmetry. apply Pos.add_succ_r.
Qed.

Lemma binary_round_valid (s : bool) (m : positive) (e : Z) :
  valid (binary_round prec emax s m e).
Proof.
  unfold binary_round, shl_align.
  destruct (fexp prec emax (Z.pos (digits2_pos m) + e) - e) as [ | d | d] eqn:Ed.
  - apply binary_round_aux_valid; [lia | cbn [Zdigits2]; lia].
  - apply binary_round_aux_valid; [lia | cbn [Zdigits2]; lia].
  - apply binary_round_aux_valid; [lia | ].
    cbn [Zdigits2]. rewrite digits2_pos_iter_xO, Pos2Z.inj_add.
    pose proof (Pos2Z.opp_pos d) as Hd.
    rewrite !fexp_eq in *. lia.
Qed.

Lemma binary_normalize_valid (m e : Z) (s : bool) :
  valid (binary_normalize prec emax m e s).
Proof. destruct m; [reflexivity | | ]; apply binary_round_valid. Qed.

Lemma of_Z_valid (z : Z) : valid (of_Z z).
Proof. apply binary_normalize_valid. Qed.

Lemma add_valid (x y : float) : valid x -> valid y -> valid (add x y).
Proof.
  intros Hx Hy. unfold add.
  destruct x as [sx | sx | | sx mx ex], y as [sy | sy | | sy my ey];
    try exact Hx; try exact Hy; try reflexivity;
    try (destruct sx, sy; reflexivity).
  apply binary_normalize_valid.
Qed.

Lemma min_valid (a b : float) : valid a -> valid b -> valid (min a b).
Proof. intros Ha Hb. unfold min. now destruct (ltb b a). Qed.

Lemma max_valid (a b : float) : valid a -> valid b -> valid (max a b).
Proof. intros Ha Hb. unfold max. now destruct (ltb a b). Qed.

Lemma clamp_valid (v : float) : valid v -> valid (NodeManager.clamp v).
Proof.
  intros Hv. unfold NodeManager.clamp.
  apply max_valid; [apply of_Z_valid | apply min_valid; [apply of_Z_valid | exact Hv]].
Qed.

(** A position made of two binary32 values; the maps that hold only
    such positions. *)
Definition valid_position (p : NodeManager.position) : Prop :=
  valid (fst p) /\ valid (snd p).

Definition all_valid (m : OrdMap.t NodeManager.position) : Prop :=
  Forall (fun e => valid_position (snd e)) m.

Lemma origin_valid : valid_position NodeManager.origin.
Proof. split; apply of_Z_valid. Qed.

Lemma find_all (P : Z * NodeManager.position -> Prop) k v m :
  Forall P m -> OrdMap.find k m = Some v -> P (k, v).
Proof.
  induction 1 as [ | [k' v'] rest Hh Ht IH]; cbn [OrdMap.find]; [discriminate | ].
  destruct (k <? k'); [discriminate | ].
  destruct (Z.eqb_spec k k') as [-> | Hne]; [now intros [= <-] | exact IH].
Qed.

Section WithEngine.
Context {G : Type} {R : UniformRandom G}.

Import NodeManager NodeManagerFacts.

(** The engine hands out binary32 values, as
    [std::uniform_real_distribution<float>] does. *)
Definition draws_floats : Prop :=
  forall (a b : float) (g : G),
    valid a -> valid b -> valid (fst (uniform_real a b g)).

Hypothesis engine_draws_floats : draws_floats.

Lemma pos_dist_valid (g : G) : valid (fst (pos_dist g)).
Proof. apply engine_draws_floats; apply of_Z_valid. Qed.

Lemma move_dist_valid (g : G) : valid (fst (move_dist g)).
Proof. apply engine_draws_floats; apply of_Z_valid. Qed.

Lemma update_entry_valid e (g : G) :
  valid_position (snd e) -> valid_position (snd (fst (update_entry e g))).
Proof.
  destruct e as [id [x y]]. intros [Hx Hy]. unfold update_entry.
  destruct (coin_toss g) as [c g1].
  destruct (negb (Z.rem c 2 =? 0)); [ | split; assumption].
  pose proof (move_dist_valid g1) as Hdx.
  destruct (move_dist g1) as [dx g2].
  pose proof (move_dist_valid g2) as Hdy.
  destruct (move_dist g2) as [dy g3]; cbn [fst snd] in *.
  split; apply clamp_valid, add_valid; assumption.
Qed.

Lemma update_entries_valid m (g : G) :
  all_valid m -> all_valid (fst (update_entries m g)).
Proof.
  intros Hm. revert g.
  induction Hm as [ | e rest He Hrest IH]; intros g; cbn [update_entries].
  - constructor.
  - pose proof (update_entry_valid e g He) as H1.
    destruct (update_entry e g) as [e' g1].
    specialize (IH g1).
    destruct (update_entries rest g1) as [rest' g2]; cbn [fst snd] in *.
    constructor; assumption.
Qed.

Lemma getDistance_valid s d (nm : NodeManager.t G) :
  all_valid (positions nm) -> all_valid (positions (snd (getDistance s d nm))).
Proof.
  intros H. unfold getDistance.
  destruct (OrdMap.subscript origin (Machine.u16 s) (positions nm))
    as [s1 m1] eqn:E1.
  destruct (OrdMap.subscript origin (Machine.u16 d) m1) as [t1 m2] eqn:E2.
  destruct (OrdMap.subscript origin (Machine.u16 s) m2) as [s2 m3] eqn:E3.
  destruct (OrdMap.subscript origin (Machine.u16 d) m3) as [t2 m4] eqn:E4.
  cbn [snd positions with_positions].
  pose proof origin_valid as Ho.
  apply (subscript_all (fun e => valid_position (snd e)) _ _ _ _ _ Ho E1) in H.
  apply (subscript_all (fun e => valid_position (snd e)) _ _ _ _ _ Ho E2) in H.
  apply (subscript_all (fun e => valid_position (snd e)) _ _ _ _ _ Ho E3) in H.
  apply (subscript_all (fun e => valid_position (snd e)) _ _ _ _ _ Ho E4) in H.
  exact H.
Qed.

Lemma fill_row_valid n i j src (nm : NodeManager.t G) :
  all_valid (positions nm) -> all_valid (positions (fill_row n i j src nm)).
Proof.
  revert j nm. induction n as [ | n IH]; intros j nm H; cbn [fill_row];
    [exact H | ].
  pose proof (getDistance_valid src (nth (Z.to_nat j) (node_ids nm) 0) nm H)
    as H1.
  destruct (getDistance src (nth (Z.to_nat j) (node_ids nm) 0) nm)
    as [dist nm1].
  apply IH. exact H1.
Qed.

Lemma fill_rows_valid n i (nm : NodeManager.t G) :
  all_valid (positions nm) -> all_valid (positions (fill_rows n i nm)).
Proof.
  revert i nm. induction n as [ | n IH]; intros i nm H; cbn [fill_rows];
    [exact H | ].
  apply IH, fill_row_valid, H.
Qed.

Lemma init_nodes_valid n i (nm : NodeManager.t G) :
  all_valid (positions nm) -> all_valid (positions (init_nodes n i nm)).
Proof.
  revert i nm. induction n as [ | n IH]; intros i nm H; cbn [init_nodes];
    [exact H | ].
  pose proof (pos_dist_valid (gen nm)) as Hx.
  destruct (pos_dist (gen nm)) as [x g1].
  pose proof (pos_dist_valid g1) as Hy.
  destruct (pos_dist g1) as [y g2].
  apply IH; cbn [positions]. apply assign_all; [split; assumption | exact H].
Qed.

(** In every state of the world the coordinates are binary32 values. *)
Lemma reachable_valid (nm : NodeManager.t G) :
  reachable nm -> all_valid (positions nm).
Proof.
  induction 1 as [g | nm Hr IH].
  - unfold NodeManager.construct.
    apply fill_rows_valid, init_nodes_valid. constructor.
  - unfold updatePositions.
    pose proof (update_entries_valid _ (gen nm) IH) as H1.
    destruct (update_entries (positions nm) (gen nm)); exact H1.
Qed.

Lemma getPosition_valid (nm : NodeManager.t G) (id : Z) :
  reachable nm -> valid_position (getPosition nm id).
Proof.
  intros Hr. unfold getPosition.
  destruct (OrdMap.find (Machine.u16 id) (positions nm)) as [p | ] eqn:E;
    [ | apply origin_valid].
  exact (find_all (fun e => valid_position (snd e)) _ _ _
           (reachable_valid nm Hr) E).
Qed.

End WithEngine.

Lemma counter_draws_floats : draws_floats (G := Z).
Proof.
  intros a b n Ha Hb. cbn [uniform_real counter_engine].
  unfold Counter.real_draw. cbn [fst]. now destruct (Z.even (n / 2)).
Qed.

End F32Valid.

(** ** Objects in memory *)

Module MachineFacts.

Import Machine.

Lemma store_at (pre old post : list cell) (bs : list Z) :
  length old = length bs ->
  store (pre ++ old ++ post) (Z.of_nat (length pre)) bs
  = Some (pre ++ map Octet bs ++ post).
Proof.
  intros Hlen. unfold store.
  rewrite !length_app.
  replace ((0 <=? Z.of_nat (length pre))
           && (Z.of_nat (length pre) + Z.of_nat (length bs)
               <=? Z.of_nat (length pre + (length old + length post))))
    with true
    by (symmetry; apply andb_true_intro; split; apply Z.leb_le; lia).
  rewrite Nat2Z.id.
  rewrite firstn_app, firstn_all, Nat.sub_diag, firstn_O, app_nil_r.
  rewrite skipn_app, skipn_all2 by lia.
  replace (length pre + length bs - length pre)%nat with (length old) by lia.
  rewrite skipn_app, skipn_all, Nat.sub_diag, skipn_O.
  reflexivity.
Qed.

Lemma view_at (pre mid post : list cell) :
  view (pre ++ mid ++ post) (Z.of_nat (length pre)) (Z.of_nat (length mid))
  = Some mid.
Proof.
  unfold view. rewrite !length_app.
  replace ((0 <=? Z.of_nat (length pre)) && (0 <=? Z.of_nat (length mid))
           && (Z.of_nat (length pre) + Z.of_nat (length mid)
               <=? Z.of_nat (length pre + (length mid + length post))))
    with true
    by (symmetry; repeat (apply andb_true_intro; split); apply Z.leb_le; lia).
  rewrite !Nat2Z.id.
  rewrite skipn_app, skipn_all, Nat.sub_diag, skipn_O. simpl.
  rewrite firstn_app, firstn_all, Nat.sub_diag, firstn_O, app_nil_r.
  reflexivity.
Qed.

Lemma octets_map (bs : list Z) : octets (map Octet bs) = Some bs.
Proof. induction bs as [ | b bs IH]; simpl; [ | rewrite IH]; reflexivity. Qed.

Lemma octets_written (cs : list cell) (bs : list Z) :
  octets cs = Some bs -> cs = map Octet bs.
Proof.
  revert bs. induction cs as [ | [ | b] cs IH]; simpl; intros bs H.
  - now injection H as <-.
  - discriminate.
  - destruct (octets cs) as [bs' | ]; [ | discriminate].
    injection H as <-. simpl. now rewrite (IH bs').
Qed.

Lemma load16_at (pre post : list cell) (z : Z) :
  load16 (pre ++ map Octet (le16 z) ++ post) (Z.of_nat (length pre))
  = Some (u16 z).
Proof.
  unfold load16.
  pose proof (view_at pre (map Octet (le16 z)) post) as H.
  change (Z.of_nat (length (map Octet (le16 z)))) with 2 in H.
  rewrite H, octets_map, F32Bits.le_decode_le16. reflexivity.
Qed.

Lemma all_written_map (bs : list Z) : forallb is_written (map Octet bs) = true.
Proof. induction bs; simpl; auto. Qed.

End MachineFacts.


(** ** What [generateGraph] writes *)

Module GraphFacts.

Import Machine MachineFacts Packet GraphGenerator.

(** An edge record as three [uint16_t] values, and its six bytes. *)
Definition edge : Type := (Z * Z * Z)%type.

Definition enc_edge (e : edge) : list Z :=
  let '(s, t, w) := e in le16 s ++ le16 t ++ le16 w.

Definition enc_edges (es : list edge) : list Z := concat (map enc_edge es).

(** The bytes of a packet with its header and [es] as first edges. *)
Definition enc_graph (sender_id edge_count : Z) (es : list edge) : list Z :=
  le16 sender_id ++ le16 edge_count ++ enc_edges es.

Lemma length_enc_edges es : length (enc_edges es) = (6 * length es)%nat.
Proof.
  unfold enc_edges. induction es as [ | [[s t] w] es IH]; [reflexivity | ].
  cbn [map concat]. rewrite length_app, IH. cbn [enc_edge le16 length app]. lia.
Qed.

Lemma length_enc_graph sender k es :
  length (enc_graph sender k es) = (4 + 6 * length es)%nat.
Proof.
  unfold enc_graph. rewrite !length_app, length_enc_edges. reflexivity.
Qed.

Lemma sizeof_GraphPacket : sizeof_struct GraphPacket = 304.
Proof. reflexivity. Qed.

Lemma sizeof_GraphEdge : sizeof_struct GraphEdge = 6.
Proof. reflexivity. Qed.

Lemma off_source_id_eq i : off_source_id i = 4 + 6 * i.
Proof. unfold off_source_id, off_edge. rewrite sizeof_GraphEdge.
  change off_edges with 4. change (offsetof GraphEdge 0) with 0. lia. Qed.

Lemma off_target_id_eq i : off_target_id i = 4 + 6 * i + 2.
Proof. unfold off_target_id, off_edge. rewrite sizeof_GraphEdge.
  change off_edges with 4. change (offsetof GraphEdge 1) with 2. lia. Qed.

Lemma off_strength_eq i : off_strength i = 4 + 6 * i + 4.
Proof. unfold off_strength, off_edge. rewrite sizeof_GraphEdge.
  change off_edges with 4. change (offsetof GraphEdge 2) with 4. lia. Qed.

Section WithEngine.
Context {G : Type} {R : UniformRandom G}.

(** The draws of the rejection loop, on the engine alone. *)
Fixpoint next_other (fuel : nat) (source : Z) (g : G) : option (Z * G) :=
  match fuel with
  | O => None
  | S fuel' =>
      let '(v, g1) := node_dist g in
      if u16 v =? source then next_other fuel' source g1
      else Some (u16 v, g1)
  end.

(** The draws of the [for] loop, on the engine alone. *)
Fixpoint sample_edges (fuel : nat) (n : nat) (g : G) : option (list edge * G) :=
  match n with
  | O => Some ([], g)
  | S n' =>
      let '(s, g1) := node_dist g in
      match next_other fuel (u16 s) g1 with
      | None => None
      | Some (t, g2) =>
          let '(w, g3) := strength_dist g2 in
          match sample_edges fuel n' g3 with
          | None => None
          | Some (es, g4) => Some ((u16 s, t, w) :: es, g4)
          end
      end
  end.

Definition sample_graph (fuel : nat) (g : G) : option (Z * list edge * G) :=
  let '(num_edges, g1) := edge_count_dist g in
  match sample_edges fuel (Z.to_nat num_edges) g1 with
  | None => None
  | Some (es, g2) => Some (num_edges, es, g2)
  end.

Lemma node_dist_range (g : G) : 1 <= fst (node_dist g) <= 20.
Proof. apply uniform_int_range. unfold NUM_NODES. lia. Qed.

Lemma strength_dist_range (g : G) : 1 <= fst (strength_dist g) <= 1000.
Proof.
  unfold strength_dist.
  pose proof (uniform_int_range 1 1000 g ltac:(lia)) as H.
  destruct (uniform_int 1 1000 g) as [v g']; simpl in *.
  rewrite F32Bits.u16_small; lia.
Qed.

Lemma edge_count_dist_range (g : G) : 6 <= fst (edge_count_dist g) <= 35.
Proof. apply uniform_int_range. unfold MIN_EDGES, MAX_EDGES. lia. Qed.

Lemma store_at' (mem pre old post : list cell) (off : Z) (bs : list Z) :
  mem = pre ++ old ++ post -> off = Z.of_nat (length pre) ->
  length old = length bs ->
  store mem off bs = Some (pre ++ map Octet bs ++ post).
Proof. intros -> -> H. now apply store_at. Qed.

Lemma load16_at' (mem pre post : list cell) (off z : Z) :
  mem = pre ++ map Octet (le16 z) ++ post -> off = Z.of_nat (length pre) ->
  load16 mem off = Some (u16 z).
Proof. intros -> ->. apply load16_at. Qed.

(** The [do ... while] writes the first draw that differs from the source
    over the target, and runs out of fuel exactly when no draw differs. *)
Lemma draw_target_image (fuel : nat) (i s : Z) (pre told post : list cell) (g : G) :
  Z.of_nat (length pre) = 4 + 6 * i -> length told = 2%nat ->
  draw_target fuel i (pre ++ map Octet (le16 (u16 s)) ++ told ++ post) g
  = match next_other fuel (u16 s) g with
    | Some (t, g') =>
        Ret (pre ++ map Octet (le16 (u16 s)) ++ map Octet (le16 t) ++ post, g')
    | None => OutOfFuel
    end.
Proof.
  intros Hpre. revert told g.
  induction fuel as [ | fuel IH]; intros told g Htold; [reflexivity | ].
  cbn [draw_target next_other].
  destruct (node_dist g) as [v g1].
  rewrite (store_at' _ (pre ++ map Octet (le16 (u16 s))) told post
             (off_target_id i) (le16 (u16 v)));
    [ | now rewrite <- app_assoc
      | rewrite off_target_id_eq, length_app; cbn [le16 map length]; lia
      | exact Htold ].
  cbn [defined bind].
  rewrite (load16_at' _ (pre ++ map Octet (le16 (u16 s))) post
             (off_target_id i) (u16 v));
    [ | reflexivity
      | rewrite off_target_id_eq, length_app; cbn [le16 map length]; lia ].
  cbn [defined bind].
  rewrite (load16_at' _ pre (map Octet (le16 (u16 v)) ++ post)
             (off_source_id i) (u16 s));
    [ | now rewrite <- app_assoc
      | rewrite off_source_id_eq; lia ].
  cbn [defined bind].
  rewrite !F32Bits.u16_idem.
  destruct (u16 v =? u16 s).
  - rewrite <- app_assoc. apply IH. reflexivity.
  - rewrite <- app_assoc. reflexivity.
Qed.

Lemma repeat_six (k : nat) :
  (6 <= k)%nat ->
  repeat Indet k
  = repeat Indet 2 ++ repeat Indet 2 ++ repeat Indet 2 ++ repeat Indet (k - 6).
Proof.
  intros H. rewrite <- !repeat_app. f_equal. lia.
Qed.

(** The [for] loop writes the sampled edges one after the other from
    [edges[i]] on and touches nothing else. *)
Lemma fill_edges_image (fuel n : nat) (i : Z) (done : list cell) (k : nat) (g : G) :
  Z.of_nat (length done) = 4 + 6 * i -> (6 * n <= k)%nat ->
  fill_edges fuel n i (done ++ repeat Indet k) g
  = match sample_edges fuel n g with
    | Some (es, g') =>
        Ret (done ++ map Octet (enc_edges es) ++ repeat Indet (k - 6 * n), g')
    | None => OutOfFuel
    end.
Proof.
  revert i done k g.
  induction n as [ | n IH]; intros i done k g Hdone Hk.
  - cbn [fill_edges sample_edges enc_edges map concat app].
    now rewrite Nat.sub_0_r.
  - cbn [fill_edges sample_edges].
    destruct (node_dist g) as [s g1].
    rewrite (repeat_six k) by lia.
    rewrite (store_at' _ done (repeat Indet 2)
               (repeat Indet 2 ++ repeat Indet 2 ++ repeat Indet (k - 6))
               (off_source_id i) (le16 (u16 s)));
      [ | reflexivity | rewrite off_source_id_eq; lia | reflexivity ].
    cbn [defined bind].
    rewrite (draw_target_image fuel i s done (repeat Indet 2)
               (repeat Indet 2 ++ repeat Indet (k - 6)) g1 Hdone eq_refl).
    destruct (next_other fuel (u16 s) g1) as [[t g2] | ]; [ | reflexivity].
    cbn [bind].
    destruct (strength_dist g2) as [w g3].
    rewrite (store_at' _
               (done ++ map Octet (le16 (u16 s)) ++ map Octet (le16 t))
               (repeat Indet 2) (repeat Indet (k - 6))
               (off_strength i) (le16 w));
      [ | now rewrite <- !app_assoc
        | rewrite off_strength_eq, !length_app; cbn [le16 map length]; lia
        | reflexivity ].
    cbn [defined bind].
    replace ((done ++ map Octet (le16 (u16 s)) ++ map Octet (le16 t))
             ++ map Octet (le16 w) ++ repeat Indet (k - 6))
      with ((done ++ map Octet (enc_edge (u16 s, t, w))) ++ repeat Indet (k - 6))
      by (cbn [enc_edge]; rewrite !map_app, <- !app_assoc; reflexivity).
    rewrite IH;
      [ | rewrite length_app, length_map; cbn [enc_edge le16 app length]; lia
        | lia ].
    destruct (sample_edges fuel n g3) as [[es g4] | ]; [ | reflexivity].
    f_equal. f_equal.
    unfold enc_edges. cbn [map concat].
    rewrite map_app, <- !app_assoc.
    do 3 f_equal. f_equal. lia.
Qed.

(** [generateGraph] leaves a packet object whose first [4 + 6 * num_edges]
    cells hold the header and the sampled edges, the cells of the edges
    from [num_edges] on being as indeterminate as they were. *)
Lemma generateGraph_image (fuel : nat) (sender_id : Z) (g : G) :
  generateGraph fuel sender_id g
  = match sample_graph fuel g with
    | Some (num_edges, es, g') =>
        Ret (map Octet (enc_graph (u16 sender_id) num_edges es)
             ++ repeat Indet (300 - 6 * Z.to_nat num_edges), g')
    | None => OutOfFuel
    end.
Proof.
  unfold generateGraph, sample_graph.
  rewrite sizeof_GraphPacket.
  change (fresh_object 304)
    with ([] ++ repeat Indet 2 ++ repeat Indet 2 ++ repeat Indet 300).
  rewrite (store_at' _ [] (repeat Indet 2) (repeat Indet 2 ++ repeat Indet 300)
             off_sender_id (le16 (u16 sender_id)));
    [ | reflexivity | reflexivity | reflexivity ].
  cbn [defined bind app].
  pose proof (edge_count_dist_range g) as Hn.
  destruct (edge_count_dist g) as [num_edges g1]; cbn [fst] in Hn.
  rewrite (store_at' _ (map Octet (le16 (u16 sender_id))) (repeat Indet 2)
             (repeat Indet 300) off_edge_count (le16 (u16 num_edges)));
    [ | reflexivity | reflexivity | reflexivity ].
  cbn [defined bind].
  rewrite (F32Bits.u16_small num_edges) by lia.
  rewrite app_assoc.
  rewrite (fill_edges_image fuel (Z.to_nat num_edges) 0);
    [ | rewrite length_app; cbn [le16 map length]; lia | lia ].
  destruct (sample_edges fuel (Z.to_nat num_edges) g1) as [[es g2] | ];
    [ | reflexivity].
  unfold enc_graph. rewrite !map_app, <- !app_assoc. reflexivity.
Qed.

Lemma sample_edges_length (fuel n : nat) (g : G) es g' :
  sample_edges fuel n g = Some (es, g') -> length es = n.
Proof.
  revert g es g'. induction n as [ | n IH]; intros g es g'; cbn [sample_edges].
  - now intros [= <- <-].
  - destruct (node_dist g) as [s g1].
    destruct (next_other fuel (u16 s) g1) as [[t g2] | ]; [ | discriminate].
    destruct (strength_dist g2) as [w g3].
    destruct (sample_edges fuel n g3) as [[es' g4] | ] eqn:E; [ | discriminate].
    intros [= <- <-]. cbn [length]. f_equal. eapply IH, E.
Qed.

(** What the source promises of an edge. *)
Definition edge_ok (e : edge) : Prop :=
  let '(s, t, w) := e in
  1 <= s <= 20 /\ 1 <= t <= 20 /\ s <> t /\ 1 <= w <= 1000.

Lemma next_other_ok (fuel : nat) (source : Z) (g : G) t g' :
  next_other fuel source g = Some (t, g') -> 1 <= t <= 20 /\ t <> source.
Proof.
  revert g. induction fuel as [ | fuel IH]; intros g; cbn [next_other];
    [discriminate | ].
  pose proof (node_dist_range g) as Hv.
  destruct (node_dist g) as [v g1]; cbn [fst] in Hv.
  destruct (Z.eqb_spec (u16 v) source) as [E | E]; [apply IH | ].
  intros [= <- <-]. rewrite F32Bits.u16_small in * by lia. auto.
Qed.

Lemma sample_edges_ok (fuel n : nat) (g : G) es g' :
  sample_edges fuel n g = Some (es, g') -> Forall edge_ok es.
Proof.
  revert g es g'. induction n as [ | n IH]; intros g es g'; cbn [sample_edges].
  - intros [= <- <-]. constructor.
  - pose proof (node_dist_range g) as Hs.
    destruct (node_dist g) as [s g1]; cbn [fst] in Hs.
    destruct (next_other fuel (u16 s) g1) as [[t g2] | ] eqn:Et; [ | discriminate].
    apply next_other_ok in Et.
    pose proof (strength_dist_range g2) as Hw.
    destruct (strength_dist g2) as [w g3]; cbn [fst] in Hw.
    destruct (sample_edges fuel n g3) as [[es' g4] | ] eqn:E; [ | discriminate].
    intros [= <- <-]. constructor; [ | eapply IH, E].
    rewrite F32Bits.u16_small in * by lia. cbn. lia.
Qed.

(** A sampled graph: between 6 and 35 edges, as many as announced, each
    one as promised. *)
Lemma sample_graph_ok (fuel : nat) (g : G) k es g' :
  sample_graph fuel g = Some (k, es, g') ->
  6 <= k <= 35 /\ Z.of_nat (length es) = k /\ Forall edge_ok es.
Proof.
  unfold sample_graph.
  pose proof (edge_count_dist_range g) as Hk.
  destruct (edge_count_dist g) as [n g1]; cbn [fst] in Hk.
  destruct (sample_edges fuel (Z.to_nat n) g1) as [[es' g2] | ] eqn:E;
    [ | discriminate].
  intros [= <- <- <-].
  split; [exact Hk | split].
  - rewrite (sample_edges_length _ _ _ _ _ E). lia.
  - eapply sample_edges_ok, E.
Qed.

(** The rejection loop ends as soon as the engine is fair to it. *)
Definition fair (fuel : nat) : Prop :=
  forall (source : Z) (g : G), next_other fuel source g <> None.

Lemma sample_edges_total (fuel n : nat) (g : G) :
  fair fuel -> sample_edges fuel n g <> None.
Proof.
  intros Hf. revert g. induction n as [ | n IH]; intros g; cbn [sample_edges];
    [discriminate | ].
  destruct (node_dist g) as [s g1].
  pose proof (Hf (u16 s) g1) as H1.
  destruct (next_other fuel (u16 s) g1) as [[t g2] | ]; [ | contradiction].
  destruct (strength_dist g2) as [w g3].
  specialize (IH g3).
  destruct (sample_edges fuel n g3) as [[es g4] | ]; [discriminate | contradiction].
Qed.

Lemma sample_graph_total (fuel : nat) (g : G) :
  fair fuel -> sample_graph fuel g <> None.
Proof.
  intros Hf. unfold sample_graph.
  destruct (edge_count_dist g) as [n g1].
  pose proof (sample_edges_total fuel (Z.to_nat n) g1 Hf) as H.
  destruct (sample_edges fuel (Z.to_nat n) g1) as [[es g2] | ];
    [discriminate | contradiction].
Qed.

End WithEngine.

(** ** The receiver's reading of a Graph datagram *)

Fixpoint records (n : nat) (bs : list Z) : list edge :=
  match n with
  | O => []
  | S n' =>
      match bs with
      | s0 :: s1 :: t0 :: t1 :: w0 :: w1 :: rest =>
          (le_decode [s0; s1], le_decode [t0; t1], le_decode [w0; w1])
          :: records n' rest
      | _ => []
      end
  end.

Definition parse_graph (bs : list Z) : option (Z * Z * list edge) :=
  match bs with
  | a0 :: a1 :: c0 :: c1 :: rest =>
      let edge_count := le_decode [c0; c1] in
      Some (le_decode [a0; a1], edge_count, records (Z.to_nat edge_count) rest)
  | _ => None
  end.

Definition edge_u16 (e : edge) : Prop :=
  let '(s, t, w) := e in
  0 <= s < 65536 /\ 0 <= t < 65536 /\ 0 <= w < 65536.

Lemma edge_ok_u16 e : edge_ok e -> edge_u16 e.
Proof. destruct e as [[s t] w]. cbn. lia. Qed.

Lemma records_enc_edges (es : list edge) (tail : list Z) :
  Forall edge_u16 es -> records (length es) (enc_edges es ++ tail) = es.
Proof.
  induction 1 as [ | [[s t] w] es He Hes IH]; [reflexivity | ].
  unfold enc_edges in *. cbn [map concat length enc_edge le16 app records].
  rewrite IH.
  pose proof (F32Bits.le_decode_le16 s) as Hs.
  pose proof (F32Bits.le_decode_le16 t) as Ht.
  pose proof (F32Bits.le_decode_le16 w) as Hw.
  unfold le16 in Hs, Ht, Hw. rewrite Hs, Ht, Hw.
  cbn in He. rewrite !Z.mod_small by lia. reflexivity.
Qed.

Lemma parse_enc_graph (sender k : Z) (es : list edge) :
  0 <= sender < 65536 -> 0 <= k < 65536 -> Z.of_nat (length es) = k ->
  Forall edge_u16 es ->
  parse_graph (enc_graph sender k es) = Some (sender, k, es).
Proof.
  intros Hs Hk Hlen Hes.
  unfold enc_graph. cbn [le16 app parse_graph].
  pose proof (F32Bits.le_decode_le16 sender) as H1.
  pose proof (F32Bits.le_decode_le16 k) as H2.
  unfold le16 in H1, H2. rewrite H1, H2.
  rewrite !Z.mod_small by lia.
  rewrite <- Hlen, Nat2Z.id.
  rewrite <- (app_nil_r (enc_edges es)), records_enc_edges by exact Hes.
  reflexivity.
Qed.

End GraphFacts.

(** ** What the servers hand to [sendto] *)

Module ServerFacts.

Import Machine MachineFacts Packet UDP Server GraphFacts.

(** The stores and the copy of [positionServer] on a fresh 12-byte record,
    the ten bytes standing for themselves. *)
Lemma record_image (a b x0 x1 x2 x3 y0 y1 y2 y3 : Z) :
  bind (defined (store (fresh_object 12) 0 [a; b])) (fun p1 =>
  bind (defined (store p1 4 [x0; x1; x2; x3])) (fun p2 =>
  bind (defined (store p2 8 [y0; y1; y2; y3])) (fun p3 =>
  bind (defined (view p3 0 2)) (fun temp =>
  bind (defined (view p3 4 4)) (fun tx =>
  bind (defined (view p3 8 4)) (fun ty =>
  bind (defined (memcpy_within p3 2 0 2)) (fun p4 =>
  Ret (p4, 2, 10))))))))
  = Ret (map Octet [a; b; a; b; x0; x1; x2; x3; y0; y1; y2; y3], 2, 10).
Proof. reflexivity. Qed.

Section WithEngine.
Context {G : Type} {R : UniformRandom G}.

(** The record of [positionServer] when it is sent: at offset 2, where the
    padding was, a copy of [node_id]; the pointer given to [sendPacket] is
    at that offset, and the size is 10. *)
Lemma position_packet_image (node_id : Z) (nm : NodeManager.t G) :
  position_packet node_id nm
  = Ret (map Octet (le16 (u16 node_id) ++ le16 (u16 node_id)
                    ++ F32.bytes (fst (NodeManager.getPosition nm node_id))
                    ++ F32.bytes (snd (NodeManager.getPosition nm node_id))),
         2, 10).
Proof.
  unfold position_packet.
  destruct (NodeManager.getPosition nm node_id) as [x y]. cbn [fst snd].
  exact (record_image (u16 node_id mod 256) ((u16 node_id / 256) mod 256)
           (F32.bits x mod 256) ((F32.bits x / 256) mod 256)
           ((F32.bits x / 65536) mod 256) ((F32.bits x / 16777216) mod 256)
           (F32.bits y mod 256) ((F32.bits y / 256) mod 256)
           ((F32.bits y / 65536) mod 256) ((F32.bits y / 16777216) mod 256)).
Qed.

(** The cells [sendto] reads for a Position datagram. *)
Lemma position_view (node_id : Z) (x y : F32.float) :
  view (map Octet (le16 (u16 node_id) ++ le16 (u16 node_id)
                   ++ F32.bytes x ++ F32.bytes y)) 2 10
  = Some (map Octet (le16 (u16 node_id) ++ F32.bytes x ++ F32.bytes y)).
Proof. reflexivity. Qed.

Lemma size_t_small (z : Z) : 0 <= z < 18446744073709551616 -> size_t z = z.
Proof. unfold size_t. change (2 ^ 64) with 18446744073709551616. apply Z.mod_small. Qed.

(** The packet of [graphServer] and the size it computes. *)
Lemma graph_packet_image (fuel : nat) (node_id : Z) (g : G) :
  graph_packet fuel node_id g
  = match sample_graph fuel g with
    | Some (k, es, g') =>
        Ret (g', (map Octet (enc_graph (u16 node_id) k es)
                  ++ repeat Indet (300 - 6 * Z.to_nat k),
                  0, 4 + 6 * k))
    | None => OutOfFuel
    end.
Proof.
  unfold graph_packet. rewrite generateGraph_image.
  destruct (sample_graph fuel g) as [[[k es] g'] | ] eqn:E; [ | reflexivity].
  destruct (sample_graph_ok _ _ _ _ _ E) as (Hk & Hlen & _).
  cbn [bind].
  rewrite (load16_at' _ (map Octet (le16 (u16 node_id)))
             (map Octet (enc_edges es) ++ repeat Indet (300 - 6 * Z.to_nat k))
             off_edge_count k);
    [ | unfold enc_graph; rewrite !map_app, <- !app_assoc; reflexivity
      | reflexivity ].
  cbn [defined bind].
  rewrite (F32Bits.u16_small k) by lia.
  rewrite sizeof_GraphPacket, sizeof_GraphEdge.
  rewrite (size_t_small (50 - k)) by lia.
  rewrite (size_t_small (6 * (50 - k))) by lia.
  rewrite (size_t_small (304 - 6 * (50 - k))) by lia.
  do 3 f_equal. lia.
Qed.

Lemma graph_view (sender k : Z) (es : list edge) :
  6 <= k <= 35 -> Z.of_nat (length es) = k ->
  view (map Octet (enc_graph sender k es) ++ repeat Indet (300 - 6 * Z.to_nat k))
       0 (4 + 6 * k)
  = Some (map Octet (enc_graph sender k es)).
Proof.
  intros Hk Hlen.
  pose proof (view_at [] (map Octet (enc_graph sender k es))
                (repeat Indet (300 - 6 * Z.to_nat k))) as H.
  rewrite length_map, length_enc_graph in H. cbn [length app] in H.
  replace (Z.of_nat (4 + 6 * length es)) with (4 + 6 * k) in H by lia.
  exact H.
Qed.

End WithEngine.

End ServerFacts.

(** ** The common loop *)

Module LoopFacts.

Import Machine MachineFacts UDP Server.

(** Every [sendto] is recorded, with the answer of the system. *)
Lemma sendto_calls (n : Net) (p : Z) (cs : list cell) :
  exists ok : bool,
    calls (snd (sendto n p cs))
    = calls n ++ [({| dst_port := p; payload := cs |}, ok)]
    /\ fst (sendto n p cs) = (if ok then Z.of_nat (length cs) else -1).
Proof.
  unfold sendto.
  destruct (verdicts n) as [ | [ | ] rest]; cbn [fst snd calls].
  - exists true. auto.
  - exists true. auto.
  - exists false. auto.
Qed.

Lemma sendto_attempted (n : Net) (p : Z) (cs : list cell) :
  attempted (snd (sendto n p cs))
  = attempted n ++ [{| dst_port := p; payload := cs |}].
Proof.
  unfold attempted. destruct (sendto_calls n p cs) as (ok & -> & _).
  rewrite map_app. reflexivity.
Qed.

Section Loop.
Context {W : Type}.
Variable head : W -> W * list Z.
Variable build : nat -> Z -> W -> run (W * (list cell * Z * Z)).
Variable inner_ms outer_ms : Z.
Variable fuel : nat.
Variable srv : UDPServer.

#[local] Abbreviation step := (Server.step head build inner_ms outer_ms fuel srv).
#[local] Abbreviation steps := (Server.steps head build inner_ms outer_ms fuel srv).

(** The only step that sends: in the [for], one datagram made of the
    cells [build] points at. *)
Definition sent_by (s : state W) (d : datagram) : Prop :=
  exists id rest w' mem off size,
    at_pc s = InFor (id :: rest)
    /\ build fuel id (owned s) = Ret (w', (mem, off, size))
    /\ view mem off size = Some (payload d)
    /\ dst_port d = port srv.

Lemma step_attempted (running : bool) (s s' : state W) :
  step running s = Ret s' ->
  attempted (net s') = attempted (net s)
  \/ exists d, sent_by s d /\ attempted (net s') = attempted (net s) ++ [d].
Proof.
  unfold Server.step.
  destruct (at_pc s) as [ | [ | id rest] | ] eqn:Epc.
  - destruct running; [destruct (head (owned s)) as [w ids] | ];
      intros [= <-]; left; reflexivity.
  - intros [= <-]; left; reflexivity.
  - destruct (build fuel id (owned s)) as [[w [[mem off] size]] | | ] eqn:Eb;
      cbn [bind]; try discriminate.
    unfold sendPacket.
    destruct (view mem off size) as [cs | ] eqn:Ev; cbn [defined bind];
      [ | discriminate].
    pose proof (sendto_attempted (net s) (port srv) cs) as Hs.
    destruct (sendto (net s) (port srv) cs) as [r n']; cbn [snd] in Hs.
    intros [= <-]. right.
    exists {| dst_port := port srv; payload := cs |}. split; [ | exact Hs].
    exists id, rest, w, mem, off, size. auto.
  - intros [= <-]; left; reflexivity.
Qed.

(** Whatever holds of each datagram as it is sent holds of all the
    datagrams of a run. *)
Lemma steps_attempted (P : datagram -> Prop) :
  (forall s d, sent_by s d -> P d) ->
  forall (flags : list bool) (s s' : state W),
    steps flags s = Ret s' ->
    exists ds, attempted (net s') = attempted (net s) ++ ds /\ Forall P ds.
Proof.
  intros HP. induction flags as [ | f flags IH]; intros s s'; cbn [Server.steps].
  - intros [= <-]. exists []. rewrite app_nil_r. auto.
  - destruct (step f s) as [s1 | | ] eqn:E1; cbn [bind]; try discriminate.
    intros E2. destruct (IH _ _ E2) as (ds & Hds & Hall).
    destruct (step_attempted _ _ _ E1) as [Hsame | (d & Hd & Happ)].
    + exists ds. rewrite Hds, Hsame. auto.
    + exists (d :: ds). rewrite Hds, Happ, <- app_assoc. split; [reflexivity | ].
      constructor; [eapply HP, Hd | exact Hall].
Qed.

(** ** What the answers of the system change: nothing but the record *)

Definition same_course (a b : state W) : Prop :=
  at_pc a = at_pc b /\ owned a = owned b /\ slept a = slept b
  /\ attempted (net a) = attempted (net b).

Definition same_outcome (a b : run (state W)) : Prop :=
  match a, b with
  | Ret x, Ret y => same_course x y
  | OutOfFuel, OutOfFuel => True
  | Undefined, Undefined => True
  | _, _ => False
  end.

Lemma step_same_course (running : bool) (a b : state W) :
  same_course a b -> same_outcome (step running a) (step running b).
Proof.
  intros (Hpc & Hw & Hsl & Hat). unfold Server.step.
  rewrite <- Hpc, <- Hw, <- Hsl.
  destruct (at_pc a) as [ | [ | id rest] | ] eqn:Ea.
  - destruct running; [destruct (head (owned a)) as [w ids] | ];
      cbn [same_outcome]; unfold same_course; cbn [at_pc owned slept net]; auto.
  - cbn [same_outcome]; unfold same_course; cbn [at_pc owned slept net]; auto.
  - destruct (build fuel id (owned a)) as [[w [[mem off] size]] | | ];
      cbn [bind same_outcome]; auto.
    unfold sendPacket.
    destruct (view mem off size) as [cs | ]; cbn [defined bind same_outcome]; auto.
    pose proof (sendto_attempted (net a) (port srv) cs) as Ha.
    pose proof (sendto_attempted (net b) (port srv) cs) as Hb.
    destruct (sendto (net a) (port srv) cs) as [ra na].
    destruct (sendto (net b) (port srv) cs) as [rb nb].
    cbn [snd] in Ha, Hb. cbn [bind same_outcome].
    unfold same_course; cbn [at_pc owned slept net].
    rewrite Ha, Hb, Hat. auto.
  - cbn [same_outcome]; unfold same_course. rewrite Ea. auto.
Qed.

Lemma steps_same_course (flags : list bool) (a b : state W) :
  same_course a b -> same_outcome (steps flags a) (steps flags b).
Proof.
  revert a b. induction flags as [ | f flags IH]; intros a b Hab;
    cbn [Server.steps]; [exact Hab | ].
  pose proof (step_same_course f a b Hab) as H1.
  destruct (step f a) as [a1 | | ], (step f b) as [b1 | | ];
    cbn [same_outcome bind] in *; try contradiction; auto.
Qed.

(** ** After [running = false] *)

(** [build] returns, with a buffer inside its object. *)
Definition builds (id : Z) (w : W) : Prop :=
  exists w' mem off size cs,
    build fuel id w = Ret (w', (mem, off, size))
    /\ view mem off size = Some cs.

Lemma step_in_for (running : bool) (s : state W) (id : Z) (rest : list Z) :
  at_pc s = InFor (id :: rest) -> builds id (owned s) ->
  exists s',
    step running s = Ret s'
    /\ at_pc s' = InFor rest
    /\ sends s' = S (sends s)
    /\ slept s' = slept s + inner_ms.
Proof.
  intros Hpc (w' & mem & off & size & cs & Hb & Hv).
  unfold Server.step. rewrite Hpc, Hb. cbn [bind].
  unfold sendPacket. rewrite Hv. cbn [defined bind].
  destruct (sendto_calls (net s) (port srv) cs) as (ok & Hc & _).
  destruct (sendto (net s) (port srv) cs) as [r n']; cbn [snd] in Hc.
  eexists. split; [reflexivity | ]. cbn [at_pc slept].
  split; [reflexivity | split; [ | reflexivity]].
  unfold sends; cbn [net]. rewrite Hc, length_app. cbn [length]. lia.
Qed.

(** With the flag down, a thread inside its [for] finishes the sweep:
    one send and one inner sleep for each id that is left, the outer
    sleep, then the test of the flag that ends the thread. *)
Lemma drain_in_for (rest : list Z) (s : state W) :
  at_pc s = InFor rest ->
  (forall id w, builds id w) ->
  exists s',
    steps (repeat false (length rest + 2)) s = Ret s'
    /\ at_pc s' = Returned
    /\ sends s' = (sends s + length rest)%nat
    /\ slept s' = slept s + inner_ms * Z.of_nat (length rest) + outer_ms.
Proof.
  intros Hpc Hb. revert s Hpc.
  induction rest as [ | id rest IH]; intros s Hpc.
  - cbn [length Nat.add repeat Server.steps]. unfold Server.step at 1.
    rewrite Hpc. cbn [bind]. unfold Server.step at 1. cbn [at_pc bind].
    eexists. split; [reflexivity | ]. cbn [at_pc slept].
    split; [reflexivity | split; [unfold sends; cbn [net]; lia | lia]].
  - destruct (step_in_for false s id rest Hpc (Hb id (owned s)))
      as (s1 & E1 & Hpc1 & Hsends1 & Hslept1).
    destruct (IH s1 Hpc1) as (s' & E & Hret & Hsends & Hslept).
    exists s'. cbn [length Nat.add repeat Server.steps].
    rewrite E1. cbn [bind]. split; [exact E | ].
    split; [exact Hret | split].
    + rewrite Hsends, Hsends1. cbn [length]. lia.
    + rewrite Hslept, Hslept1. cbn [length]. lia.
Qed.

(** A thread at the test of its [while] ends there. *)
Lemma drain_at_while (n : nat) (s : state W) :
  at_pc s = AtWhile ->
  exists s',
    steps (repeat false (S n)) s = Ret s'
    /\ at_pc s' = Returned /\ sends s' = sends s /\ slept s' = slept s.
Proof.
  intros Hpc. cbn [repeat Server.steps]. unfold Server.step at 1.
  rewrite Hpc. cbn [bind].
  set (s1 := {| at_pc := Returned; owned := owned s; net := net s; slept := slept s |}).
  assert (H : forall k, steps (repeat false k) s1 = Ret s1).
  { induction k as [ | k IHk]; [reflexivity | ].
    cbn [repeat Server.steps]. unfold Server.step at 1. cbn [at_pc bind]. exact IHk. }
  exists s1. rewrite H. repeat split.
Qed.

End Loop.

End LoopFacts.

(** ** The Position stream *)

Import Machine MachineFacts Packet UDP Server GraphFacts ServerFacts LoopFacts.

(** The layout of the ten bytes [positionServer] sends: [node_id], then
    [x], then the whole of [y]. *)
Definition sent_layout (node_id : Z) (x y : float) (cs : list cell) : Prop :=
  length cs = 10%nat
  /\ firstn 2 cs = map Octet (le16 node_id)
  /\ firstn 4 (skipn 2 cs) = map Octet (F32.bytes x)
  /\ skipn 6 cs = map Octet (F32.bytes y).

(** The layout of the claim: [node_id], two bytes of padding, [x], and
    the first two bytes of [y]. *)
Definition claimed_layout (node_id : Z) (x y : float) (cs : list cell) : Prop :=
  length cs = 10%nat
  /\ firstn 2 cs = map Octet (le16 node_id)
  /\ firstn 4 (skipn 4 cs) = map Octet (F32.bytes x)
  /\ skipn 8 cs = map Octet (firstn 2 (F32.bytes y)).

Lemma sent_layout_image (node_id : Z) (x y : float) :
  sent_layout node_id x y (map Octet (le16 node_id ++ F32.bytes x ++ F32.bytes y)).
Proof. repeat split. Qed.

Section PositionStream.
Context {G : Type} {R : UniformRandom G}.

Lemma position_builds (fuel : nat) (id : Z) (nm : NodeManager.t G) :
  builds position_build fuel id nm.
Proof.
  unfold builds, position_build. rewrite position_packet_image. cbn [bind].
  do 5 eexists. split; [reflexivity | apply position_view].
Qed.

Lemma position_sent_by (fuel : nat) (srv : UDPServer)
    (s : state (NodeManager.t G)) (d : datagram) :
  sent_by position_build fuel srv s d ->
  exists id rest,
    at_pc s = InFor (id :: rest)
    /\ dst_port d = port srv
    /\ payload d
       = map Octet (le16 (u16 id)
                    ++ F32.bytes (fst (getPosition (owned s) id))
                    ++ F32.bytes (snd (getPosition (owned s) id))).
Proof.
  intros (id & rest & w' & mem & off & size & Hpc & Hb & Hv & Hp).
  unfold position_build in Hb. rewrite position_packet_image in Hb.
  cbn [bind] in Hb.
  assert (Hmem : mem = map Octet (le16 (u16 id) ++ le16 (u16 id)
                    ++ F32.bytes (fst (getPosition (owned s) id))
                    ++ F32.bytes (snd (getPosition (owned s) id))))
    by congruence.
  assert (Hoff : off = 2) by congruence.
  assert (Hsize : size = 10) by congruence.
  subst mem off size.
  rewrite position_view in Hv.
  exists id, rest. split; [exact Hpc | split; [exact Hp | congruence]].
Qed.

End PositionStream.

Section LoopTotal.
Context {W : Type}.
Variable head : W -> W * list Z.
Variable build : nat -> Z -> W -> run (W * (list cell * Z * Z)).
Variable inner_ms outer_ms : Z.
Variable fuel : nat.
Variable srv : UDPServer.
Hypothesis build_total : forall id w, builds build fuel id w.

Lemma step_total (running : bool) (s : state W) :
  exists s', step head build inner_ms outer_ms fuel srv running s = Ret s'.
Proof.
  destruct (at_pc s) as [ | [ | id rest] | ] eqn:Epc.
  - unfold step. rewrite Epc.
    destruct running; [destruct (head (owned s)) | ]; eexists; reflexivity.
  - unfold step. rewrite Epc. eexists; reflexivity.
  - destruct (step_in_for head build inner_ms outer_ms fuel srv running s id rest
                Epc (build_total id (owned s))) as (s' & E & _).
    exists s'. exact E.
  - unfold step. rewrite Epc. eexists; reflexivity.
Qed.

Lemma steps_total (flags : list bool) (s : state W) :
  exists s', steps head build inner_ms outer_ms fuel srv flags s = Ret s'.
Proof.
  revert s. induction flags as [ | f flags IH]; intros s; cbn [steps].
  - eexists; reflexivity.
  - destruct (step_total f s) as (s1 & ->). cbn [bind]. apply IH.
Qed.

End LoopTotal.

Definition srv_position : UDPServer := {| sock := 3; port := 12345 |}.
Definition srv_graph : UDPServer := {| sock := 4; port := 12346 |}.

(** C1, as the code has it.  Every Position datagram is exactly 10 bytes,
    all of them written: the little-endian [node_id] in bytes 0-1, [x] in
    bytes 2-5 and the whole of [y] in bytes 6-9.  (The two bytes of padding
    of the record are overwritten with [node_id] and are the first two
    bytes sent; bytes 0-1 of the record are not sent.)  The step of the
    [for] loop for node [id] sends that node's position, and a run of the
    thread always returns, having sent datagrams of this layout only. *)
Theorem position_datagram_layout {G : Type} {R : UniformRandom G} :
  (forall (fuel : nat) (srv : UDPServer) (running : bool)
          (s : state (NodeManager.t G)) (id : Z) (rest : list Z),
      at_pc s = InFor (id :: rest) ->
      exists s' cs,
        positionServer_step fuel srv running s = Ret s'
        /\ attempted (net s')
           = attempted (net s) ++ [{| dst_port := port srv; payload := cs |}]
        /\ forallb is_written cs = true
        /\ sent_layout (u16 id) (fst (getPosition (owned s) id))
             (snd (getPosition (owned s) id)) cs)
  /\ (forall (fuel : nat) (srv : UDPServer) (flags : list bool)
             (s : state (NodeManager.t G)),
        exists s' ds,
          positionServer_steps fuel srv flags s = Ret s'
          /\ attempted (net s') = attempted (net s) ++ ds
          /\ Forall (fun d => forallb is_written (payload d) = true
                              /\ exists id x y, sent_layout id x y (payload d)) ds).
Proof.
  split.
  - intros fuel srv running s id rest Hpc.
    destruct (step_total position_head position_build 10 100 fuel srv
                (position_builds fuel) running s) as (s' & E).
    destruct (step_attempted _ _ _ _ _ _ _ _ _ E) as [Hsame | (d & Hd & Happ)].
    + exfalso.
      destruct (step_in_for position_head position_build 10 100 fuel srv running
                  s id rest Hpc (position_builds fuel id (owned s)))
        as (s1 & E1 & _ & Hs & _).
      unfold positionServer_step in E. rewrite E in E1. injection E1 as <-.
      unfold sends, attempted in *.
      apply (f_equal (@length _)) in Hsame. rewrite !length_map in Hsame. lia.
    + destruct (position_sent_by _ _ _ _ Hd) as (id' & rest' & Hpc' & Hp & Hpay).
      rewrite Hpc in Hpc'. injection Hpc' as <- <-.
      exists s', (payload d). split; [exact E | ].
      split; [rewrite Happ, <- Hp; destruct d; reflexivity | ].
      rewrite Hpay. split; [apply all_written_map | apply sent_layout_image].
  - intros fuel srv flags s.
    destruct (steps_total position_head position_build 10 100 fuel srv
                (position_builds fuel) flags s) as (s' & E).
    destruct (steps_attempted position_head position_build 10 100 fuel srv
                (fun d => forallb is_written (payload d) = true
                          /\ exists id x y, sent_layout id x y (payload d))
                ltac:(intros s0 d Hd;
                      destruct (position_sent_by _ _ _ _ Hd) as (id & ? & _ & _ & ->);
                      split; [apply all_written_map
                             | do 3 eexists; apply sent_layout_image])
                flags s s' E) as (ds & Hds & Hall).
    exists s', ds. auto.
Qed.

Lemma position_datagram_layout_witness :
  let s := {| at_pc := InFor [2; 3]; owned := NodeManager.construct (0 : Z);
              net := quiet []; slept := 0 |} in
  at_pc s = InFor [2; 3]
  /\ exists s' cs,
       positionServer_step 0 srv_position true s = Ret s'
       /\ attempted (net s')
          = attempted (net s) ++ [{| dst_port := 12345; payload := cs |}]
       /\ forallb is_written cs = true
       /\ sent_layout (u16 2) (fst (getPosition (owned s) 2))
            (snd (getPosition (owned s) 2)) cs.
Proof.
  cbv zeta. split; [reflexivity | ].
  apply (proj1 position_datagram_layout 0%nat srv_position true
           {| at_pc := InFor [2; 3]; owned := NodeManager.construct (0 : Z);
              net := quiet []; slept := 0 |} 2 [3]).
  reflexivity.
Defined.

(** C1, as stated, fails.  The second datagram of the first sweep under
    the counter engine is the one of node 2, at (1000, 1000), where
    [1000.0f] is [0x447A0000]: its bytes 4-7 are not [x], and its bytes
    8-9 are the high half of [y], not its first two bytes. *)
Lemma position_datagram_is_not_truncated :
  exists s',
    positionServer_steps 0 srv_position [true; true; true]
      (entry (NodeManager.construct (0 : Z)) (quiet [])) = Ret s'
    /\ getPosition (owned s') 2 = (of_Z 1000, of_Z 1000)
    /\ F32.bytes (of_Z 1000) = [0; 0; 122; 68]
    /\ map payload (attempted (net s'))
       = [map Octet [1; 0; 0; 0; 0; 0; 0; 0; 0; 0];
          map Octet [2; 0; 0; 0; 122; 68; 0; 0; 122; 68]]
    /\ ~ claimed_layout 2 (of_Z 1000) (of_Z 1000)
           (map Octet [2; 0; 0; 0; 122; 68; 0; 0; 122; 68]).
Proof.
  eexists. split; [vm_compute; reflexivity | ].
  split; [vm_compute; reflexivity | ].
  split; [vm_compute; reflexivity | ].
  split; [vm_compute; reflexivity | ].
  intros (_ & _ & Hx & _). vm_compute in Hx. discriminate Hx.
Qed.

Section PositionRun.
Context {G : Type} {R : UniformRandom G}.

(** The world a thread owns is a state of the world: [positionServer]
    changes it by [updatePositions] only. *)
Lemma position_step_reachable (fuel : nat) (srv : UDPServer) (running : bool)
    (s s' : state (NodeManager.t G)) :
  positionServer_step fuel srv running s = Ret s' ->
  reachable (owned s) -> reachable (owned s').
Proof.
  unfold positionServer_step, step. intros E Hr.
  destruct (at_pc s) as [ | [ | id rest] | ].
  - destruct running; injection E as <-; cbn [owned];
      [apply reach_tick | ]; exact Hr.
  - injection E as <-. exact Hr.
  - unfold position_build in E. rewrite position_packet_image in E.
    cbn [bind] in E. unfold sendPacket in E. rewrite position_view in E.
    cbn [defined bind] in E.
    destruct (sendto (net s) (port srv) _) as [r n'].
    injection E as <-. exact Hr.
  - injection E as <-. exact Hr.
Qed.

Lemma position_steps_reachable (fuel : nat) (srv : UDPServer)
    (flags : list bool) (s s' : state (NodeManager.t G)) :
  positionServer_steps fuel srv flags s = Ret s' ->
  reachable (owned s) -> reachable (owned s').
Proof.
  revert s. induction flags as [ | f flags IH]; intros s; cbn [positionServer_steps steps].
  - intros [= <-]. auto.
  - unfold positionServer_steps. cbn [steps].
    destruct (step position_head position_build 10 100 fuel srv f s)
      as [s1 | | ] eqn:E1; cbn [bind]; try discriminate.
    intros E Hr. apply (IH s1 E).
    exact (position_step_reachable fuel srv f s s1 E1 Hr).
Qed.

End PositionRun.

(** C3.  Of every Position datagram, that is of the datagram each step
    of the [for] of [positionServer] sends: it is ten bytes of the record
    [mem] handed to [sendPacket], from its offset 2.  Its first two bytes
    read as a [u16] give the value the two padding bytes of the record
    hold when it is sent (it is the node id); its bytes 2-5 are the four
    bytes of the node's [x] and read as a little-endian [f32] give [x];
    its bytes 6-9 are the four bytes of the node's [y], so they give the
    low half of [y] -- and its high half as well.  Reading a [float] back
    from its bytes supposes it is a binary32 value; in a run of the thread
    from its entry every coordinate is one, the engine handing out such
    values, and the datagram reads back as the coordinates the node has
    in the world at that moment. *)
Theorem position_datagram_reads_back {G : Type} {R : UniformRandom G} :
  (forall (fuel : nat) (srv : UDPServer) (running : bool)
          (s : state (NodeManager.t G)) (id : Z) (rest : list Z),
      at_pc s = InFor (id :: rest) ->
      let x := fst (getPosition (owned s) id) in
      let y := snd (getPosition (owned s) id) in
      exists s' mem bs,
        positionServer_step fuel srv running s = Ret s'
        /\ attempted (net s')
           = attempted (net s)
             ++ [{| dst_port := port srv; payload := map Octet bs |}]
        /\ length bs = 10%nat
        /\ position_build fuel id (owned s) = Ret (owned s, (mem, 2, 10))
        /\ view mem 2 10 = Some (map Octet bs)
        /\ load16 mem (off_node_id + 2) = Some (le_decode (firstn 2 bs))
        /\ le_decode (firstn 2 bs) = u16 id
        /\ firstn 4 (skipn 2 bs) = F32.bytes x
        /\ skipn 6 bs = F32.bytes y
        /\ le_decode (skipn 6 bs) mod 65536 = F32.bits y mod 65536
        /\ (F32Valid.valid x ->
            F32.of_bits (le_decode (firstn 4 (skipn 2 bs))) = x)
        /\ (F32Valid.valid y -> F32.of_bits (le_decode (skipn 6 bs)) = y))
  /\ (F32Valid.draws_floats (G := G) ->
      forall (fuel : nat) (srv : UDPServer) (flags : list bool) (g : G)
             (n : Net) (running : bool) (s : state (NodeManager.t G))
             (id : Z) (rest : list Z),
        positionServer_steps fuel srv flags
          (entry (NodeManager.construct g) n) = Ret s ->
        at_pc s = InFor (id :: rest) ->
        exists s' bs,
          positionServer_step fuel srv running s = Ret s'
          /\ attempted (net s')
             = attempted (net s)
               ++ [{| dst_port := port srv; payload := map Octet bs |}]
          /\ length bs = 10%nat
          /\ le_decode (firstn 2 bs) = u16 id
          /\ F32.of_bits (le_decode (firstn 4 (skipn 2 bs)))
             = fst (getPosition (owned s) id)
          /\ le_decode (skipn 6 bs) mod 65536
             = F32.bits (snd (getPosition (owned s) id)) mod 65536
          /\ F32.of_bits (le_decode (skipn 6 bs))
             = snd (getPosition (owned s) id)).
Proof.
  assert (HA : forall (fuel : nat) (srv : UDPServer) (running : bool)
          (s : state (NodeManager.t G)) (id : Z) (rest : list Z),
      at_pc s = InFor (id :: rest) ->
      exists s' mem bs,
        positionServer_step fuel srv running s = Ret s'
        /\ attempted (net s')
           = attempted (net s)
             ++ [{| dst_port := port srv; payload := map Octet bs |}]
        /\ length bs = 10%nat
        /\ position_build fuel id (owned s) = Ret (owned s, (mem, 2, 10))
        /\ view mem 2 10 = Some (map Octet bs)
        /\ load16 mem (off_node_id + 2) = Some (le_decode (firstn 2 bs))
        /\ le_decode (firstn 2 bs) = u16 id
        /\ firstn 4 (skipn 2 bs) = F32.bytes (fst (getPosition (owned s) id))
        /\ skipn 6 bs = F32.bytes (snd (getPosition (owned s) id))
        /\ le_decode (skipn 6 bs) mod 65536
           = F32.bits (snd (getPosition (owned s) id)) mod 65536
        /\ (F32Valid.valid (fst (getPosition (owned s) id)) ->
            F32.of_bits (le_decode (firstn 4 (skipn 2 bs)))
            = fst (getPosition (owned s) id))
        /\ (F32Valid.valid (snd (getPosition (owned s) id)) ->
            F32.of_bits (le_decode (skipn 6 bs))
            = snd (getPosition (owned s) id))).
  { intros fuel srv running s id rest Hpc.
    set (x := fst (getPosition (owned s) id)).
    set (y := snd (getPosition (owned s) id)).
    assert (Hb : position_build fuel id (owned s)
                 = Ret (owned s,
                        (map Octet (le16 (u16 id) ++ le16 (u16 id)
                                    ++ F32.bytes x ++ F32.bytes y), 2, 10))).
    { unfold position_build. rewrite position_packet_image. reflexivity. }
    assert (Hstep : exists s',
               positionServer_step fuel srv running s = Ret s'
               /\ attempted (net s')
                  = attempted (net s)
                    ++ [{| dst_port := port srv;
                           payload := map Octet (le16 (u16 id) ++ F32.bytes x
                                                 ++ F32.bytes y) |}]).
    { unfold positionServer_step, step. rewrite Hpc, Hb. cbn [bind].
      unfold sendPacket. rewrite position_view. cbn [defined bind].
      pose proof (sendto_attempted (net s) (port srv)
                    (map Octet (le16 (u16 id) ++ F32.bytes x ++ F32.bytes y)))
        as Hs.
      destruct (sendto (net s) (port srv)
                  (map Octet (le16 (u16 id) ++ F32.bytes x ++ F32.bytes y)))
        as [r n']; cbn [snd] in Hs.
      eexists. split; [reflexivity | exact Hs]. }
    destruct Hstep as (s' & Es & Hat).
    exists s', (map Octet (le16 (u16 id) ++ le16 (u16 id)
                           ++ F32.bytes x ++ F32.bytes y)),
           (le16 (u16 id) ++ F32.bytes x ++ F32.bytes y).
    assert (Hid : le_decode (le16 (u16 id)) = u16 id)
      by (rewrite F32Bits.le_decode_le16; apply F32Bits.u16_idem).
    change (firstn 2 (le16 (u16 id) ++ F32.bytes x ++ F32.bytes y))
      with (le16 (u16 id)).
    change (firstn 4 (skipn 2 (le16 (u16 id) ++ F32.bytes x ++ F32.bytes y)))
      with (F32.bytes x).
    change (skipn 6 (le16 (u16 id) ++ F32.bytes x ++ F32.bytes y))
      with (F32.bytes y).
    rewrite Hid.
    split; [exact Es | split; [exact Hat | split; [reflexivity | ]]].
    split; [exact Hb | split; [apply position_view | ]].
    split.
    { rewrite (load16_at' _ (map Octet (le16 (u16 id)))
                 (map Octet (F32.bytes x ++ F32.bytes y)) _ (u16 id));
        [now rewrite F32Bits.u16_idem | now rewrite !map_app | reflexivity]. }
    split; [reflexivity | split; [reflexivity | split; [reflexivity | ]]].
    split.
    - unfold F32.bytes. rewrite F32Bits.le_decode_le32.
      generalize (F32.bits y). intros w. Z.div_mod_to_equations. lia.
    - split; intros Hv; unfold F32.bytes; rewrite F32Bits.le_decode_le32;
        rewrite Z.mod_small by (apply F32Bits.bits_range, Hv);
        apply F32Bits.of_bits_bits, Hv. }
  split; [exact HA | ].
  intros Hfl fuel srv flags g n running s id rest Hrun Hpc.
  assert (Hr : reachable (owned s)).
  { apply (position_steps_reachable fuel srv flags _ s Hrun).
    cbn [owned entry]. apply reach_construct. }
  destruct (F32Valid.getPosition_valid Hfl (owned s) id Hr) as [Hx Hy].
  destruct (HA fuel srv running s id rest Hpc)
    as (s' & mem & bs & Es & Hat & Hlen & _ & _ & _ & Hid & _ & _ & Hlow & Hbx & Hby).
  exists s', bs.
  split; [exact Es | split; [exact Hat | split; [exact Hlen | ]]].
  split; [exact Hid | split; [exact (Hbx Hx) | split; [exact Hlow | exact (Hby Hy)]]].
Qed.

Lemma position_datagram_reads_back_witness :
  let s := {| at_pc := InFor (map Z.of_nat (seq 1 20));
              owned := updatePositions (NodeManager.construct (0 : Z));
              net := quiet []; slept := 0 |} in
  positionServer_steps 0 srv_position [true]
    (entry (NodeManager.construct (0 : Z)) (quiet [])) = Ret s
  /\ at_pc s = InFor (1 :: map Z.of_nat (seq 2 19))
  /\ exists s' bs,
       positionServer_step 0 srv_position true s = Ret s'
       /\ attempted (net s')
          = attempted (net s)
            ++ [{| dst_port := port srv_position; payload := map Octet bs |}]
       /\ length bs = 10%nat
       /\ le_decode (firstn 2 bs) = u16 1
       /\ F32.of_bits (le_decode (firstn 4 (skipn 2 bs)))
          = fst (getPosition (owned s) 1)
       /\ le_decode (skipn 6 bs) mod 65536
          = F32.bits (snd (getPosition (owned s) 1)) mod 65536
       /\ F32.of_bits (le_decode (skipn 6 bs))
          = snd (getPosition (owned s) 1).
Proof.
  intros s.
  assert (E : positionServer_steps 0 srv_position [true]
                (entry (NodeManager.construct (0 : Z)) (quiet [])) = Ret s)
    by (vm_compute; reflexivity).
  split; [exact E | split; [reflexivity | ]].
  exact (proj2 position_datagram_reads_back F32Valid.counter_draws_floats
           0%nat srv_position [true] (0 : Z) (quiet []) true s 1
           (map Z.of_nat (seq 2 19)) E eq_refl).
Defined.

(** ** The Graph stream *)

Section GraphStream.
Context {G : Type} {R : UniformRandom G}.

Lemma sample_graph_count (fuel : nat) (g : G) k es g' :
  sample_graph fuel g = Some (k, es, g') ->
  k = fst (GraphGenerator.edge_count_dist g).
Proof.
  unfold sample_graph.
  destruct (GraphGenerator.edge_count_dist g) as [n g1].
  destruct (sample_edges fuel (Z.to_nat n) g1) as [[es' g2] | ]; [ | discriminate].
  now intros [= <- _ _].
Qed.

(** What [graph_packet] returns when it returns: the object is the bytes
    of the header and of the [k] sampled edges followed by the untouched
    cells of the other [50 - k] edges; the pointer is at its start and the
    size covers the written bytes exactly. *)
Lemma graph_packet_returns (fuel : nat) (id : Z) (g g' : G) mem off size :
  graph_packet fuel id g = Ret (g', (mem, off, size)) ->
  exists k es,
    sample_graph fuel g = Some (k, es, g')
    /\ mem = map Octet (enc_graph (u16 id) k es)
             ++ repeat Indet (300 - 6 * Z.to_nat k)
    /\ off = 0 /\ size = 4 + 6 * k
    /\ view mem off size = Some (map Octet (enc_graph (u16 id) k es)).
Proof.
  rewrite graph_packet_image.
  destruct (sample_graph fuel g) as [[[k es] g1] | ] eqn:E; [ | discriminate].
  intros H.
  assert (g1 = g') by congruence.
  assert (Hmem : mem = map Octet (enc_graph (u16 id) k es)
                       ++ repeat Indet (300 - 6 * Z.to_nat k)) by congruence.
  assert (off = 0) by congruence.
  assert (size = 4 + 6 * k) by congruence.
  subst g1 off size. exists k, es.
  destruct (sample_graph_ok _ _ _ _ _ E) as (Hk & Hlen & _).
  repeat split; try assumption; try reflexivity.
  rewrite Hmem. now apply graph_view.
Qed.

Lemma graph_builds (fuel : nat) (id : Z) (g : G) :
  fair fuel -> builds graph_packet fuel id g.
Proof.
  intros Hf. unfold builds. rewrite graph_packet_image.
  pose proof (sample_graph_total fuel g Hf) as Ht.
  destruct (sample_graph fuel g) as [[[k es] g'] | ] eqn:E; [ | contradiction].
  destruct (sample_graph_ok _ _ _ _ _ E) as (Hk & Hlen & _).
  do 5 eexists. split; [reflexivity | now apply graph_view].
Qed.

Lemma graph_sent_by (fuel : nat) (srv : UDPServer) (s : state G) (d : datagram) :
  sent_by graph_packet fuel srv s d ->
  exists id rest k es g',
    at_pc s = InFor (id :: rest)
    /\ sample_graph fuel (owned s) = Some (k, es, g')
    /\ dst_port d = port srv
    /\ payload d = map Octet (enc_graph (u16 id) k es).
Proof.
  intros (id & rest & w' & mem & off & size & Hpc & Hb & Hv & Hp).
  destruct (graph_packet_returns _ _ _ _ _ _ _ Hb) as (k & es & E & _ & _ & _ & Hv').
  exists id, rest, k, es, w'. repeat split; try assumption. congruence.
Qed.

End GraphStream.

Lemma u16_range (z : Z) : 0 <= u16 z < 65536.
Proof. unfold u16. apply Z.mod_pos_bound. lia. Qed.

(** The shape of a Graph datagram: header and [k] edge records with
    nothing in between, [4 + 6 * k] bytes, which its receiver reads back
    as such. *)
Definition graph_datagram_shape (d : datagram) : Prop :=
  exists bs sender k es,
    payload d = map Octet bs
    /\ bs = enc_graph sender k es
    /\ parse_graph bs = Some (sender, k, es)
    /\ Z.of_nat (length es) = k
    /\ 6 <= k <= 35
    /\ Z.of_nat (length (payload d)) = 4 + 6 * k
    /\ Z.of_nat (length (payload d)) <= 214.

Lemma enc_graph_shape (p sender k : Z) (es : list edge) :
  0 <= sender < 65536 -> 6 <= k <= 35 -> Z.of_nat (length es) = k ->
  Forall edge_ok es ->
  graph_datagram_shape
    {| dst_port := p; payload := map Octet (enc_graph sender k es) |}.
Proof.
  intros Hs Hk Hlen Hes.
  exists (enc_graph sender k es), sender, k, es. cbn [payload].
  rewrite length_map, length_enc_graph.
  repeat split; try lia.
  apply parse_enc_graph; try lia.
  eapply Forall_impl; [ | exact Hes]. apply edge_ok_u16.
Qed.

(** C2.  Every Graph datagram is [sender_id], [edge_count] and
    [edge_count] consecutive 6-byte edge records: [4 + 6 * edge_count]
    bytes, where [edge_count], the draw of the uniform distribution on
    [[6, 35]], lies in that interval; so no Graph datagram exceeds 214
    bytes. *)
Theorem graph_datagram_length {G : Type} {R : UniformRandom G} :
  (forall (fuel : nat) (srv : UDPServer) (flags : list bool) (s s' : state G),
      graphServer_steps fuel srv flags s = Ret s' ->
      exists ds,
        attempted (net s') = attempted (net s) ++ ds
        /\ Forall graph_datagram_shape ds)
  /\ (forall (fuel : nat) (srv : UDPServer) (running : bool) (s s' : state G)
             (id : Z) (rest : list Z),
        at_pc s = InFor (id :: rest) ->
        graphServer_step fuel srv running s = Ret s' ->
        let k := fst (GraphGenerator.edge_count_dist (owned s)) in
        exists es,
          MIN_EDGES <= k <= MAX_EDGES
          /\ Z.of_nat (length es) = k
          /\ attempted (net s')
             = attempted (net s)
               ++ [{| dst_port := port srv;
                      payload := map Octet (enc_graph (u16 id) k es) |}]).
Proof.
  split.
  - intros fuel srv flags s s' E.
    refine (steps_attempted graph_head graph_packet 200 2000 fuel srv
              graph_datagram_shape _ flags s s' E).
    intros s0 d Hd.
    destruct (graph_sent_by _ _ _ _ Hd) as (id & rest & k & es & g' & _ & Es & Hp & Hpay).
    destruct (sample_graph_ok _ _ _ _ _ Es) as (Hk & Hlen & Hes).
    destruct d as [p pl]. cbn [payload] in Hpay. subst pl.
    apply enc_graph_shape; auto using u16_range.
  - intros fuel srv running s s' id rest Hpc E. cbv zeta.
    destruct (step_attempted _ _ _ _ _ _ _ _ _ E) as [Hsame | (d & Hd & Happ)].
    + exfalso. unfold graphServer_step, step in E. rewrite Hpc in E.
      destruct (graph_packet fuel id (owned s)) as [[w [[mem off] size]] | | ];
        cbn [bind] in E; try discriminate.
      unfold sendPacket in E.
      destruct (view mem off size) as [cs | ]; cbn [defined bind] in E;
        try discriminate.
      pose proof (sendto_attempted (net s) (port srv) cs) as Hs.
      destruct (sendto (net s) (port srv) cs) as [r n']; cbn [snd] in Hs.
      injection E as <-. cbn [net] in Hsame. rewrite Hs in Hsame.
      apply (f_equal (@length _)) in Hsame. rewrite length_app in Hsame.
      cbn [length] in Hsame. lia.
    + destruct (graph_sent_by _ _ _ _ Hd)
        as (id' & rest' & k & es & g' & Hpc' & Es & Hp & Hpay).
      rewrite Hpc in Hpc'. injection Hpc' as <- <-.
      destruct (sample_graph_ok _ _ _ _ _ Es) as (Hk & Hlen & _).
      rewrite <- (sample_graph_count _ _ _ _ _ Es).
      exists es. split; [exact Hk | split; [exact Hlen | ]].
      rewrite Happ, <- Hp, <- Hpay. destruct d; reflexivity.
Qed.

(** C4.  Every edge record of every Graph datagram, as its receiver reads
    it: both ends are node ids of [[1, 20]], they differ, and the strength
    lies in [[1, 1000]].  The target is what the rejection loop leaves: the
    first draw of [node_dist] that is not the source. *)
Theorem graph_edges_well_formed {G : Type} {R : UniformRandom G} :
  (forall (fuel : nat) (srv : UDPServer) (flags : list bool) (s s' : state G),
      graphServer_steps fuel srv flags s = Ret s' ->
      exists ds,
        attempted (net s') = attempted (net s) ++ ds
        /\ Forall (fun d =>
                     exists bs sender k es,
                       payload d = map Octet bs
                       /\ parse_graph bs = Some (sender, k, es)
                       /\ Forall (fun e : edge =>
                                    let '(source_id, target_id, strength) := e in
                                    source_id <> target_id
                                    /\ 1 <= source_id <= NUM_NODES
                                    /\ 1 <= target_id <= NUM_NODES
                                    /\ 1 <= strength <= 1000) es) ds)
  /\ (forall (fuel : nat) (source : Z) (g g' : G) (target : Z),
        next_other fuel source g = Some (target, g') ->
        target <> source /\ 1 <= target <= NUM_NODES).
Proof.
  split.
  - intros fuel srv flags s s' E.
    refine (steps_attempted graph_head graph_packet 200 2000 fuel srv
              _ _ flags s s' E).
    intros s0 d Hd.
    destruct (graph_sent_by _ _ _ _ Hd) as (id & rest & k & es & g' & _ & Es & Hp & Hpay).
    destruct (sample_graph_ok _ _ _ _ _ Es) as (Hk & Hlen & Hes).
    exists (enc_graph (u16 id) k es), (u16 id), k, es.
    split; [exact Hpay | split].
    + apply parse_enc_graph; try lia; [apply u16_range | ].
      eapply Forall_impl; [ | exact Hes]. apply edge_ok_u16.
    + eapply Forall_impl; [ | exact Hes].
      intros [[a b] c]. unfold edge_ok, NUM_NODES. lia.
  - intros fuel source g g' target H.
    destruct (next_other_ok _ _ _ _ _ H). unfold NUM_NODES. auto.
Qed.

(** The counter engine is fair to the rejection loop: two draws in a row
    differ. *)
Lemma counter_fair : fair (G := Z) 2.
Proof.
  intros source g. cbn [next_other].
  unfold GraphGenerator.node_dist, uniform_int, counter_engine, Counter.int_draw,
    NUM_NODES.
  change (20 - 1 + 1) with 20.
  rewrite !F32Bits.u16_small
    by (pose proof (Z.mod_pos_bound g 20); pose proof (Z.mod_pos_bound (g + 1) 20); lia).
  destruct (Z.eqb_spec (1 + g mod 20) source) as [E1 | E1]; [ | discriminate].
  destruct (Z.eqb_spec (1 + (g + 1) mod 20) source) as [E2 | E2]; [ | discriminate].
  exfalso. Z.div_mod_to_equations. lia.
Qed.

Lemma graph_datagram_length_witness :
  (exists s',
      graphServer_steps 2 srv_graph [true; true; true] (entry (0 : Z) (quiet []))
      = Ret s'
      /\ exists ds,
           attempted (net s') = attempted (net (entry (0 : Z) (quiet []))) ++ ds
           /\ Forall graph_datagram_shape ds)
  /\ (let s := {| at_pc := InFor [1; 2]; owned := (0 : Z);
                  net := quiet []; slept := 0 |} in
      exists s',
        graphServer_step 2 srv_graph true s = Ret s'
        /\ exists es,
             MIN_EDGES <= 6 <= MAX_EDGES
             /\ Z.of_nat (length es) = 6
             /\ attempted (net s')
                = [{| dst_port := 12346;
                      payload := map Octet (enc_graph (u16 1) 6 es) |}]).
Proof.
  split.
  - assert (E : exists s',
               graphServer_steps 2 srv_graph [true; true; true]
                 (entry (0 : Z) (quiet [])) = Ret s')
      by (vm_compute; eexists; reflexivity).
    destruct E as [s' E]. exists s'. split; [exact E | ].
    exact (proj1 graph_datagram_length 2%nat srv_graph [true; true; true] _ _ E).
  - cbv zeta.
    assert (E : exists s',
               graphServer_step 2 srv_graph true
                 {| at_pc := InFor [1; 2]; owned := (0 : Z);
                    net := quiet []; slept := 0 |} = Ret s')
      by (vm_compute; eexists; reflexivity).
    destruct E as [s' E]. exists s'. split; [exact E | ].
    exact (proj2 graph_datagram_length 2%nat srv_graph true
             {| at_pc := InFor [1; 2]; owned := (0 : Z);
                net := quiet []; slept := 0 |} s' 1 [2] eq_refl E).
Defined.

Lemma graph_edges_well_formed_witness :
  exists s',
    graphServer_steps 2 srv_graph [true; true; true] (entry (5 : Z) (quiet []))
    = Ret s'
    /\ exists ds,
         attempted (net s') = attempted (net (entry (5 : Z) (quiet []))) ++ ds
         /\ Forall (fun d =>
                      exists bs sender k es,
                        payload d = map Octet bs
                        /\ parse_graph bs = Some (sender, k, es)
                        /\ Forall (fun e : edge =>
                                     let '(source_id, target_id, strength) := e in
                                     source_id <> target_id
                                     /\ 1 <= source_id <= NUM_NODES
                                     /\ 1 <= target_id <= NUM_NODES
                                     /\ 1 <= strength <= 1000) es) ds.
Proof.
  assert (E : exists s',
             graphServer_steps 2 srv_graph [true; true; true]
               (entry (5 : Z) (quiet [])) = Ret s')
    by (vm_compute; eexists; reflexivity).
  destruct E as [s' E]. exists s'. split; [exact E | ].
  exact (proj1 graph_edges_well_formed 2%nat srv_graph [true; true; true] _ _ E).
Defined.

(** C7.  What [graphServer] gives to [sendPacket] for a packet of [k]
    edges is the start of the packet object and the size [4 + 6 * k]: the
    object is the written bytes of [sender_id], [edge_count] and the first
    [k] edges, followed by the cells of [edges[k]] to [edges[49]], which
    were never written and lie beyond the size; the datagram is the written
    part and nothing else.  So every cell of every Graph datagram was
    written before it was sent. *)
Theorem graph_datagram_is_written_prefix {G : Type} {R : UniformRandom G} :
  (forall (fuel : nat) (id : Z) (g g' : G) (mem : list cell) (off size : Z),
      graph_packet fuel id g = Ret (g', (mem, off, size)) ->
      exists k es,
        6 <= k <= 35
        /\ Z.of_nat (length es) = k
        /\ Z.of_nat (length mem) = sizeof_struct GraphPacket
        /\ load16 mem off_edge_count = Some k
        /\ off = 0 /\ size = 4 + 6 * k
        /\ mem = map Octet (enc_graph (u16 id) k es)
                 ++ repeat Indet (Z.to_nat (sizeof_struct GraphEdge * (50 - k)))
        /\ view mem off size = Some (map Octet (enc_graph (u16 id) k es))
        /\ skipn (Z.to_nat size) mem
           = repeat Indet (Z.to_nat (sizeof_struct GraphEdge * (50 - k))))
  /\ (forall (fuel : nat) (srv : UDPServer) (flags : list bool) (s s' : state G),
        graphServer_steps fuel srv flags s = Ret s' ->
        exists ds,
          attempted (net s') = attempted (net s) ++ ds
          /\ Forall (fun d => forallb is_written (payload d) = true) ds).
Proof.
  split.
  - intros fuel id g g' mem off size H.
    destruct (graph_packet_returns _ _ _ _ _ _ _ H)
      as (k & es & Es & Hmem & Hoff & Hsize & Hv).
    destruct (sample_graph_ok _ _ _ _ _ Es) as (Hk & Hlen & _).
    exists k, es.
    assert (Hrest : (300 - 6 * Z.to_nat k)%nat
                    = Z.to_nat (sizeof_struct GraphEdge * (50 - k)))
      by (rewrite sizeof_GraphEdge; lia).
    rewrite <- Hrest.
    split; [exact Hk | split; [exact Hlen | ]].
    split.
    { rewrite Hmem, length_app, length_map, length_enc_graph, repeat_length,
        sizeof_GraphPacket. lia. }
    split.
    { rewrite Hmem.
      rewrite (load16_at' _ (map Octet (le16 (u16 id)))
                 (map Octet (enc_edges es) ++ repeat Indet (300 - 6 * Z.to_nat k))
                 off_edge_count k);
        [ | unfold enc_graph; rewrite !map_app, <- !app_assoc; reflexivity
          | reflexivity ].
      rewrite F32Bits.u16_small by lia. reflexivity. }
    split; [exact Hoff | split; [exact Hsize | split; [exact Hmem | ]]].
    split; [exact Hv | ].
    rewrite Hmem, Hsize.
    rewrite skipn_app, skipn_all2
      by (rewrite length_map, length_enc_graph; lia).
    rewrite length_map, length_enc_graph.
    replace (Z.to_nat (4 + 6 * k) - (4 + 6 * length es))%nat with 0%nat by lia.
    reflexivity.
  - intros fuel srv flags s s' E.
    refine (steps_attempted graph_head graph_packet 200 2000 fuel srv
              _ _ flags s s' E).
    intros s0 d Hd.
    destruct (graph_sent_by _ _ _ _ Hd) as (id & rest & k & es & g' & _ & _ & _ & ->).
    apply all_written_map.
Qed.

Lemma graph_datagram_is_written_prefix_witness :
  (exists g' mem off size k es,
      graph_packet 2 1 (7 : Z) = Ret (g', (mem, off, size))
      /\ 6 <= k <= 35
      /\ Z.of_nat (length es) = k
      /\ Z.of_nat (length mem) = sizeof_struct GraphPacket
      /\ load16 mem off_edge_count = Some k
      /\ off = 0 /\ size = 4 + 6 * k
      /\ mem = map Octet (enc_graph (u16 1) k es)
               ++ repeat Indet (Z.to_nat (sizeof_struct GraphEdge * (50 - k)))
      /\ view mem off size = Some (map Octet (enc_graph (u16 1) k es))
      /\ skipn (Z.to_nat size) mem
         = repeat Indet (Z.to_nat (sizeof_struct GraphEdge * (50 - k))))
  /\ (exists s',
        graphServer_steps 2 srv_graph [true; true; true] (entry (7 : Z) (quiet []))
        = Ret s'
        /\ exists ds,
             attempted (net s') = attempted (net (entry (7 : Z) (quiet []))) ++ ds
             /\ Forall (fun d => forallb is_written (payload d) = true) ds).
Proof.
  split.
  - assert (E : exists r, graph_packet 2 1 (7 : Z) = Ret r)
      by (vm_compute; eexists; reflexivity).
    destruct E as [[g' [[mem off] size]] E].
    destruct (proj1 graph_datagram_is_written_prefix 2%nat 1 (7 : Z) g' mem off
                size E) as (k & es & H).
    exists g', mem, off, size, k, es. split; [exact E | exact H].
  - assert (E : exists s',
               graphServer_steps 2 srv_graph [true; true; true]
                 (entry (7 : Z) (quiet [])) = Ret s')
      by (vm_compute; eexists; reflexivity).
    destruct E as [s' E]. exists s'. split; [exact E | ].
    exact (proj2 graph_datagram_is_written_prefix 2%nat srv_graph
             [true; true; true] _ _ E).
Defined.

(** ** Stopping *)

Section Drain.
Context {W : Type}.
Variable head : W -> W * list Z.
Variable build : nat -> Z -> W -> run (W * (list cell * Z * Z)).
Variable inner_ms outer_ms : Z.
Variable fuel : nat.
Variable srv : UDPServer.

(** The ids the [for] loop has still to go through. *)
Definition left_in_sweep (s : state W) : list Z :=
  match at_pc s with
  | InFor rest => rest
  | _ => []
  end.

Definition in_sweep (s : state W) : bool :=
  match at_pc s with
  | InFor _ => true
  | _ => false
  end.

(** From the moment the flag is down: the thread returns after the sends
    and sleeps of the rest of its sweep, and after none if it was not in a
    sweep. *)
Lemma drain (s : state W) :
  (forall id w, builds build fuel id w) ->
  exists s',
    steps head build inner_ms outer_ms fuel srv
      (repeat false (length (left_in_sweep s) + 2)) s = Ret s'
    /\ at_pc s' = Returned
    /\ sends s' = (sends s + length (left_in_sweep s))%nat
    /\ slept s'
       = slept s
         + (if in_sweep s
            then inner_ms * Z.of_nat (length (left_in_sweep s)) + outer_ms
            else 0).
Proof.
  intros Hb. unfold left_in_sweep, in_sweep.
  destruct (at_pc s) as [ | rest | ] eqn:Epc.
  - destruct (drain_at_while head build inner_ms outer_ms fuel srv 1 s Epc)
      as (s' & E & Hr & Hs & Hsl).
    exists s'. cbn [length Nat.add]. rewrite Hs, Hsl.
    split; [exact E | split; [exact Hr | split; lia]].
  - destruct (drain_in_for head build inner_ms outer_ms fuel srv rest s Epc Hb)
      as (s' & E & Hr & Hs & Hsl).
    exists s'. rewrite Hsl.
    split; [exact E | split; [exact Hr | split; [exact Hs | lia]]].
  - exists s. cbn [length Nat.add repeat steps].
    assert (H : step head build inner_ms outer_ms fuel srv false s = Ret s)
      by (unfold step; rewrite Epc; reflexivity).
    rewrite H. cbn [bind]. rewrite H. cbn [bind].
    split; [reflexivity | split; [exact Epc | split; lia]].
Qed.

Lemma steps_invariant (I : state W -> Prop) :
  (forall f s s', I s -> step head build inner_ms outer_ms fuel srv f s = Ret s' -> I s') ->
  forall flags s s',
    I s -> steps head build inner_ms outer_ms fuel srv flags s = Ret s' -> I s'.
Proof.
  intros Hstep. induction flags as [ | f flags IH]; intros s s' Hi; cbn [steps].
  - now intros [= <-].
  - destruct (step head build inner_ms outer_ms fuel srv f s) as [s1 | | ] eqn:E1;
      cbn [bind]; try discriminate.
    apply IH. eapply Hstep; eassumption.
Qed.

End Drain.

Section SweepLength.
Context {G : Type} {R : UniformRandom G}.

Lemma node_ids_init_nodes (n : nat) (i : Z) (nm : NodeManager.t G) :
  length (node_ids (init_nodes n i nm)) = (length (node_ids nm) + n)%nat.
Proof.
  revert i nm. induction n as [ | n IH]; intros i nm; cbn [init_nodes]; [lia | ].
  destruct (pos_dist (gen nm)) as [x g1], (pos_dist g1) as [y g2].
  rewrite IH. cbn [node_ids]. rewrite length_app. cbn [length]. lia.
Qed.

Lemma node_ids_getDistance (s t : Z) (nm : NodeManager.t G) :
  node_ids (snd (getDistance s t nm)) = node_ids nm.
Proof.
  unfold getDistance.
  destruct (OrdMap.subscript origin (u16 s) (positions nm)) as [s1 m1].
  destruct (OrdMap.subscript origin (u16 t) m1) as [t1 m2].
  destruct (OrdMap.subscript origin (u16 s) m2) as [s2 m3].
  destruct (OrdMap.subscript origin (u16 t) m3) as [t2 m4].
  reflexivity.
Qed.

Lemma node_ids_fill_row (n : nat) (i j src : Z) (nm : NodeManager.t G) :
  node_ids (fill_row n i j src nm) = node_ids nm.
Proof.
  revert j nm. induction n as [ | n IH]; intros j nm; cbn [fill_row];
    [reflexivity | ].
  pose proof (node_ids_getDistance src (nth (Z.to_nat j) (node_ids nm) 0) nm) as H.
  destruct (getDistance src (nth (Z.to_nat j) (node_ids nm) 0) nm) as [d nm1].
  rewrite IH. exact H.
Qed.

Lemma node_ids_fill_rows (n : nat) (i : Z) (nm : NodeManager.t G) :
  node_ids (fill_rows n i nm) = node_ids nm.
Proof.
  revert i nm. induction n as [ | n IH]; intros i nm; cbn [fill_rows];
    [reflexivity | ].
  rewrite IH. apply node_ids_fill_row.
Qed.

Lemma node_ids_construct (g : G) :
  length (node_ids (NodeManager.construct g)) = 20%nat.
Proof.
  unfold NodeManager.construct.
  rewrite node_ids_fill_rows, node_ids_init_nodes. reflexivity.
Qed.

Lemma node_ids_updatePositions (nm : NodeManager.t G) :
  node_ids (updatePositions nm) = node_ids nm.
Proof.
  unfold updatePositions.
  destruct (update_entries (positions nm) (gen nm)); reflexivity.
Qed.

(** The world has twenty nodes, and a sweep never has more than twenty
    ids to go. *)
Definition position_sweep_bound (s : state (NodeManager.t G)) : Prop :=
  length (node_ids (owned s)) = 20%nat
  /\ (length (left_in_sweep s) <= 20)%nat.

Lemma position_step_bound fuel srv f (s s' : state (NodeManager.t G)) :
  position_sweep_bound s -> positionServer_step fuel srv f s = Ret s' ->
  position_sweep_bound s'.
Proof.
  intros (Hn & Hl). unfold positionServer_step, step, position_sweep_bound,
    left_in_sweep in *.
  destruct (at_pc s) as [ | [ | id rest] | ] eqn:Epc.
  - destruct f; [unfold position_head, getNodeIds | ]; intros [= <-];
      cbn [at_pc owned length]; rewrite ?node_ids_updatePositions; lia.
  - intros [= <-]. cbn [at_pc owned length]. lia.
  - unfold position_build. rewrite position_packet_image. cbn [bind].
    unfold sendPacket. rewrite position_view. cbn [defined bind].
    destruct (sendto (net s) (port srv) _) as [r n'].
    intros [= <-]. cbn [at_pc owned length] in *. lia.
  - intros [= <-]. rewrite Epc. cbn [length]. lia.
Qed.

Definition graph_sweep_bound (s : state G) : Prop :=
  (length (left_in_sweep s) <= 20)%nat.

Lemma graph_step_bound fuel srv f (s s' : state G) :
  graph_sweep_bound s -> graphServer_step fuel srv f s = Ret s' ->
  graph_sweep_bound s'.
Proof.
  unfold graphServer_step, step, graph_sweep_bound, left_in_sweep.
  intros Hl.
  destruct (at_pc s) as [ | [ | id rest] | ] eqn:Epc.
  - destruct f; intros [= <-]; cbn [at_pc length]; [ | lia].
    unfold graph_ids. rewrite length_map, length_seq. reflexivity.
  - intros [= <-]. cbn [at_pc length]. lia.
  - destruct (graph_packet fuel id (owned s)) as [[w [[mem off] size]] | | ];
      cbn [bind]; try discriminate.
    unfold sendPacket.
    destruct (view mem off size) as [cs | ]; cbn [defined bind]; try discriminate.
    destruct (sendto (net s) (port srv) cs) as [r n'].
    intros [= <-]. cbn [at_pc length] in *. lia.
  - intros [= <-]. rewrite Epc. cbn [length]. lia.
Qed.

End SweepLength.

(** C8, as the code has it.  A thread reads [running] only in the
    condition of its [while]: inside the [for] a step is the same whatever
    the flag.  So once the flag is down, a thread that is in a sweep first
    finishes it -- one send and one inner sleep for each id left, at most
    twenty, then the outer sleep -- and returns at the next test; a thread
    at the test returns at once.  After the stop the position thread sends
    up to 20 datagrams and sleeps up to 20 * 10 + 100 ms, the graph thread
    up to 20 datagrams and 20 * 200 + 2000 ms (its rejection loop being
    given enough fuel). *)
Theorem producers_return_after_their_sweep {G : Type} {R : UniformRandom G} :
  (forall (fuel : nat) (srv : UDPServer) (flags : list bool) (g : G) (n : Net)
          (s : state (NodeManager.t G)),
      positionServer_steps fuel srv flags (entry (NodeManager.construct g) n)
      = Ret s ->
      exists s',
        positionServer_steps fuel srv
          (repeat false (length (left_in_sweep s) + 2)) s = Ret s'
        /\ at_pc s' = Returned
        /\ (length (left_in_sweep s) <= 20)%nat
        /\ sends s' = (sends s + length (left_in_sweep s))%nat
        /\ slept s'
           = slept s
             + (if in_sweep s
                then 10 * Z.of_nat (length (left_in_sweep s)) + 100 else 0))
  /\ (forall (fuel : nat) (srv : UDPServer) (flags : list bool) (g : G) (n : Net)
             (s : state G),
        fair fuel ->
        graphServer_steps fuel srv flags (entry g n) = Ret s ->
        exists s',
          graphServer_steps fuel srv
            (repeat false (length (left_in_sweep s) + 2)) s = Ret s'
          /\ at_pc s' = Returned
          /\ (length (left_in_sweep s) <= 20)%nat
          /\ sends s' = (sends s + length (left_in_sweep s))%nat
          /\ slept s'
             = slept s
               + (if in_sweep s
                  then 200 * Z.of_nat (length (left_in_sweep s)) + 2000 else 0))
  /\ (forall (fuel : nat) (srv : UDPServer) (s : state (NodeManager.t G)),
        in_sweep s = true ->
        positionServer_step fuel srv false s = positionServer_step fuel srv true s)
  /\ (forall (fuel : nat) (srv : UDPServer) (s : state G),
        in_sweep s = true ->
        graphServer_step fuel srv false s = graphServer_step fuel srv true s).
Proof.
  split; [ | split; [ | split]].
  - intros fuel srv flags g n s E.
    assert (Hb : position_sweep_bound s).
    { refine (steps_invariant position_head position_build 10 100 fuel srv
                position_sweep_bound _ flags _ s _ E).
      - intros f s0 s1. apply position_step_bound.
      - split; [apply node_ids_construct | cbn; lia]. }
    destruct (drain position_head position_build 10 100 fuel srv s
                (position_builds fuel)) as (s' & E' & Hr & Hs & Hsl).
    exists s'. destruct Hb as (_ & Hb). auto.
  - intros fuel srv flags g n s Hf E.
    assert (Hb : graph_sweep_bound s).
    { refine (steps_invariant graph_head graph_packet 200 2000 fuel srv
                graph_sweep_bound _ flags _ s _ E).
      - intros f s0 s1. apply graph_step_bound.
      - unfold graph_sweep_bound. cbn; lia. }
    destruct (drain graph_head graph_packet 200 2000 fuel srv s
                (fun id w => graph_builds fuel id w Hf)) as (s' & E' & Hr & Hs & Hsl).
    exists s'. auto.
  - intros fuel srv s. unfold in_sweep, positionServer_step, step.
    destruct (at_pc s); [discriminate | reflexivity | discriminate].
  - intros fuel srv s. unfold in_sweep, graphServer_step, step.
    destruct (at_pc s); [discriminate | reflexivity | discriminate].
Qed.

Lemma producers_return_after_their_sweep_witness :
  (exists s s',
      positionServer_steps 0 srv_position [true; true; true; true]
        (entry (NodeManager.construct (0 : Z)) (quiet [])) = Ret s
      /\ positionServer_steps 0 srv_position
           (repeat false (length (left_in_sweep s) + 2)) s = Ret s'
      /\ at_pc s' = Returned
      /\ (length (left_in_sweep s) <= 20)%nat
      /\ sends s' = (sends s + length (left_in_sweep s))%nat
      /\ slept s'
         = slept s
           + (if in_sweep s
              then 10 * Z.of_nat (length (left_in_sweep s)) + 100 else 0))
  /\ (exists s s',
        graphServer_steps 2 srv_graph [true; true; true] (entry (0 : Z) (quiet []))
        = Ret s
        /\ graphServer_steps 2 srv_graph
             (repeat false (length (left_in_sweep s) + 2)) s = Ret s'
        /\ at_pc s' = Returned
        /\ (length (left_in_sweep s) <= 20)%nat
        /\ sends s' = (sends s + length (left_in_sweep s))%nat
        /\ slept s'
           = slept s
             + (if in_sweep s
                then 200 * Z.of_nat (length (left_in_sweep s)) + 2000 else 0)).
Proof.
  split.
  - assert (E : exists s,
               positionServer_steps 0 srv_position [true; true; true; true]
                 (entry (NodeManager.construct (0 : Z)) (quiet [])) = Ret s)
      by (vm_compute; eexists; reflexivity).
    destruct E as [s E]. exists s.
    destruct (proj1 producers_return_after_their_sweep 0%nat srv_position
                [true; true; true; true] (0 : Z) (quiet []) s E) as (s' & H).
    exists s'. split; [exact E | exact H].
  - assert (E : exists s,
               graphServer_steps 2 srv_graph [true; true; true]
                 (entry (0 : Z) (quiet [])) = Ret s)
      by (vm_compute; eexists; reflexivity).
    destruct E as [s E]. exists s.
    destruct (proj1 (proj2 producers_return_after_their_sweep) 2%nat srv_graph
                [true; true; true] (0 : Z) (quiet []) s counter_fair E) as (s' & H).
    exists s'. split; [exact E | exact H].
Defined.

(** The claim in its own words: after the stop a producer sends at most
    one more datagram and works at most 200 ms more. *)
Definition stops_within_one_emission {W : Type} (at_stop at_exit : state W) : Prop :=
  (sends at_exit <= sends at_stop + 1)%nat
  /\ slept at_exit <= slept at_stop + 200.

(** C8, as stated, fails.  When [running] goes down just after a thread
    has tested it, the thread goes through its whole sweep before it
    returns: 20 datagrams and 300 ms for the position thread, 20 datagrams
    and 6 s for the graph thread. *)
Lemma producers_send_a_whole_sweep_after_stop :
  (exists s s',
      positionServer_steps 0 srv_position [true]
        (entry (NodeManager.construct (0 : Z)) (quiet [])) = Ret s
      /\ positionServer_steps 0 srv_position (repeat false 22) s = Ret s'
      /\ at_pc s' = Returned
      /\ sends s = 0%nat /\ sends s' = 20%nat
      /\ slept s = 0 /\ slept s' = 300
      /\ ~ stops_within_one_emission s s')
  /\ (exists s s',
        graphServer_steps 2 srv_graph [true] (entry (0 : Z) (quiet [])) = Ret s
        /\ graphServer_steps 2 srv_graph (repeat false 22) s = Ret s'
        /\ at_pc s' = Returned
        /\ sends s = 0%nat /\ sends s' = 20%nat
        /\ slept s = 0 /\ slept s' = 6000
        /\ ~ stops_within_one_emission s s').
Proof.
  split.
  - eexists. eexists.
    split; [vm_compute; reflexivity | ].
    split; [vm_compute; reflexivity | ].
    split; [reflexivity | ].
    split; [reflexivity | split; [reflexivity | ]].
    split; [reflexivity | split; [reflexivity | ]].
    intros (H & _). vm_compute in H. lia.
  - eexists. eexists.
    split; [vm_compute; reflexivity | ].
    split; [vm_compute; reflexivity | ].
    split; [reflexivity | ].
    split; [reflexivity | split; [reflexivity | ]].
    split; [reflexivity | split; [reflexivity | ]].
    intros (H & _). vm_compute in H. lia.
Qed.

(** ** A send that fails *)

(** C9, as the code has it.  [sendPacket] makes one [sendto] call with the
    buffer, as one datagram, and returns nothing: what [sendto] answers is
    dropped, so a rejected send is not reported to the caller.  Whatever
    the system answers, the thread goes on in the same way: after a send,
    accepted or not, it is at the next id of its sweep, and two runs that
    differ in the answers only attempt the same datagrams, sleep the same
    time and end in the same place. *)
Theorem failed_send_is_dropped {G : Type} {R : UniformRandom G} :
  (forall (srv : UDPServer) (mem : list cell) (off size : Z) (n : Net)
          (cs : list cell),
      view mem off size = Some cs ->
      sendPacket srv mem off size n = Ret (tt, snd (sendto n (port srv) cs))
      /\ exists ok : bool,
           calls (snd (sendto n (port srv) cs))
           = calls n ++ [({| dst_port := port srv; payload := cs |}, ok)]
           /\ fst (sendto n (port srv) cs)
              = (if ok then Z.of_nat (length cs) else -1))
  /\ (forall (fuel : nat) (srv : UDPServer) (flags : list bool)
             (a b : state (NodeManager.t G)),
        same_course a b ->
        same_outcome (positionServer_steps fuel srv flags a)
                     (positionServer_steps fuel srv flags b))
  /\ (forall (fuel : nat) (srv : UDPServer) (flags : list bool) (a b : state G),
        same_course a b ->
        same_outcome (graphServer_steps fuel srv flags a)
                     (graphServer_steps fuel srv flags b))
  /\ (forall (fuel : nat) (srv : UDPServer) (running : bool)
             (s : state (NodeManager.t G)) (id : Z) (rest : list Z),
        at_pc s = InFor (id :: rest) ->
        exists s',
          positionServer_step fuel srv running s = Ret s'
          /\ at_pc s' = InFor rest
          /\ sends s' = S (sends s)).
Proof.
  split; [ | split; [ | split]].
  - intros srv mem off size n cs Hv. split.
    + unfold sendPacket. rewrite Hv. cbn [defined bind].
      destruct (sendto n (port srv) cs); reflexivity.
    + apply sendto_calls.
  - intros fuel srv flags a b. apply steps_same_course.
  - intros fuel srv flags a b. apply steps_same_course.
  - intros fuel srv running s id rest Hpc.
    destruct (step_in_for position_head position_build 10 100 fuel srv running
                s id rest Hpc (position_builds fuel id (owned s)))
      as (s' & E & Hpc' & Hs & _).
    exists s'. auto.
Qed.

Lemma failed_send_is_dropped_witness :
  same_outcome
    (positionServer_steps 0 srv_position [true; true; true; true]
       (entry (NodeManager.construct (0 : Z)) (quiet [false; true; false])))
    (positionServer_steps 0 srv_position [true; true; true; true]
       (entry (NodeManager.construct (0 : Z)) (quiet [])))
  /\ same_outcome
       (graphServer_steps 2 srv_graph [true; true; true]
          (entry (0 : Z) (quiet [false; false])))
       (graphServer_steps 2 srv_graph [true; true; true]
          (entry (0 : Z) (quiet [])))
  /\ exists s',
       positionServer_step 0 srv_position true
         {| at_pc := InFor [1; 2]; owned := NodeManager.construct (0 : Z);
            net := quiet [false]; slept := 0 |} = Ret s'
       /\ at_pc s' = InFor [2]
       /\ sends s' = 1%nat.
Proof.
  split; [ | split].
  - apply (proj1 (proj2 failed_send_is_dropped)).
    unfold same_course, entry. cbn [at_pc owned slept net].
    split; [reflexivity | split; [reflexivity | split; reflexivity]].
  - apply (proj1 (proj2 (proj2 failed_send_is_dropped))).
    unfold same_course, entry. cbn [at_pc owned slept net].
    split; [reflexivity | split; [reflexivity | split; reflexivity]].
  - apply (proj2 (proj2 (proj2 failed_send_is_dropped)) 0%nat srv_position true
             {| at_pc := InFor [1; 2]; owned := NodeManager.construct (0 : Z);
                net := quiet [false]; slept := 0 |} 1 [2]).
    reflexivity.
Defined.

(** The claim in its own words: [emit] returns success or failure, and
    fails exactly when the system rejects the send.  That takes a way to
    tell, from what [sendPacket] returns, whether [sendto] failed. *)
Definition reports_rejection (srv : UDPServer) (mem : list cell) (off size : Z)
    (failed : unit -> bool) : Prop :=
  forall (n : Net) (cs : list cell) (r : unit) (n' : Net),
    view mem off size = Some cs ->
    sendPacket srv mem off size n = Ret (r, n') ->
    (failed r = true <-> fst (sendto n (port srv) cs) = -1).

(** C9, as stated, fails.  The same ten bytes sent to a system that takes
    them and to one that rejects them: [sendto] answers 10 and -1, one
    datagram is delivered and none, and [sendPacket] returns the same
    thing. *)
Lemma sendPacket_reports_nothing :
  let buf := map Octet [1; 0; 0; 0; 0; 0; 0; 0; 0; 0] in
  fst (sendto (quiet [true]) 12345 buf) = 10
  /\ fst (sendto (quiet [false]) 12345 buf) = -1
  /\ (exists n1 n2,
        sendPacket srv_position buf 0 10 (quiet [true]) = Ret (tt, n1)
        /\ sendPacket srv_position buf 0 10 (quiet [false]) = Ret (tt, n2)
        /\ length (delivered n1) = 1%nat
        /\ length (delivered n2) = 0%nat)
  /\ ~ exists failed : unit -> bool, reports_rejection srv_position buf 0 10 failed.
Proof.
  cbv zeta. split; [reflexivity | split; [reflexivity | split]].
  - eexists. eexists. repeat split; reflexivity.
  - intros (failed & H).
    pose proof (H (quiet [true]) _ tt _ eq_refl eq_refl) as H1.
    pose proof (H (quiet [false]) _ tt _ eq_refl eq_refl) as H2.
    cbn in H1, H2.
    destruct (failed tt).
    + destruct H1 as [H1 _]. specialize (H1 eq_refl). discriminate H1.
    + destruct H2 as [_ H2]. specialize (H2 eq_refl). discriminate H2.
Qed.

(* ================================================================= *)
(** * Further properties of the code *)

(** ** [getDistance] as a function of the two positions *)

Module DistanceFacts.

Import OrdMap OrdMapFacts.

(** [sqrtf(dx*dx + dy*dy)] of two positions. *)
Definition euclid (p q : position) : float :=
  let dx := sub (fst p) (fst q) in
  let dy := sub (snd p) (snd q) in
  sqrtf (add (mul dx dx) (mul dy dy)).

Lemma round_aux_opp (s : bool) (m e : Z) (l : location) :
  binary_round_aux F32.prec F32.emax (negb s) m e l
  = SFopp (binary_round_aux F32.prec F32.emax s m e l).
Proof.
  unfold binary_round_aux.
  destruct (shr_fexp F32.prec F32.emax m e l) as [mrs' e'].
  destruct (shr_fexp F32.prec F32.emax _ e' loc_Exact) as [mrs'' e''].
  destruct (shr_m mrs''); [reflexivity | | reflexivity].
  destruct (e'' <=? F32.emax - F32.prec); reflexivity.
Qed.

Lemma round_opp (s : bool) (m : positive) (e : Z) :
  binary_round F32.prec F32.emax (negb s) m e
  = SFopp (binary_round F32.prec F32.emax s m e).
Proof.
  unfold binary_round.
  destruct (shl_align m e _) as [mz ez]. apply round_aux_opp.
Qed.

Lemma normalize_opp (z e : Z) :
  binary_normalize F32.prec F32.emax (- z) e false
  = binary_normalize F32.prec F32.emax z e false
  \/ binary_normalize F32.prec F32.emax (- z) e false
     = SFopp (binary_normalize F32.prec F32.emax z e false).
Proof.
  destruct z as [ | p | p]; cbn [Z.opp binary_normalize].
  - left; reflexivity.
  - right. apply (round_opp false).
  - right. rewrite (round_opp false). destruct (binary_round _ _ false p e) as [[ | ] | [ | ] | | [ | ] m0 e0]; reflexivity.
Qed.

(** Swapping the operands of a subtraction changes the sign of the
    result at most. *)
Lemma sub_swap (x y : float) :
  sub y x = sub x y \/ sub y x = SFopp (sub x y).
Proof.
  unfold sub.
  destruct x as [sx | sx | | sx mx ex], y as [sy | sy | | sy my ey];
    cbn [SFsub SFopp];
    try (destruct sx, sy; auto; fail); try (destruct sx; auto; fail);
    try (destruct sy; auto; fail); auto.
  rewrite (Z.min_comm ey ex).
  set (a := cond_Zopp sx (Z.pos (fst (shl_align mx ex (Z.min ex ey))))).
  set (b := cond_Zopp sy (Z.pos (fst (shl_align my ey (Z.min ex ey))))).
  replace (b - a) with (- (a - b)) by lia.
  apply normalize_opp.
Qed.

Lemma mul_opp_opp (d : float) : mul (SFopp d) (SFopp d) = mul d d.
Proof.
  unfold mul. destruct d as [s | s | | s m e]; cbn [SFopp SFmul];
    try reflexivity; destruct s; reflexivity.
Qed.

Lemma square_sub_swap (x y : float) :
  mul (sub y x) (sub y x) = mul (sub x y) (sub x y).
Proof.
  destruct (sub_swap x y) as [-> | ->]; [reflexivity | apply mul_opp_opp].
Qed.

Lemma euclid_swap (p q : position) : euclid q p = euclid p q.
Proof.
  unfold euclid. cbv zeta.
  rewrite (square_sub_swap (fst p) (fst q)), (square_sub_swap (snd p) (snd q)).
  reflexivity.
Qed.

(** A coordinate of the square is a zero or a finite number. *)
Lemma within_finite (x : float) :
  within (of_Z 0) (of_Z 1000) x ->
  (exists s, x = S754_zero s) \/ (exists s m e, x = S754_finite s m e).
Proof.
  intros [H0 H1]. destruct x as [s | s | | s m e].
  - left; eauto.
  - destruct s; [discriminate H0 | discriminate H1].
  - discriminate H0.
  - right; eauto.
Qed.

Lemma sub_self (x : float) :
  within (of_Z 0) (of_Z 1000) x -> sub x x = S754_zero false.
Proof.
  intros H. destruct (within_finite x H) as [[s ->] | (s & m & e & ->)].
  - destruct s; reflexivity.
  - unfold sub. cbn [SFsub]. rewrite Z.sub_diag. reflexivity.
Qed.

Lemma euclid_self (p : position) :
  NodeManagerFacts.in_square p -> euclid p p = of_Z 0.
Proof.
  intros [Hx Hy]. unfold euclid. cbv zeta.
  rewrite (sub_self _ Hx), (sub_self _ Hy). reflexivity.
Qed.

Section WithEngine.
Context {G : Type} {R : UniformRandom G}.

(** The value [getDistance] returns, an unknown id counting as the
    origin. *)
Lemma getDistance_value (s t : Z) (nm : NodeManager.t G) :
  fst (getDistance s t nm) = euclid (getPosition nm s) (getPosition nm t).
Proof.
  unfold getDistance, getPosition, euclid.
  generalize (Machine.u16 s) (Machine.u16 t). clear s t. intros s t.
  pose proof (subscript_fst origin s (positions nm)) as F1.
  pose proof (find_subscript origin s (positions nm)) as L1.
  destruct (subscript origin s (positions nm)) as [s1 m1]; cbn [fst snd] in F1, L1.
  pose proof (subscript_fst origin t m1) as F2.
  pose proof (find_subscript origin t m1) as L2.
  destruct (subscript origin t m1) as [t1 m2]; cbn [fst snd] in F2, L2.
  assert (Hs1 : find s m1 = Some s1) by (rewrite L1, Z.eqb_refl, F1; reflexivity).
  assert (Hs : find s m2 = Some s1).
  { rewrite L2. destruct (Z.eqb_spec s t) as [<- | Hne]; [ | exact Hs1].
    rewrite Hs1. reflexivity. }
  assert (Ht : find t m2 = Some t1) by (rewrite L2, Z.eqb_refl, F2; reflexivity).
  rewrite (subscript_present origin s m2 s1 Hs).
  rewrite (subscript_present origin t m2 t1 Ht).
  cbn [fst].
  assert (Ht1 : t1 = value_or origin (find t (positions nm))).
  { rewrite F2, L1. destruct (Z.eqb_spec t s) as [-> | Hne]; reflexivity. }
  rewrite Ht1, F1. reflexivity.
Qed.

(** With both ids in the map, [getDistance] changes nothing. *)
Lemma getDistance_known (s t : Z) (nm : NodeManager.t G) (ps pt : position) :
  find (Machine.u16 s) (positions nm) = Some ps ->
  find (Machine.u16 t) (positions nm) = Some pt ->
  getDistance s t nm = (euclid ps pt, nm).
Proof.
  intros Hs Ht. unfold getDistance.
  rewrite (subscript_present origin _ _ ps Hs).
  rewrite (subscript_present origin _ _ pt Ht).
  rewrite (subscript_present origin _ _ ps Hs).
  rewrite (subscript_present origin _ _ pt Ht).
  destruct nm; reflexivity.
Qed.

End WithEngine.

End DistanceFacts.

(** ** The world the constructor builds *)

Module WorldFacts.

Import OrdMap OrdMapFacts OrdMapOrder DistanceFacts.

(** The ids [1 .. NUM_NODES]. *)
Definition ids20 : list Z := map Z.of_nat (seq 1 (Z.to_nat NUM_NODES)).

(** [n] consecutive integers from [i] on. *)
Fixpoint zrange (i : Z) (n : nat) : list Z :=
  match n with
  | O => []
  | S n' => i :: zrange (i + 1) n'
  end.

Lemma zrange_In (i : Z) (n : nat) (k : Z) :
  In k (zrange i n) <-> i <= k < i + Z.of_nat n.
Proof.
  revert i. induction n as [ | n IH]; intros i; cbn [zrange In].
  - lia.
  - rewrite IH. lia.
Qed.

Lemma zrange_app (i : Z) (n : nat) :
  zrange i (S n) = zrange i n ++ [i + Z.of_nat n].
Proof.
  revert i. induction n as [ | n IH]; intros i.
  - cbn. now rewrite Z.add_0_r.
  - change (zrange i (S (S n))) with (i :: zrange (i + 1) (S n)).
    rewrite IH. cbn [zrange app]. do 3 f_equal. lia.
Qed.

Lemma ids20_zrange : ids20 = zrange 1 20.
Proof. reflexivity. Qed.

Lemma ids20_In (k : Z) : In k ids20 <-> 1 <= k <= 20.
Proof. rewrite ids20_zrange, zrange_In. lia. Qed.

Lemma nth_zrange (i : Z) (n k : nat) (d : Z) :
  (k < n)%nat -> nth k (zrange i n) d = i + Z.of_nat k.
Proof.
  revert i k. induction n as [ | n IH]; intros i k Hk; [lia | ].
  destruct k as [ | k]; cbn [zrange nth]; [lia | ].
  rewrite IH by lia. lia.
Qed.

Section WithValue.
Context {V : Type}.
Implicit Types (m : OrdMap.t V) (v : V) (k : Z).

(** Insert then look up. *)
Lemma find_assign k' v m k :
  find k (assign k' v m) = if k =? k' then Some v else find k m.
Proof.
  induction m as [ | [k0 v0] rest IH]; cbn [assign find].
  - destruct (Z.ltb_spec k k'), (Z.eqb_spec k k'); try reflexivity; lia.
  - destruct (Z.ltb_spec k' k0); cbn [find].
    + destruct (Z.ltb_spec k k'), (Z.eqb_spec k k'); try reflexivity; try lia.
      destruct (Z.ltb_spec k k0); [reflexivity | lia].
    + destruct (Z.eqb_spec k' k0) as [-> | Hne]; cbn [find].
      * destruct (Z.ltb_spec k k0), (Z.eqb_spec k k0); try reflexivity; lia.
      * rewrite IH.
        destruct (Z.ltb_spec k k0), (Z.eqb_spec k k0), (Z.eqb_spec k k');
          try reflexivity; lia.
Qed.

Lemma assign_last k v m :
  Forall (fun k' => k' < k) (map fst m) -> assign k v m = m ++ [(k, v)].
Proof.
  induction m as [ | [k0 v0] rest IH]; cbn [map fst assign app]; intros H;
    [reflexivity | ].
  apply Forall_cons_iff in H as [H0 H].
  destruct (Z.ltb_spec k k0); [lia | ].
  destruct (Z.eqb_spec k k0); [lia | ].
  now rewrite IH.
Qed.

Lemma find_In k m v : find k m = Some v -> In (k, v) m.
Proof.
  induction m as [ | [k0 v0] rest IH]; cbn [find]; [discriminate | ].
  destruct (k <? k0); [discriminate | ].
  destruct (Z.eqb_spec k k0) as [-> | Hne].
  - intros [= ->]. now left.
  - intros H. right. now apply IH.
Qed.

Lemma lookup_keys k m : lookup k m <> None <-> In k (map fst m).
Proof.
  induction m as [ | [k0 v0] rest IH]; cbn [lookup map fst In].
  - tauto.
  - destruct (Z.eqb_spec k k0) as [-> | Hne].
    + split; [now left | discriminate].
    + rewrite IH. split; [now right | intros [E | H]; [congruence | exact H]].
Qed.

Lemma find_keys k m : ordered m -> (find k m <> None <-> In k (map fst m)).
Proof. intros Ho. rewrite (find_lookup k m Ho). apply lookup_keys. Qed.

End WithValue.

Section WithEngine.
Context {G : Type} {R : UniformRandom G}.

(** The engine after [k] draws of [pos_dist]. *)
Fixpoint advance (k : nat) (g : G) : G :=
  match k with
  | O => g
  | S k' => advance k' (snd (pos_dist g))
  end.

Lemma gen_init_nodes (n : nat) (i : Z) (nm : NodeManager.t G) :
  gen (init_nodes n i nm) = advance (2 * n) (gen nm).
Proof.
  revert i nm. induction n as [ | n IH]; intros i nm; [reflexivity | ].
  cbn [init_nodes].
  destruct (pos_dist (gen nm)) as [x g1] eqn:E1.
  destruct (pos_dist g1) as [y g2] eqn:E2.
  rewrite IH. cbn [gen].
  replace (2 * S n)%nat with (S (S (2 * n))) by lia.
  cbn [advance]. rewrite E1. cbn [snd]. rewrite E2. reflexivity.
Qed.

Lemma node_ids_of_init_nodes (n : nat) (i : Z) (nm : NodeManager.t G) :
  0 <= i -> i + Z.of_nat n <= 65536 ->
  node_ids (init_nodes n i nm) = node_ids nm ++ zrange i n.
Proof.
  revert i nm. induction n as [ | n IH]; intros i nm Hi Hn; cbn [init_nodes zrange].
  - now rewrite app_nil_r.
  - destruct (pos_dist (gen nm)) as [x g1], (pos_dist g1) as [y g2].
    rewrite IH by lia. cbn [node_ids].
    rewrite F32Bits.u16_small by lia. now rewrite <- app_assoc.
Qed.

Lemma keys_of_init_nodes (n : nat) (i : Z) (nm : NodeManager.t G) :
  0 <= i -> i + Z.of_nat n <= 65536 ->
  Forall (fun k => k < i) (map fst (positions nm)) ->
  map fst (positions (init_nodes n i nm)) = map fst (positions nm) ++ zrange i n.
Proof.
  revert i nm. induction n as [ | n IH]; intros i nm Hi Hn Hk; cbn [init_nodes zrange].
  - now rewrite app_nil_r.
  - destruct (pos_dist (gen nm)) as [x g1], (pos_dist g1) as [y g2].
    rewrite IH; try lia; cbn [positions]; rewrite F32Bits.u16_small by lia;
      rewrite (assign_last i (x, y) _ Hk), map_app; cbn [map fst].
    + now rewrite <- app_assoc.
    + apply Forall_app. split.
      * eapply Forall_impl; [ | exact Hk]. cbn. lia.
      * constructor; [lia | constructor].
Qed.

(** The position the first loop gives to node [i + j]: the draws
    [2 * j] and [2 * j + 1] of the engine it starts with. *)
Lemma find_init_nodes (n : nat) (i : Z) (nm : NodeManager.t G) (j : nat) :
  0 <= i -> i + Z.of_nat n <= 65536 -> (j < n)%nat ->
  find (i + Z.of_nat j) (positions (init_nodes n i nm))
  = Some (fst (pos_dist (advance (2 * j) (gen nm))),
          fst (pos_dist (advance (2 * j + 1) (gen nm)))).
Proof.
  revert i nm j. induction n as [ | n IH]; intros i nm j Hi Hn Hj; [lia | ].
  cbn [init_nodes].
  destruct (pos_dist (gen nm)) as [x g1] eqn:E1.
  destruct (pos_dist g1) as [y g2] eqn:E2.
  destruct j as [ | j].
  - (* the entry of this iteration is not overwritten by the later ones *)
    clear IH. rewrite Z.add_0_r.
    change (advance (2 * 0) (gen nm)) with (gen nm).
    change (advance (2 * 0 + 1) (gen nm)) with (snd (pos_dist (gen nm))).
    rewrite E1. cbn [fst snd]. rewrite E2. cbn [fst].
    assert (Hlater : forall m k (nm' : NodeManager.t G),
               i < k -> k + Z.of_nat m <= 65536 ->
               find i (positions (init_nodes m k nm')) = find i (positions nm')).
    { induction m as [ | m IHm]; intros k nm' Hk Hm; [reflexivity | ].
      cbn [init_nodes].
      destruct (pos_dist (gen nm')) as [x' g1'], (pos_dist g1') as [y' g2'].
      rewrite IHm by lia. cbn [positions].
      rewrite find_assign, F32Bits.u16_small by lia.
      destruct (Z.eqb_spec i k); [lia | reflexivity]. }
    rewrite Hlater by lia. cbn [positions].
    rewrite find_assign, F32Bits.u16_small, Z.eqb_refl by lia. reflexivity.
  - replace (i + Z.of_nat (S j)) with ((i + 1) + Z.of_nat j) by lia.
    rewrite IH by lia. cbn [gen].
    replace (2 * S j)%nat with (S (S (2 * j))) by lia.
    replace (S (S (2 * j)) + 1)%nat with (S (S (2 * j + 1))) by lia.
    cbn [advance]. rewrite E1. cbn [snd]. rewrite E2. reflexivity.
Qed.

Lemma distances_init_nodes (n : nat) (i : Z) (nm : NodeManager.t G) :
  distances (init_nodes n i nm)
  = distances nm ++ repeat (repeat (of_Z 0) (Z.to_nat NUM_NODES)) n.
Proof.
  revert i nm. induction n as [ | n IH]; intros i nm; cbn [init_nodes repeat].
  - now rewrite app_nil_r.
  - destruct (pos_dist (gen nm)) as [x g1], (pos_dist g1) as [y g2].
    rewrite IH. cbn [distances]. now rewrite <- app_assoc.
Qed.

End WithEngine.

End WorldFacts.

(** ** The distance matrix *)

Module MatrixFacts.

Import Machine OrdMap OrdMapFacts OrdMapOrder DistanceFacts WorldFacts.

(** [distances[a][b]]. *)
Definition entry (d : list (list float)) (a b : Z) : float :=
  nth (Z.to_nat b) (nth (Z.to_nat a) d []) (of_Z 0).

(** A matrix of [NUM_NODES] rows of [NUM_NODES] columns. *)
Definition square (d : list (list float)) : Prop :=
  length d = 20%nat /\ Forall (fun row => length row = 20%nat) d.

Lemma length_update_nth {A : Type} (n : nat) (f : A -> A) (l : list A) :
  length (update_nth n f l) = length l.
Proof.
  revert n. induction l as [ | x l IH]; intros [ | n]; cbn [update_nth length];
    auto.
Qed.

Lemma nth_update_nth {A : Type} (n : nat) (f : A -> A) (l : list A) (k : nat) (d : A) :
  nth k (update_nth n f l) d
  = if (k =? n)%nat && (n <? length l)%nat then f (nth n l d) else nth k l d.
Proof.
  revert n k. induction l as [ | x l IH]; intros n k.
  - destruct n, k; cbn [update_nth nth length]; rewrite ?Bool.andb_false_r;
      reflexivity.
  - destruct n as [ | n], k as [ | k]; cbn [update_nth nth length]; try reflexivity.
    rewrite IH.
    change (S k =? S n)%nat with (k =? n)%nat.
    change (S n <? S (length l))%nat with (n <? length l)%nat.
    reflexivity.
Qed.

Lemma Forall_update_nth {A : Type} (P : A -> Prop) (n : nat) (f : A -> A) (l : list A) :
  (forall x, P x -> P (f x)) -> Forall P l -> Forall P (update_nth n f l).
Proof.
  intros Hf H. revert n. induction H as [ | x l Hx Hl IH]; intros [ | n];
    cbn [update_nth]; constructor; auto.
Qed.

Lemma square_row (d : list (list float)) (a : nat) :
  square d -> (a < 20)%nat -> length (nth a d []) = 20%nat.
Proof.
  intros [Hlen Hrows] Ha.
  rewrite Forall_forall in Hrows. apply Hrows, nth_In. lia.
Qed.

Section WithEngine.
Context {G : Type} {R : UniformRandom G}.

Lemma set_distance_square (i j : Z) (v : float) (nm : NodeManager.t G) :
  square (distances nm) -> square (distances (set_distance i j v nm)).
Proof.
  intros [Hlen Hrows]. unfold set_distance. cbn [distances]. split.
  - now rewrite length_update_nth.
  - apply Forall_update_nth; [ | exact Hrows].
    intros row Hrow. now rewrite length_update_nth.
Qed.

Lemma set_distance_entry (i j : Z) (v : float) (nm : NodeManager.t G) (a b : Z) :
  square (distances nm) -> 0 <= i < 20 -> 0 <= j < 20 ->
  0 <= a < 20 -> 0 <= b < 20 ->
  entry (distances (set_distance i j v nm)) a b
  = if (a =? i) && (b =? j) then v else entry (distances nm) a b.
Proof.
  intros Hsq Hi Hj Ha Hb. unfold set_distance, entry. cbn [distances].
  destruct Hsq as [Hlen Hrows].
  rewrite nth_update_nth, Hlen.
  destruct (Nat.eqb_spec (Z.to_nat a) (Z.to_nat i)) as [E | E].
  - replace (Z.to_nat i <? 20)%nat with true by (symmetry; apply Nat.ltb_lt; lia).
    cbn [andb]. rewrite nth_update_nth.
    rewrite (square_row (distances nm) (Z.to_nat i) (conj Hlen Hrows)) by lia.
    replace (a =? i) with true by (symmetry; apply Z.eqb_eq; lia).
    cbn [andb].
    destruct (Nat.eqb_spec (Z.to_nat b) (Z.to_nat j)) as [E' | E'].
    + replace (Z.to_nat j <? 20)%nat with true by (symmetry; apply Nat.ltb_lt; lia).
      replace (b =? j) with true by (symmetry; apply Z.eqb_eq; lia).
      reflexivity.
    + replace (b =? j) with false by (symmetry; apply Z.eqb_neq; lia).
      cbn [andb]. now rewrite E.
  - replace (a =? i) with false by (symmetry; apply Z.eqb_neq; lia).
    reflexivity.
Qed.

(** The state the second pass works on: the ids [1 .. 20], all of them
    in the map, and a square matrix. *)
Definition settled (nm : NodeManager.t G) : Prop :=
  node_ids nm = ids20
  /\ (forall id, 1 <= id <= 20 -> find id (positions nm) <> None)
  /\ square (distances nm).

Lemma settled_position (nm : NodeManager.t G) (id : Z) :
  settled nm -> 1 <= id <= 20 ->
  find id (positions nm) = Some (getPosition nm id).
Proof.
  intros (_ & Hk & _) Hid. unfold getPosition.
  rewrite F32Bits.u16_small by lia.
  specialize (Hk id Hid). destruct (find id (positions nm)); congruence.
Qed.

Lemma settled_converted (nm : NodeManager.t G) (id : Z) :
  settled nm -> 1 <= id <= 20 ->
  find (u16 id) (positions nm) = Some (getPosition nm id).
Proof.
  intros Hs Hid. rewrite F32Bits.u16_small by lia.
  now apply settled_position.
Qed.

Lemma nth_ids20 (k : Z) : 0 <= k < 20 -> nth (Z.to_nat k) ids20 0 = k + 1.
Proof.
  intros Hk. rewrite ids20_zrange, nth_zrange by lia. lia.
Qed.

(** One row of the second pass: [distances[i][j]] and [distances[j][i]]
    for the columns [j] it goes through, and nothing else. *)
Lemma fill_row_spec (n : nat) (i j : Z) (nm : NodeManager.t G) :
  settled nm -> 0 <= i < j -> j + Z.of_nat n <= 20 ->
  let nm' := fill_row n i j (i + 1) nm in
  settled nm'
  /\ positions nm' = positions nm /\ gen nm' = gen nm
  /\ forall a b, 0 <= a < 20 -> 0 <= b < 20 ->
       entry (distances nm') a b
       = if ((a =? i) && (j <=? b) && (b <? j + Z.of_nat n))
            || ((b =? i) && (j <=? a) && (a <? j + Z.of_nat n))
         then euclid (getPosition nm (i + 1)) (getPosition nm (Z.max a b + 1))
         else entry (distances nm) a b.
Proof.
  revert j nm. induction n as [ | n IH]; intros j nm Hs Hij Hn; cbv zeta.
  - cbn [fill_row]. repeat split; try exact Hs; try apply Hs.
    intros a b Ha Hb.
    destruct (Z.leb_spec j b), (Z.leb_spec j a),
      (Z.ltb_spec b (j + Z.of_nat 0)), (Z.ltb_spec a (j + Z.of_nat 0));
      rewrite ?Bool.andb_false_r; cbn [andb orb]; try lia; reflexivity.
  - cbn [fill_row].
    pose proof Hs as (Hids & Hk & Hsq).
    rewrite Hids, nth_ids20 by lia.
    rewrite (getDistance_known (i + 1) (j + 1) nm _ _
               (settled_converted nm (i + 1) Hs ltac:(lia))
               (settled_converted nm (j + 1) Hs ltac:(lia))).
    set (d := euclid (getPosition nm (i + 1)) (getPosition nm (j + 1))).
    set (nm1 := set_distance i j d nm).
    set (nm2 := set_distance j i d nm1).
    assert (Hs2 : settled nm2).
    { split; [exact Hids | split; [exact Hk | ]].
      apply set_distance_square, set_distance_square, Hsq. }
    specialize (IH (j + 1) nm2 Hs2 ltac:(lia) ltac:(lia)). cbv zeta in IH.
    destruct IH as (Hs' & Hp' & Hg' & He').
    split; [exact Hs' | split; [exact Hp' | split; [exact Hg' | ]]].
    intros a b Ha Hb. rewrite (He' a b Ha Hb).
    assert (Hpos : forall id, getPosition nm2 id = getPosition nm id) by reflexivity.
    rewrite !Hpos.
    unfold nm2. rewrite set_distance_entry;
      [ | apply set_distance_square, Hsq | lia | lia | lia | lia ].
    unfold nm1. rewrite set_distance_entry by (try exact Hsq; lia).
    unfold d.
    destruct (Z.eqb_spec a i), (Z.eqb_spec b i), (Z.eqb_spec a j), (Z.eqb_spec b j),
      (Z.leb_spec j b), (Z.leb_spec j a), (Z.leb_spec (j + 1) b),
      (Z.leb_spec (j + 1) a), (Z.ltb_spec b (j + Z.of_nat (S n))),
      (Z.ltb_spec a (j + Z.of_nat (S n))),
      (Z.ltb_spec b (j + 1 + Z.of_nat n)), (Z.ltb_spec a (j + 1 + Z.of_nat n));
      cbn [andb orb]; try lia; try reflexivity;
      subst; try (rewrite Z.max_r by lia); try (rewrite Z.max_l by lia);
      reflexivity.
Qed.

(** The second pass over the rows [i .. i + n - 1]. *)
Lemma fill_rows_spec (n : nat) (i : Z) (nm : NodeManager.t G) :
  settled nm -> 0 <= i -> i + Z.of_nat n <= 20 ->
  let nm' := fill_rows n i nm in
  settled nm'
  /\ positions nm' = positions nm /\ gen nm' = gen nm
  /\ forall a b, 0 <= a < 20 -> 0 <= b < 20 ->
       entry (distances nm') a b
       = if (i <=? Z.min a b) && (Z.min a b <? i + Z.of_nat n) && negb (a =? b)
         then euclid (getPosition nm (Z.min a b + 1)) (getPosition nm (Z.max a b + 1))
         else entry (distances nm) a b.
Proof.
  revert i nm. induction n as [ | n IH]; intros i nm Hs Hi Hn; cbv zeta.
  - cbn [fill_rows]. repeat split; try exact Hs; try apply Hs.
    intros a b Ha Hb.
    destruct (Z.leb_spec i (Z.min a b)), (Z.ltb_spec (Z.min a b) (i + Z.of_nat 0));
      cbn [andb]; try lia; reflexivity.
  - cbn [fill_rows].
    pose proof Hs as (Hids & _).
    rewrite Hids, nth_ids20 by lia.
    change NUM_NODES with 20.
    destruct (fill_row_spec (Z.to_nat (20 - (i + 1))) i (i + 1) nm Hs
                ltac:(lia) ltac:(lia)) as (Hs1 & Hp1 & Hg1 & He1).
    set (nm1 := fill_row (Z.to_nat (20 - (i + 1))) i (i + 1) (i + 1) nm) in *.
    destruct (IH (i + 1) nm1 Hs1 ltac:(lia) ltac:(lia)) as (Hs2 & Hp2 & Hg2 & He2).
    split; [exact Hs2 | ].
    split; [now rewrite Hp2 | ].
    split; [now rewrite Hg2 | ].
    intros a b Ha Hb. rewrite (He2 a b Ha Hb), (He1 a b Ha Hb).
    assert (Hpos : forall id, getPosition nm1 id = getPosition nm id)
      by (intros id; unfold getPosition; now rewrite Hp1).
    rewrite !Hpos.
    replace (i + 1 + Z.of_nat (Z.to_nat (20 - (i + 1)))) with 20 by lia.
    destruct (Z.eqb_spec a b), (Z.eqb_spec a i), (Z.eqb_spec b i),
      (Z.leb_spec (i + 1) b), (Z.leb_spec (i + 1) a),
      (Z.ltb_spec b 20), (Z.ltb_spec a 20),
      (Z.leb_spec i (Z.min a b)), (Z.leb_spec (i + 1) (Z.min a b)),
      (Z.ltb_spec (Z.min a b) (i + Z.of_nat (S n))),
      (Z.ltb_spec (Z.min a b) (i + 1 + Z.of_nat n));
      cbn [andb orb negb]; try lia; try reflexivity;
      subst; try (rewrite Z.min_l by lia); try (rewrite Z.min_r by lia);
      reflexivity.
Qed.

(** The state after the first pass. *)
Lemma init_nodes_settled (g : G) :
  settled (init_nodes (Z.to_nat NUM_NODES) 1
             {| node_ids := []; positions := []; distances := []; gen := g |}).
Proof.
  change (Z.to_nat NUM_NODES) with 20%nat.
  split; [ | split].
  - rewrite node_ids_of_init_nodes by lia. reflexivity.
  - intros id Hid.
    replace id with (1 + Z.of_nat (Z.to_nat (id - 1))) by lia.
    rewrite find_init_nodes by lia. discriminate.
  - rewrite distances_init_nodes. cbn [distances app]. split; [reflexivity | ].
    change (Z.to_nat NUM_NODES) with 20%nat.
    apply Forall_forall. intros row Hrow.
    apply repeat_spec in Hrow. subst row. apply repeat_length.
Qed.

Lemma entry_init_nodes (g : G) (a b : Z) :
  0 <= a < 20 -> 0 <= b < 20 ->
  entry (distances (init_nodes (Z.to_nat NUM_NODES) 1
                      {| node_ids := []; positions := []; distances := []; gen := g |}))
        a b
  = of_Z 0.
Proof.
  intros Ha Hb. rewrite distances_init_nodes. cbn [distances app]. unfold entry.
  change (Z.to_nat NUM_NODES) with 20%nat.
  assert (Hrow : nth (Z.to_nat a) (repeat (repeat (of_Z 0) 20) 20) []
                 = repeat (of_Z 0) 20).
  { apply (repeat_spec 20 (repeat (of_Z 0) 20)), nth_In.
    rewrite repeat_length. lia. }
  rewrite Hrow. apply nth_repeat.
Qed.

End WithEngine.

End MatrixFacts.

Import OrdMapOrder DistanceFacts WorldFacts MatrixFacts.

Section WorldTheorems.
Context {G : Type} {R : UniformRandom G}.

Definition first_pass (g : G) : NodeManager.t G :=
  init_nodes (Z.to_nat NUM_NODES) 1
    {| node_ids := []; positions := []; distances := []; gen := g |}.

Lemma construct_second_pass (g : G) :
  NodeManager.construct g = fill_rows (Z.to_nat NUM_NODES) 0 (first_pass g).
Proof. reflexivity. Qed.

Lemma construct_positions (g : G) :
  positions (NodeManager.construct g) = positions (first_pass g).
Proof.
  rewrite construct_second_pass.
  apply (fill_rows_spec 20 0 (first_pass g) (init_nodes_settled g)); lia.
Qed.

Lemma construct_gen (g : G) :
  gen (NodeManager.construct g) = gen (first_pass g).
Proof.
  rewrite construct_second_pass.
  apply (fill_rows_spec 20 0 (first_pass g) (init_nodes_settled g)); lia.
Qed.

Lemma construct_keys (g : G) :
  node_ids (NodeManager.construct g) = ids20
  /\ map fst (positions (NodeManager.construct g)) = ids20.
Proof.
  split.
  - rewrite construct_second_pass, node_ids_fill_rows.
    apply (init_nodes_settled g).
  - rewrite construct_positions. unfold first_pass.
    change (Z.to_nat NUM_NODES) with 20%nat.
    rewrite keys_of_init_nodes; [reflexivity | lia | lia | constructor].
Qed.

Lemma reachable_keys (nm : NodeManager.t G) :
  reachable nm -> node_ids nm = ids20 /\ map fst (positions nm) = ids20.
Proof.
  induction 1 as [g | nm Hr [IHn IHk]]; [apply construct_keys | ].
  split; [now rewrite node_ids_updatePositions | ].
  unfold updatePositions.
  pose proof (update_entries_keys (positions nm) (gen nm)) as Hk.
  destruct (update_entries (positions nm) (gen nm)) as [ps g]. cbn [fst] in Hk.
  cbn [positions]. now rewrite Hk.
Qed.

Lemma reachable_known (nm : NodeManager.t G) (id : Z) :
  reachable nm -> (OrdMap.find id (positions nm) <> None <-> 1 <= id <= 20).
Proof.
  intros Hr. rewrite (find_keys id _ (reachable_ordered nm Hr)).
  rewrite (proj2 (reachable_keys nm Hr)). apply ids20_In.
Qed.

Lemma reachable_in_square (nm : NodeManager.t G) :
  reachable nm -> all_in_square (positions nm).
Proof.
  induction 1 as [g | nm Hr IH].
  - apply construct_in_square.
  - apply updatePositions_in_square, IH.
Qed.

Lemma reachable_position_in_square (nm : NodeManager.t G) (id : Z) :
  reachable nm -> in_square (getPosition nm id).
Proof.
  intros Hr. unfold getPosition.
  destruct (OrdMap.find (u16 id) (positions nm)) as [p | ] eqn:E;
    [ | apply origin_in_square].
  pose proof (reachable_in_square nm Hr) as Hall.
  unfold all_in_square in Hall. rewrite Forall_forall in Hall.
  apply (Hall (u16 id, p)), find_In, E.
Qed.

End WorldTheorems.

(** X1.  The constructor, for any engine state [g]: the node ids are
    1 .. 20 in this order, the map has exactly these keys, the engine is
    left after 40 draws of [pos_dist], and node [id] is at the draws
    [2 * (id - 1)] (its [x]) and [2 * (id - 1) + 1] (its [y]); the calls
    of [getDistance] of the second pass add nothing to the map. *)
Theorem constructor_draws_the_world {G : Type} {R : UniformRandom G} (g : G) :
  getNodeIds (NodeManager.construct g) = ids20
  /\ map fst (positions (NodeManager.construct g)) = ids20
  /\ gen (NodeManager.construct g) = advance 40 g
  /\ positions (NodeManager.construct g) = positions (first_pass g)
  /\ forall id, 1 <= id <= 20 ->
       getPosition (NodeManager.construct g) id
       = (fst (pos_dist (advance (Z.to_nat (2 * (id - 1))) g)),
          fst (pos_dist (advance (Z.to_nat (2 * (id - 1) + 1)) g))).
Proof.
  split; [apply construct_keys | split; [apply construct_keys | ]].
  split; [ | split; [apply construct_positions | ]].
  - rewrite construct_gen. unfold first_pass. rewrite gen_init_nodes. reflexivity.
  - intros id Hid. unfold getPosition.
    rewrite F32Bits.u16_small by lia. rewrite construct_positions.
    unfold first_pass. change (Z.to_nat NUM_NODES) with 20%nat.
    replace id with (1 + Z.of_nat (Z.to_nat (id - 1))) at 1 by lia.
    rewrite find_init_nodes by lia. cbn [gen].
    replace (2 * Z.to_nat (id - 1))%nat with (Z.to_nat (2 * (id - 1))) by lia.
    replace (Z.to_nat (2 * (id - 1)) + 1)%nat with (Z.to_nat (2 * (id - 1) + 1))
      by lia.
    reflexivity.
Qed.

Lemma constructor_draws_the_world_witness :
  getPosition (NodeManager.construct (0 : Z)) 4
  = (fst (pos_dist (advance (Z.to_nat (2 * (4 - 1))) (0 : Z))),
     fst (pos_dist (advance (Z.to_nat (2 * (4 - 1) + 1)) (0 : Z)))).
Proof.
  apply (proj2 (proj2 (proj2 (proj2 (constructor_draws_the_world (0 : Z)))))).
  lia.
Defined.

(** X2.  The matrix the constructor leaves is 20 by 20 and holds the
    pairwise distances of the initial positions: [distances[a][b]] is what
    [getDistance(a + 1, b + 1)] returns on the constructed world; it is
    symmetric and its diagonal is zero. *)
Theorem constructor_matrix_is_pairwise_distances {G : Type} {R : UniformRandom G}
    (g : G) :
  square (distances (NodeManager.construct g))
  /\ forall a b, 0 <= a < 20 -> 0 <= b < 20 ->
       entry (distances (NodeManager.construct g)) a b
       = fst (getDistance (a + 1) (b + 1) (NodeManager.construct g))
       /\ entry (distances (NodeManager.construct g)) a b
          = entry (distances (NodeManager.construct g)) b a
       /\ entry (distances (NodeManager.construct g)) a a = of_Z 0.
Proof.
  destruct (fill_rows_spec 20 0 (first_pass g) (init_nodes_settled g)
              ltac:(lia) ltac:(lia)) as (Hs & Hp & _ & He).
  rewrite <- construct_second_pass in *.
  split; [apply Hs | ].
  assert (Hpos : forall id,
             getPosition (first_pass g) id = getPosition (NodeManager.construct g) id)
    by (intros id; unfold getPosition; now rewrite Hp).
  assert (Hentry : forall a b, 0 <= a < 20 -> 0 <= b < 20 ->
             entry (distances (NodeManager.construct g)) a b
             = if a =? b then of_Z 0
               else euclid (getPosition (NodeManager.construct g) (Z.min a b + 1))
                      (getPosition (NodeManager.construct g) (Z.max a b + 1))).
  { intros a b Ha Hb. rewrite (He a b Ha Hb), !Hpos.
    unfold first_pass at 1. rewrite (entry_init_nodes g a b Ha Hb).
    destruct (Z.leb_spec 0 (Z.min a b)), (Z.ltb_spec (Z.min a b) (0 + Z.of_nat 20)),
      (Z.eqb_spec a b); cbn [andb negb]; try lia; reflexivity. }
  intros a b Ha Hb.
  split; [ | split].
  - rewrite (Hentry a b Ha Hb), getDistance_value.
    destruct (Z.eqb_spec a b) as [-> | Hne].
    + symmetry. apply euclid_self, reachable_position_in_square, reach_construct.
    + destruct (Z.le_ge_cases a b).
      * rewrite Z.min_l, Z.max_r by lia. reflexivity.
      * rewrite Z.min_r, Z.max_l by lia. apply euclid_swap.
  - rewrite (Hentry a b Ha Hb), (Hentry b a Hb Ha).
    rewrite (Z.eqb_sym b a), (Z.min_comm b a), (Z.max_comm b a). reflexivity.
  - rewrite (Hentry a a Ha Ha), Z.eqb_refl. reflexivity.
Qed.

Lemma constructor_matrix_is_pairwise_distances_witness :
  entry (distances (NodeManager.construct (0 : Z))) 0 1
  = fst (getDistance (0 + 1) (1 + 1) (NodeManager.construct (0 : Z)))
  /\ entry (distances (NodeManager.construct (0 : Z))) 0 1
     = entry (distances (NodeManager.construct (0 : Z))) 1 0
  /\ entry (distances (NodeManager.construct (0 : Z))) 0 0 = of_Z 0.
Proof.
  apply (proj2 (constructor_matrix_is_pairwise_distances (0 : Z)) 0 1); lia.
Defined.

(** X3.  [getDistance] returns the same value for [(s, t)] and for
    [(t, s)], in every state of the world and for all coordinates. *)
Theorem getDistance_is_symmetric {G : Type} {R : UniformRandom G}
    (nm : NodeManager.t G) (s t : Z) :
  fst (getDistance s t nm) = fst (getDistance t s nm).
Proof. rewrite !getDistance_value. apply euclid_swap. Qed.

(** X4.  The population is fixed: in every state of the world reachable
    by ticks the node ids are 1 .. 20, the map has exactly these keys, in
    increasing order, and [getPosition] answers for the id it receives,
    a [uint16_t]: for an argument that converts to one of 1 .. 20 the
    position the map holds for that node, for any other (0.0, 0.0). *)
Theorem population_is_fixed {G : Type} {R : UniformRandom G}
    (nm : NodeManager.t G) :
  reachable nm ->
  getNodeIds nm = ids20
  /\ map fst (positions nm) = ids20
  /\ OrdMap.ordered (positions nm)
  /\ (forall k, OrdMap.find k (positions nm) <> None <-> 1 <= k <= 20)
  /\ (forall id, 1 <= u16 id <= 20 ->
        OrdMap.find (u16 id) (positions nm) = Some (getPosition nm id))
  /\ (forall id, ~ 1 <= u16 id <= 20 -> getPosition nm id = origin).
Proof.
  intros Hr.
  split; [apply (reachable_keys nm Hr) | split; [apply (reachable_keys nm Hr) | ]].
  split; [apply reachable_ordered, Hr | ].
  split; [intros k; apply reachable_known, Hr | ].
  split; intros id Hid; unfold getPosition;
    pose proof (reachable_known nm (u16 id) Hr) as Hk;
    destruct (OrdMap.find (u16 id) (positions nm)) as [p | ] eqn:E.
  - reflexivity.
  - exfalso. apply (proj2 Hk Hid). reflexivity.
  - exfalso. apply Hid, Hk. discriminate.
  - reflexivity.
Qed.

Lemma population_is_fixed_witness :
  getNodeIds (updatePositions (NodeManager.construct (0 : Z))) = ids20
  /\ map fst (positions (updatePositions (NodeManager.construct (0 : Z)))) = ids20
  /\ OrdMap.ordered (positions (updatePositions (NodeManager.construct (0 : Z))))
  /\ (forall k,
        OrdMap.find k (positions (updatePositions (NodeManager.construct (0 : Z))))
        <> None <-> 1 <= k <= 20)
  /\ OrdMap.find (u16 65537)
       (positions (updatePositions (NodeManager.construct (0 : Z))))
     = Some (getPosition (updatePositions (NodeManager.construct (0 : Z))) 65537)
  /\ getPosition (updatePositions (NodeManager.construct (0 : Z))) 21 = origin.
Proof.
  destruct (population_is_fixed (updatePositions (NodeManager.construct (0 : Z)))
              (reach_tick _ (reach_construct (0 : Z))))
    as (H1 & H2 & H3 & H4 & H5 & H6).
  split; [exact H1 | split; [exact H2 | split; [exact H3 | split; [exact H4 | ]]]].
  split; [apply H5 | apply H6]; vm_compute; intuition discriminate.
Defined.

(** X5.  On a reachable world [getDistance] between two of the nodes
    changes nothing, and the distance of anything to itself is zero. *)
Theorem getDistance_on_the_world {G : Type} {R : UniformRandom G}
    (nm : NodeManager.t G) :
  reachable nm ->
  (forall s t, 1 <= s <= 20 -> 1 <= t <= 20 -> snd (getDistance s t nm) = nm)
  /\ (forall id, fst (getDistance id id nm) = of_Z 0).
Proof.
  intros Hr. split.
  - intros s t Hs Ht.
    pose proof (proj2 (reachable_known nm s Hr) Hs) as Ks.
    pose proof (proj2 (reachable_known nm t Hr) Ht) as Kt.
    destruct (OrdMap.find s (positions nm)) as [ps | ] eqn:Es; [ | contradiction].
    destruct (OrdMap.find t (positions nm)) as [pt | ] eqn:Et; [ | contradiction].
    rewrite <- (F32Bits.u16_small s) in Es by lia.
    rewrite <- (F32Bits.u16_small t) in Et by lia.
    now rewrite (getDistance_known s t nm ps pt Es Et).
  - intros id. rewrite getDistance_value.
    apply euclid_self, reachable_position_in_square, Hr.
Qed.

Lemma getDistance_on_the_world_witness :
  snd (getDistance 3 17 (updatePositions (NodeManager.construct (0 : Z))))
  = updatePositions (NodeManager.construct (0 : Z))
  /\ fst (getDistance 99 99 (updatePositions (NodeManager.construct (0 : Z))))
     = of_Z 0.
Proof.
  destruct (getDistance_on_the_world (updatePositions (NodeManager.construct (0 : Z)))
              (reach_tick _ (reach_construct (0 : Z)))) as [H1 H2].
  split; [apply H1; lia | apply H2].
Defined.

(** ** Whole sweeps *)

Lemma steps_app {W : Type} (head : W -> W * list Z)
    (build : nat -> Z -> W -> run (W * (list cell * Z * Z)))
    (inner_ms outer_ms : Z) (fuel : nat) (srv : UDPServer)
    (fl fl' : list bool) (s : state W) :
  steps head build inner_ms outer_ms fuel srv (fl ++ fl') s
  = bind (steps head build inner_ms outer_ms fuel srv fl s)
         (steps head build inner_ms outer_ms fuel srv fl').
Proof.
  revert s. induction fl as [ | f fl IH]; intros s; cbn [app steps bind];
    [reflexivity | ].
  destruct (step head build inner_ms outer_ms fuel srv f s); cbn [bind];
    [apply IH | reflexivity | reflexivity].
Qed.

(** The datagram of node [id] in the world [nm]. *)
Definition position_datagram {G : Type} {R : UniformRandom G}
    (srv : UDPServer) (nm : NodeManager.t G) (id : Z) : datagram :=
  {| dst_port := port srv;
     payload := map Octet (le16 (u16 id)
                           ++ F32.bytes (fst (getPosition nm id))
                           ++ F32.bytes (snd (getPosition nm id))) |}.

(** The sender id a receiver reads in the first two bytes. *)
Definition sender_of (d : datagram) : option Z :=
  match octets (firstn 2 (payload d)) with
  | Some bs => Some (le_decode bs)
  | None => None
  end.

Section Sweeps.
Context {G : Type} {R : UniformRandom G}.

Lemma position_step_in_for (fuel : nat) (srv : UDPServer) (f : bool)
    (s : state (NodeManager.t G)) (id : Z) (rest : list Z) :
  at_pc s = InFor (id :: rest) ->
  exists s',
    positionServer_step fuel srv f s = Ret s'
    /\ at_pc s' = InFor rest
    /\ owned s' = owned s
    /\ slept s' = slept s + 10
    /\ attempted (net s') = attempted (net s) ++ [position_datagram srv (owned s) id].
Proof.
  intros Hpc. unfold positionServer_step, step. rewrite Hpc.
  unfold position_build. rewrite position_packet_image. cbn [bind].
  unfold sendPacket. rewrite position_view. cbn [defined bind].
  pose proof (sendto_attempted (net s) (port srv)
                (map Octet (le16 (u16 id)
                            ++ F32.bytes (fst (getPosition (owned s) id))
                            ++ F32.bytes (snd (getPosition (owned s) id))))) as Hs.
  destruct (sendto (net s) (port srv) _) as [r n']. cbn [snd] in Hs.
  eexists. split; [reflexivity | ]. cbn [at_pc owned slept net].
  repeat split. exact Hs.
Qed.

Lemma position_sweep_in_for (fuel : nat) (srv : UDPServer) (rest : list Z) :
  forall (flags : list bool) (s : state (NodeManager.t G)),
    at_pc s = InFor rest -> length flags = length rest ->
    exists s',
      positionServer_steps fuel srv flags s = Ret s'
      /\ at_pc s' = InFor []
      /\ owned s' = owned s
      /\ slept s' = slept s + 10 * Z.of_nat (length rest)
      /\ attempted (net s')
         = attempted (net s) ++ map (position_datagram srv (owned s)) rest.
Proof.
  induction rest as [ | id rest IH]; intros flags s Hpc Hlen.
  - destruct flags; [ | discriminate]. exists s. cbn [steps map length].
    rewrite app_nil_r. repeat split; [exact Hpc | lia].
  - destruct flags as [ | f flags]; [discriminate | ].
    destruct (position_step_in_for fuel srv f s id rest Hpc)
      as (s1 & E1 & Hpc1 & Hw1 & Hsl1 & Hat1).
    destruct (IH flags s1 Hpc1 ltac:(cbn in Hlen; lia))
      as (s' & E & Hpc' & Hw' & Hsl' & Hat').
    exists s'. unfold positionServer_steps in *. cbn [steps].
    unfold positionServer_step in E1. rewrite E1. cbn [bind].
    split; [exact E | split; [exact Hpc' | ]].
    split; [congruence | split].
    + rewrite Hsl', Hsl1. cbn [length]. lia.
    + rewrite Hat', Hat1, Hw1, <- app_assoc. reflexivity.
Qed.

Lemma graph_step_in_for (fuel : nat) (srv : UDPServer) (f : bool)
    (s : state G) (id : Z) (rest : list Z) :
  fair fuel -> at_pc s = InFor (id :: rest) ->
  exists s' k es,
    graphServer_step fuel srv f s = Ret s'
    /\ at_pc s' = InFor rest
    /\ slept s' = slept s + 200
    /\ attempted (net s')
       = attempted (net s)
         ++ [{| dst_port := port srv;
                payload := map Octet (enc_graph (u16 id) k es) |}].
Proof.
  intros Hf Hpc. unfold graphServer_step, step. rewrite Hpc.
  rewrite graph_packet_image.
  pose proof (sample_graph_total fuel (owned s) Hf) as Ht.
  destruct (sample_graph fuel (owned s)) as [[[k es] g'] | ] eqn:E; [ | contradiction].
  destruct (sample_graph_ok _ _ _ _ _ E) as (Hk & Hlen & _).
  cbn [bind]. unfold sendPacket.
  rewrite (graph_view (u16 id) k es Hk Hlen). cbn [defined bind].
  pose proof (sendto_attempted (net s) (port srv)
                (map Octet (enc_graph (u16 id) k es))) as Hs.
  destruct (sendto (net s) (port srv) _) as [r n']. cbn [snd] in Hs.
  eexists. exists k, es. split; [reflexivity | ]. cbn [at_pc slept net].
  repeat split. exact Hs.
Qed.

Lemma sender_of_enc_graph (p sender k : Z) (es : list edge) :
  sender_of {| dst_port := p; payload := map Octet (enc_graph sender k es) |}
  = Some (u16 sender).
Proof.
  unfold sender_of, enc_graph. cbn [payload].
  change (firstn 2 (map Octet (le16 sender ++ le16 k ++ enc_edges es)))
    with (map Octet (le16 sender)).
  now rewrite octets_map, F32Bits.le_decode_le16.
Qed.

Lemma graph_sweep_in_for (fuel : nat) (srv : UDPServer) (rest : list Z) :
  fair fuel ->
  forall (flags : list bool) (s : state G),
    at_pc s = InFor rest -> length flags = length rest ->
    exists s' ds,
      graphServer_steps fuel srv flags s = Ret s'
      /\ at_pc s' = InFor []
      /\ slept s' = slept s + 200 * Z.of_nat (length rest)
      /\ attempted (net s') = attempted (net s) ++ ds
      /\ map sender_of ds = map (fun id => Some (u16 id)) rest
      /\ Forall (fun d => dst_port d = port srv) ds.
Proof.
  intros Hf. induction rest as [ | id rest IH]; intros flags s Hpc Hlen.
  - destruct flags; [ | discriminate]. exists s, []. cbn [steps map length].
    rewrite app_nil_r. repeat split; [exact Hpc | lia | constructor].
  - destruct flags as [ | f flags]; [discriminate | ].
    destruct (graph_step_in_for fuel srv f s id rest Hf Hpc)
      as (s1 & k & es & E1 & Hpc1 & Hsl1 & Hat1).
    destruct (IH flags s1 Hpc1 ltac:(cbn in Hlen; lia))
      as (s' & ds & E & Hpc' & Hsl' & Hat' & Hsend & Hport).
    exists s', ({| dst_port := port srv;
                   payload := map Octet (enc_graph (u16 id) k es) |} :: ds).
    unfold graphServer_steps in *. cbn [steps].
    unfold graphServer_step in E1. rewrite E1. cbn [bind].
    split; [exact E | split; [exact Hpc' | split]].
    + rewrite Hsl', Hsl1. cbn [length]. lia.
    + split; [rewrite Hat', Hat1, <- app_assoc; reflexivity | ].
      split.
      * cbn [map]. rewrite sender_of_enc_graph, F32Bits.u16_idem, Hsend.
        reflexivity.
      * constructor; [reflexivity | exact Hport].
Qed.

End Sweeps.

(** X6.  One pass of the [while] of [positionServer], started with the
    flag up: the world is ticked once, then one datagram is sent for each
    node id, in the order of [getNodeIds], each carrying the position the
    node has after that tick; the thread has slept 10 ms per node and
    100 ms more and is back at the test of the flag.  The flag is not read
    again during the pass. *)
Theorem position_sweep {G : Type} {R : UniformRandom G}
    (fuel : nat) (srv : UDPServer) (s : state (NodeManager.t G))
    (during : list bool) (last : bool) :
  at_pc s = AtWhile ->
  length during = length (getNodeIds (owned s)) ->
  let nm' := updatePositions (owned s) in
  exists s',
    positionServer_steps fuel srv (true :: during ++ [last]) s = Ret s'
    /\ at_pc s' = AtWhile
    /\ owned s' = nm'
    /\ slept s' = slept s + 10 * Z.of_nat (length (getNodeIds nm')) + 100
    /\ attempted (net s')
       = attempted (net s) ++ map (position_datagram srv nm') (getNodeIds nm').
Proof.
  intros Hpc Hlen nm'.
  set (s1 := {| at_pc := InFor (getNodeIds nm'); owned := nm';
                net := net s; slept := slept s |}).
  assert (E1 : positionServer_step fuel srv true s = Ret s1).
  { unfold positionServer_step, step. rewrite Hpc. reflexivity. }
  assert (Hids : getNodeIds nm' = getNodeIds (owned s))
    by apply node_ids_updatePositions.
  destruct (position_sweep_in_for fuel srv (getNodeIds nm') during s1 eq_refl
              ltac:(now rewrite Hids))
    as (s2 & E2 & Hpc2 & Hw2 & Hsl2 & Hat2).
  set (s3 := {| at_pc := AtWhile; owned := owned s2; net := net s2;
                slept := slept s2 + 100 |}).
  assert (E3 : positionServer_step fuel srv last s2 = Ret s3).
  { unfold positionServer_step, step. rewrite Hpc2. reflexivity. }
  exists s3. split.
  - unfold positionServer_steps in *. cbn [steps].
    unfold positionServer_step in E1. rewrite E1. cbn [bind].
    rewrite steps_app, E2. cbn [bind steps].
    unfold positionServer_step in E3. rewrite E3. reflexivity.
  - unfold s3. cbn [at_pc owned slept net]. rewrite Hw2, Hsl2, Hat2.
    unfold s1. cbn [owned slept net]. repeat split.
Qed.

Lemma position_sweep_witness :
  let s := Server.entry (NodeManager.construct (0 : Z)) (quiet []) in
  let nm' := updatePositions (owned s) in
  exists s',
    positionServer_steps 0 srv_position (true :: repeat false 20 ++ [true]) s
    = Ret s'
    /\ at_pc s' = AtWhile
    /\ owned s' = nm'
    /\ slept s' = slept s + 10 * Z.of_nat (length (getNodeIds nm')) + 100
    /\ attempted (net s')
       = attempted (net s)
         ++ map (position_datagram srv_position nm') (getNodeIds nm').
Proof.
  intros s.
  assert (H1 : at_pc s = AtWhile) by reflexivity.
  assert (H2 : length (repeat false 20) = length (getNodeIds (owned s)))
    by (vm_compute; reflexivity).
  exact (position_sweep 0 srv_position s (repeat false 20) true H1 H2).
Defined.

(** X7.  One pass of the [while] of [graphServer], started with the flag
    up, its rejection loops being given enough fuel: twenty datagrams go
    to the graph port, their sender ids being 1, 2, ..., 20 in this order;
    the thread has slept 20 * 200 + 2000 ms and is back at the test of the
    flag. *)
Theorem graph_sweep {G : Type} {R : UniformRandom G}
    (fuel : nat) (srv : UDPServer) (s : state G)
    (during : list bool) (last : bool) :
  fair fuel ->
  at_pc s = AtWhile ->
  length during = 20%nat ->
  exists s' ds,
    graphServer_steps fuel srv (true :: during ++ [last]) s = Ret s'
    /\ at_pc s' = AtWhile
    /\ slept s' = slept s + 6000
    /\ attempted (net s') = attempted (net s) ++ ds
    /\ map sender_of ds = map Some ids20
    /\ Forall (fun d => dst_port d = port srv) ds.
Proof.
  intros Hf Hpc Hlen.
  set (s1 := {| at_pc := InFor graph_ids; owned := owned s;
                net := net s; slept := slept s |}).
  assert (E1 : graphServer_step fuel srv true s = Ret s1).
  { unfold graphServer_step, step. rewrite Hpc. reflexivity. }
  destruct (graph_sweep_in_for fuel srv graph_ids Hf during s1 eq_refl Hlen)
    as (s2 & ds & E2 & Hpc2 & Hsl2 & Hat2 & Hsend & Hport).
  set (s3 := {| at_pc := AtWhile; owned := owned s2; net := net s2;
                slept := slept s2 + 2000 |}).
  assert (E3 : graphServer_step fuel srv last s2 = Ret s3).
  { unfold graphServer_step, step. rewrite Hpc2. reflexivity. }
  exists s3, ds. split.
  - unfold graphServer_steps in *. cbn [steps].
    unfold graphServer_step in E1. rewrite E1. cbn [bind].
    rewrite steps_app, E2. cbn [bind steps].
    unfold graphServer_step in E3. rewrite E3. reflexivity.
  - unfold s3. cbn [at_pc slept net]. rewrite Hsl2, Hat2.
    unfold s1. cbn [slept net].
    change (Z.of_nat (length graph_ids)) with 20.
    split; [reflexivity | split; [lia | ]].
    split; [reflexivity | split; [ | exact Hport]].
    rewrite Hsend. reflexivity.
Qed.

Lemma graph_sweep_witness :
  let s := Server.entry (0 : Z) (quiet []) in
  exists s' ds,
    graphServer_steps 2 srv_graph (true :: repeat true 20 ++ [false]) s = Ret s'
    /\ at_pc s' = AtWhile
    /\ slept s' = slept s + 6000
    /\ attempted (net s') = attempted (net s) ++ ds
    /\ map sender_of ds = map Some ids20
    /\ Forall (fun d => dst_port d = port srv_graph) ds.
Proof.
  intros s.
  exact (graph_sweep 2 srv_graph s (repeat true 20) false counter_fair
           eq_refl eq_refl).
Defined.

(** ** No step outside the packet *)

Section GraphDefined.
Context {G : Type} {R : UniformRandom G}.

Lemma graph_step_defined (fuel : nat) (srv : UDPServer) (f : bool) (s : state G) :
  graphServer_step fuel srv f s <> Undefined.
Proof.
  unfold graphServer_step, step.
  destruct (at_pc s) as [ | [ | id rest] | ].
  - destruct f; discriminate.
  - discriminate.
  - rewrite graph_packet_image.
    destruct (sample_graph fuel (owned s)) as [[[k es] g'] | ] eqn:E;
      [ | discriminate].
    destruct (sample_graph_ok _ _ _ _ _ E) as (Hk & Hlen & _).
    cbn [bind]. unfold sendPacket.
    rewrite (graph_view (u16 id) k es Hk Hlen). cbn [defined bind].
    destruct (sendto (net s) (port srv) _). discriminate.
  - discriminate.
Qed.

End GraphDefined.

(** X8.  Whatever the engine draws, [generateGraph] never writes outside
    the packet it fills and [graphServer] never makes [sendto] read beyond
    it: no run of the thread leaves the defined behaviour of the language.
    A run can only fail to return by a rejection loop that keeps drawing
    the source; with an engine that is fair to that loop every run
    returns. *)
Theorem graphServer_stays_in_bounds {G : Type} {R : UniformRandom G} (fuel : nat) :
  (forall (sender_id : Z) (g : G),
      GraphGenerator.generateGraph fuel sender_id g <> Undefined)
  /\ (forall (srv : UDPServer) (flags : list bool) (s : state G),
        graphServer_steps fuel srv flags s <> Undefined)
  /\ (fair fuel ->
      forall (srv : UDPServer) (flags : list bool) (s : state G),
        exists s', graphServer_steps fuel srv flags s = Ret s').
Proof.
  split; [ | split].
  - intros sender_id g. rewrite generateGraph_image.
    destruct (sample_graph fuel g) as [[[k es] g'] | ]; discriminate.
  - intros srv flags. induction flags as [ | f flags IH]; intros s;
      unfold graphServer_steps in *; cbn [steps]; [discriminate | ].
    pose proof (graph_step_defined fuel srv f s) as H1.
    unfold graphServer_step in H1.
    destruct (step graph_head graph_packet 200 2000 fuel srv f s) as [s1 | | ];
      cbn [bind]; [apply IH | discriminate | contradiction].
  - intros Hf srv flags s.
    apply (steps_total graph_head graph_packet 200 2000 fuel srv
             (fun id w => graph_builds fuel id w Hf)).
Qed.

Lemma graphServer_stays_in_bounds_witness :
  exists s',
    graphServer_steps 2 srv_graph [true; true; true; false]
      (Server.entry (11 : Z) (quiet [])) = Ret s'.
Proof.
  exact (proj2 (proj2 (graphServer_stays_in_bounds 2%nat)) counter_fair
           srv_graph [true; true; true; false] (Server.entry (11 : Z) (quiet []))).
Defined.

(** ** The life of a socket *)

Module Lifecycle.

(** The part of the system a thread's socket lives in: what [socket] and
    [setsockopt] will answer, the descriptor [socket] gives next, the
    descriptors that are open, and the datagram service. *)
Record OS : Type := {
  socket_fails : bool;
  setsockopt_fails : bool;
  next_fd : Z;
  open_fds : list Z;
  os_net : Net
}.

Definition socket (os : OS) : Z * OS :=
  if socket_fails os then (INVALID_SOCKET, os)
  else (next_fd os,
        {| socket_fails := socket_fails os;
           setsockopt_fails := setsockopt_fails os;
           next_fd := next_fd os + 1;
           open_fds := next_fd os :: open_fds os;
           os_net := os_net os |}).

Definition setsockopt (os : OS) (fd : Z) : Z * OS :=
  (if setsockopt_fails os then -1 else 0, os).

Definition closesocket (os : OS) (fd : Z) : OS :=
  {| socket_fails := socket_fails os;
     setsockopt_fails := setsockopt_fails os;
     next_fd := next_fd os;
     open_fds := filter (fun fd' => negb (fd' =? fd)) (open_fds os);
     os_net := os_net os |}.

Definition with_net (os : OS) (n : Net) : OS :=
  {| socket_fails := socket_fails os;
     setsockopt_fails := setsockopt_fails os;
     next_fd := next_fd os;
     open_fds := open_fds os;
     os_net := n |}.

(** [UDPServer::UDPServer(int port)]: a [throw] leaves the constructor
    with what it has done so far. *)
Definition UDPServer_new (os : OS) (p : Z) : (UDPServer + runtime_error) * OS :=
  let '(fd, os1) := socket os in
  if fd =? INVALID_SOCKET then (inr Failed_to_create_socket, os1)
  else
    let '(r, os2) := setsockopt os1 fd in
    if r <? 0 then (inr Failed_to_set_broadcast_option, os2)
    else (inl {| sock := fd; port := p |}, os2).

(** [UDPServer::~UDPServer()]. *)
Definition UDPServer_delete (os : OS) (srv : UDPServer) : OS :=
  closesocket os (sock srv).

(** What a thread prints. *)
Inductive message : Type :=
| server_started (p : Z)
| server_stopped
| server_error (e : runtime_error).

(** The body of [positionServer] and of [graphServer]:
    [try { UDPServer server(port); W w; cout << started; while ...; cout << stopped; }
     catch (...) { cerr << error; }].
    The destructor of [server] runs at the end of the [try] block; it does
    not run when the constructor threw, as there is no object then.  A run
    whose [flags] end before the loop does has not returned. *)
Definition thread {W : Type}
    (loop : UDPServer -> list bool -> state W -> run (state W))
    (p : Z) (w : W) (flags : list bool) (os : OS) : run (list message * OS) :=
  match UDPServer_new os p with
  | (inr e, os1) => Ret ([server_error e], os1)
  | (inl srv, os1) =>
      bind (loop srv flags (Server.entry w (os_net os1))) (fun s =>
      match at_pc s with
      | Returned =>
          Ret ([server_started p; server_stopped],
               UDPServer_delete (with_net os1 (net s)) srv)
      | _ => OutOfFuel
      end)
  end.

Definition positionServer {G : Type} {R : UniformRandom G}
    (fuel : nat) (g : G) : list bool -> OS -> run (list message * OS) :=
  thread (positionServer_steps fuel) 12345 (NodeManager.construct g).

Definition graphServer {G : Type} {R : UniformRandom G}
    (fuel : nat) (g : G) : list bool -> OS -> run (list message * OS) :=
  thread (graphServer_steps fuel) 12346 g.

(** Descriptors are non-negative and given out once: the open ones are
    below the next. *)
Definition fresh (os : OS) : Prop :=
  0 <= next_fd os /\ Forall (fun fd => fd < next_fd os) (open_fds os).

End Lifecycle.

Import Lifecycle.

Lemma filter_fresh (fd : Z) (l : list Z) :
  Forall (fun fd' => fd' < fd) l ->
  filter (fun fd' => negb (fd' =? fd)) l = l.
Proof.
  induction 1 as [ | x l Hx Hl IH]; cbn [filter]; [reflexivity | ].
  destruct (Z.eqb_spec x fd); [lia | ]. cbn [negb]. now rewrite IH.
Qed.

(** X9.  A thread and its socket, for any loop [loop] (that of
    [positionServer] or of [graphServer]).  When [socket] fails the thread
    prints the error and returns: nothing is sent and no descriptor is
    open.  When [setsockopt] fails it also returns without sending, but the
    descriptor [socket] gave stays open: the constructor threw, so the
    destructor that closes it never runs.  Otherwise the thread returns
    only when its loop does, and then the descriptor has been closed: the
    open descriptors are those of before. *)
Theorem thread_socket_lifecycle {W : Type}
    (loop : UDPServer -> list bool -> state W -> run (state W))
    (p : Z) (w : W) (flags : list bool) (os : OS) :
  fresh os ->
  (socket_fails os = true ->
   thread loop p w flags os = Ret ([server_error Failed_to_create_socket], os))
  /\ (socket_fails os = false -> setsockopt_fails os = true ->
      exists os',
        thread loop p w flags os
        = Ret ([server_error Failed_to_set_broadcast_option], os')
        /\ open_fds os' = next_fd os :: open_fds os
        /\ os_net os' = os_net os)
  /\ (socket_fails os = false -> setsockopt_fails os = false ->
      forall msgs os',
        thread loop p w flags os = Ret (msgs, os') ->
        exists s,
          loop {| sock := next_fd os; port := p |} flags
            (Server.entry w (os_net os)) = Ret s
          /\ at_pc s = Returned
          /\ msgs = [server_started p; server_stopped]
          /\ os_net os' = net s
          /\ open_fds os' = open_fds os).
Proof.
  intros [Hfd Hfresh]. unfold thread, UDPServer_new, socket, setsockopt.
  assert (Hvalid : (next_fd os =? INVALID_SOCKET) = false)
    by (apply Z.eqb_neq; unfold INVALID_SOCKET; lia).
  split; [ | split].
  - intros ->. destruct os; reflexivity.
  - intros -> Hs. cbn [setsockopt_fails]. rewrite Hvalid, Hs.
    eexists. split; [reflexivity | split; reflexivity].
  - intros -> Hs. cbn [setsockopt_fails]. rewrite Hvalid, Hs.
    change (0 <? 0) with false. cbn iota. cbn [os_net].
    intros msgs os' H.
    destruct (loop {| sock := next_fd os; port := p |} flags
                (Server.entry w (os_net os))) as [s | | ]; cbn [bind] in H;
      try discriminate.
    exists s. split; [reflexivity | ].
    destruct (at_pc s); try discriminate.
    injection H as <- <-.
    split; [reflexivity | split; [reflexivity | split; [reflexivity | ]]].
    unfold UDPServer_delete, closesocket, with_net. cbn [open_fds sock filter].
    rewrite Z.eqb_refl. cbn [negb]. apply filter_fresh, Hfresh.
Qed.

Lemma thread_socket_lifecycle_witness :
  (let os := {| socket_fails := false; setsockopt_fails := true; next_fd := 3;
                open_fds := [0; 1; 2]; os_net := quiet [] |} in
   exists os',
     Lifecycle.positionServer 0 (0 : Z) [true; false] os
     = Ret ([server_error Failed_to_set_broadcast_option], os')
     /\ open_fds os' = next_fd os :: open_fds os
     /\ os_net os' = os_net os)
  /\ (let os := {| socket_fails := false; setsockopt_fails := false; next_fd := 3;
                   open_fds := [0; 1; 2]; os_net := quiet [] |} in
      exists msgs os' s,
        Lifecycle.graphServer 2 (0 : Z) [false] os = Ret (msgs, os')
        /\ graphServer_steps 2 {| sock := next_fd os; port := 12346 |} [false]
             (Server.entry (0 : Z) (os_net os)) = Ret s
        /\ at_pc s = Returned
        /\ msgs = [server_started 12346; server_stopped]
        /\ os_net os' = net s
        /\ open_fds os' = open_fds os).
Proof.
  split.
  - intros os.
    assert (Hfresh : fresh os)
      by (split; [unfold os; cbn; lia | repeat constructor]).
    exact (proj1 (proj2 (thread_socket_lifecycle (positionServer_steps 0) 12345
                           (NodeManager.construct (0 : Z)) [true; false] os Hfresh))
             eq_refl eq_refl).
  - intros os.
    assert (Hfresh : fresh os)
      by (split; [unfold os; cbn; lia | repeat constructor]).
    assert (E : exists r, Lifecycle.graphServer 2 (0 : Z) [false] os = Ret r)
      by (vm_compute; eexists; reflexivity).
    destruct E as [[msgs os'] E].
    destruct (proj2 (proj2 (thread_socket_lifecycle (graphServer_steps 2) 12346
                              (0 : Z) [false] os Hfresh))
                eq_refl eq_refl msgs os' E) as (s & H).
    exists msgs, os', s. split; [exact E | exact H].
Defined.

(** X10.  The sender id does not enter the sample: [generateGraph] called
    with two sender ids on the same engine leaves the same engine and two
    packets that differ in the two bytes of [sender_id] at most; and a
    sender id counts modulo 2^16. *)
Theorem generateGraph_sender_is_verbatim {G : Type} {R : UniformRandom G}
    (fuel : nat) (g : G) (sender_1 sender_2 : Z) :
  match GraphGenerator.generateGraph fuel sender_1 g,
        GraphGenerator.generateGraph fuel sender_2 g with
  | Ret (packet_1, g1), Ret (packet_2, g2) =>
      g1 = g2
      /\ skipn 2 packet_1 = skipn 2 packet_2
      /\ load16 packet_1 off_sender_id = Some (u16 sender_1)
      /\ load16 packet_2 off_sender_id = Some (u16 sender_2)
  | OutOfFuel, OutOfFuel => True
  | _, _ => False
  end
  /\ GraphGenerator.generateGraph fuel (sender_1 + 65536) g
     = GraphGenerator.generateGraph fuel sender_1 g.
Proof.
  rewrite !generateGraph_image.
  assert (Hwrap : u16 (sender_1 + 65536) = u16 sender_1).
  { unfold u16. replace (sender_1 + 65536) with (sender_1 + 1 * 65536) by lia.
    apply Z_mod_plus_full. }
  rewrite Hwrap. split; [ | reflexivity].
  destruct (sample_graph fuel g) as [[[k es] g'] | ]; [ | exact I].
  split; [reflexivity | split; [reflexivity | ]].
  split.
  - rewrite (load16_at' _ [] (map Octet (le16 k ++ enc_edges es)
                               ++ repeat Indet (300 - 6 * Z.to_nat k))
               off_sender_id (u16 sender_1));
      [now rewrite F32Bits.u16_idem
      | unfold enc_graph; rewrite !map_app, <- !app_assoc; reflexivity
      | reflexivity].
  - rewrite (load16_at' _ [] (map Octet (le16 k ++ enc_edges es)
                               ++ repeat Indet (300 - 6 * Z.to_nat k))
               off_sender_id (u16 sender_2));
      [now rewrite F32Bits.u16_idem
      | unfold enc_graph; rewrite !map_app, <- !app_assoc; reflexivity
      | reflexivity].
Qed.
